(** * Panora: Google Drive folder synchronisation, retry executor and
      Zendesk stage mapper

    A shallow embedding of
      - [packages/api/src/filestorage/folder/services/googledrive/index.ts]
        (class [GoogleDriveFolderService] and [isRateLimitError]);
      - [packages/api/src/crm/stage/services/zendesk/mappers.ts]
        (class [ZendeskStageMapper]).

    The service is asynchronous JavaScript.  An [async] function is a
    function of the program state that runs its synchronous prefix and
    returns a task: a settled promise, or a continuation suspended at an
    [await].  A task suspended at an [await] is resumed later, on the state
    left by whatever ran in between; [Promise.all] interleaves its tasks in
    an order given by a schedule.  Sequential code is recovered by [exec],
    which resumes one task until it settles. *)

From Stdlib Require Import ZArith List String Ascii Bool Lia DecimalString.
From Stdlib Require Import Permutation.
From stdpp Require Import base strings gmap.
Import ListNotations.

(** ** JavaScript values, as far as the code inspects them *)

Inductive atom : Type :=
| AUndefined
| ANull
| ABool (b : bool)
| ANum (n : Z)                   (* an integer, below 10^21 in absolute value *)
| AStr (s : string)
| AObject.                       (* some nested object, never looked into *)

(** A thrown or stored value: a primitive, or an object with its properties
    (own and inherited alike, as the [in] operator sees them). *)
Inductive jsval : Type :=
| Atom (a : atom)
| Obj (o : gmap string atom).

(** [o[k]]: a missing property reads as [undefined]. *)
Definition prop (o : gmap string atom) (k : string) : atom :=
  match o !! k with
  | Some a => a
  | None => AUndefined
  end.

Definition string_of_nat (n : nat) : string :=
  NilZero.string_of_uint (Nat.to_uint n).

Definition string_of_Z (n : Z) : string :=
  NilZero.string_of_int (Z.to_int n).

(** [String(a)], also the conversion of a template literal [`${a}`].  A
    number below 10^21 is written with all its digits (from there on
    [String] writes an exponent, and such numbers are not among the values
    described); a nested object is taken to be a plain one. *)
Definition to_string (a : atom) : string :=
  match a with
  | AUndefined => "undefined"
  | ANull => "null"
  | ABool true => "true"
  | ABool false => "false"
  | ANum n => string_of_Z n
  | AStr s => s
  | AObject => "[object Object]"
  end.

(** [hay.includes(needle)] *)
Fixpoint includes (needle hay : string) : bool :=
  String.prefix needle hay ||
  match hay with
  | EmptyString => false
  | String _ hay' => includes needle hay'
  end.

(** Truthiness of a string ([""] is falsy) and of [string | null]. *)
Definition truthy_string (s : string) : bool := negb (String.eqb s "").

Definition truthy (o : option string) : bool :=
  match o with
  | Some s => truthy_string s
  | None => false
  end.

(** [new Error(message)]: the only properties the code reads back are
    [message] and [code]; an [Error] has the first and not the second. *)
Definition new_Error (message : string) : jsval :=
  Obj {[ "message" := AStr message ]}.

(** [error.message] for a caught value of any kind.  Reading a property of
    [null] or [undefined] is itself a [TypeError]; a primitive has no
    [message]. *)
Definition message_of (error : jsval) : jsval + atom :=
  match error with
  | Obj o => inr (prop o "message")
  | Atom AUndefined =>
      inl (new_Error "Cannot read properties of undefined (reading 'message')")
  | Atom ANull =>
      inl (new_Error "Cannot read properties of null (reading 'message')")
  | Atom _ => inr AUndefined
  end.

(** ** [Map]: insertion-ordered, [set] on a present key updates in place *)

Section JsMap.
Context {K V : Type} `{EqDecision K}.

Fixpoint Map_get (k : K) (m : list (K * V)) : option V :=
  match m with
  | [] => None
  | (k', v) :: m' => if decide (k = k') then Some v else Map_get k m'
  end.

Definition Map_has (k : K) (m : list (K * V)) : bool :=
  match Map_get k m with Some _ => true | None => false end.

Fixpoint Map_set (k : K) (v : V) (m : list (K * V)) : list (K * V) :=
  match m with
  | [] => [(k, v)]
  | (k', v') :: m' =>
      if decide (k = k') then (k, v) :: m' else (k', v') :: Map_set k v m'
  end.

(** [new Map(entries)] *)
Definition Map_of (entries : list (K * V)) : list (K * V) :=
  fold_left (fun m kv => Map_set (fst kv) (snd kv) m) entries [].

Definition Map_keys (m : list (K * V)) : list K := map fst m.
Definition Map_values (m : list (K * V)) : list V := map snd m.
End JsMap.

Abbreviation JsMap K V := (list (K * V)) (only parsing).

(** ** Records of the service *)

(** A permission as Google Drive embeds it in a folder (its [id] and the
    rest of its content), [GoogledrivePermissionOutput]. *)
Record Permission : Type := {
  perm_id : string;
  perm_body : string
}.

(** An entry of [folder.permissions]: the embedded remote permission, or,
    after ingestion, the id of the stored permission. *)
Inductive PermissionRef : Type :=
| Embedded (p : Permission)
| Synced (id_fs_permission : string).

(** [permission.id]; a string has no such property. *)
Definition permission_id (r : PermissionRef) : option string :=
  match r with
  | Embedded p => Some (perm_id p)
  | Synced _ => None
  end.

(** [UnifiedFilestoragePermissionOutput], the fields read here. *)
Record UnifiedPermission : Type := {
  up_remote_id : string;
  up_id_fs_permission : string
}.

(** [GoogleDriveFolderOutput].  [internal_parent_folder_id = None] stands
    for [null] (and for the absent field of a folder not yet resolved). *)
Record Folder : Type := {
  f_id : string;
  f_name : string;
  f_parents : option (list string);
  f_driveId : option string;
  f_permissions : option (list PermissionRef);
  internal_id : option string;
  internal_parent_folder_id : option string
}.

(** A row of [connections] and a row of [fs_folders] (prisma). *)
Record connection : Type := {
  id_connection : string;
  id_linked_user : string;
  provider_slug : string;
  vertical : string;
  access_token : string
}.

Record fs_folder : Type := {
  id_fs_folder : string;
  remote_id : string;
  folder_id_connection : string;
  remote_modified_at : option Z
}.

Inductive level : Type := LOG | WARN | ERROR | CONSOLE.

(** ** The program state

    The persisted tables, the environment (identifiers drawn, requests sent
    to the provider, timers waited for, log lines, most recent first) and
    the mutable objects that one run shares between its asynchronous
    calls. *)
Record State : Type := {
  connections : list connection;
  fs_folders : list fs_folder;
  fs_permissions : list UnifiedPermission;
  uuids_drawn : nat;
  requests : nat;
  timers : list Z;
  logged : list (level * string);
  folderIdToInternalIdMap : JsMap string string;
  parentLookupCache : JsMap string (option string);
  foldersToSync : list Folder;
  googleDriveFolders : list Folder
}.

Definition set_uuids_drawn (n : nat) (s : State) : State :=
  {| connections := connections s; fs_folders := fs_folders s;
     fs_permissions := fs_permissions s; uuids_drawn := n;
     requests := requests s; timers := timers s; logged := logged s;
     folderIdToInternalIdMap := folderIdToInternalIdMap s;
     parentLookupCache := parentLookupCache s;
     foldersToSync := foldersToSync s;
     googleDriveFolders := googleDriveFolders s |}.

Definition set_requests (n : nat) (s : State) : State :=
  {| connections := connections s; fs_folders := fs_folders s;
     fs_permissions := fs_permissions s; uuids_drawn := uuids_drawn s;
     requests := n; timers := timers s; logged := logged s;
     folderIdToInternalIdMap := folderIdToInternalIdMap s;
     parentLookupCache := parentLookupCache s;
     foldersToSync := foldersToSync s;
     googleDriveFolders := googleDriveFolders s |}.

Definition set_timers (t : list Z) (s : State) : State :=
  {| connections := connections s; fs_folders := fs_folders s;
     fs_permissions := fs_permissions s; uuids_drawn := uuids_drawn s;
     requests := requests s; timers := t; logged := logged s;
     folderIdToInternalIdMap := folderIdToInternalIdMap s;
     parentLookupCache := parentLookupCache s;
     foldersToSync := foldersToSync s;
     googleDriveFolders := googleDriveFolders s |}.

Definition set_logged (l : list (level * string)) (s : State) : State :=
  {| connections := connections s; fs_folders := fs_folders s;
     fs_permissions := fs_permissions s; uuids_drawn := uuids_drawn s;
     requests := requests s; timers := timers s; logged := l;
     folderIdToInternalIdMap := folderIdToInternalIdMap s;
     parentLookupCache := parentLookupCache s;
     foldersToSync := foldersToSync s;
     googleDriveFolders := googleDriveFolders s |}.

Definition set_folderIdToInternalIdMap (m : JsMap string string)
    (s : State) : State :=
  {| connections := connections s; fs_folders := fs_folders s;
     fs_permissions := fs_permissions s; uuids_drawn := uuids_drawn s;
     requests := requests s; timers := timers s; logged := logged s;
     folderIdToInternalIdMap := m;
     parentLookupCache := parentLookupCache s;
     foldersToSync := foldersToSync s;
     googleDriveFolders := googleDriveFolders s |}.

Definition set_parentLookupCache (m : JsMap string (option string))
    (s : State) : State :=
  {| connections := connections s; fs_folders := fs_folders s;
     fs_permissions := fs_permissions s; uuids_drawn := uuids_drawn s;
     requests := requests s; timers := timers s; logged := logged s;
     folderIdToInternalIdMap := folderIdToInternalIdMap s;
     parentLookupCache := m;
     foldersToSync := foldersToSync s;
     googleDriveFolders := googleDriveFolders s |}.

Definition set_foldersToSync (l : list Folder) (s : State) : State :=
  {| connections := connections s; fs_folders := fs_folders s;
     fs_permissions := fs_permissions s; uuids_drawn := uuids_drawn s;
     requests := requests s; timers := timers s; logged := logged s;
     folderIdToInternalIdMap := folderIdToInternalIdMap s;
     parentLookupCache := parentLookupCache s;
     foldersToSync := l;
     googleDriveFolders := googleDriveFolders s |}.

Definition set_googleDriveFolders (l : list Folder) (s : State) : State :=
  {| connections := connections s; fs_folders := fs_folders s;
     fs_permissions := fs_permissions s; uuids_drawn := uuids_drawn s;
     requests := requests s; timers := timers s; logged := logged s;
     folderIdToInternalIdMap := folderIdToInternalIdMap s;
     parentLookupCache := parentLookupCache s;
     foldersToSync := foldersToSync s;
     googleDriveFolders := l |}.

(** ** Promises and [async] functions *)

(** How a promise settles.  [Fuel] is not a JavaScript outcome: it marks a
    run of the model cut short by its recursion bound or by a schedule that
    ended before every task had settled. *)
Inductive Outcome (A : Type) : Type :=
| Ok (a : A)
| Throw (e : jsval)
| Fuel.
Arguments Ok {A} a.
Arguments Throw {A} e.
Arguments Fuel {A}.

(** A task is settled, or suspended at an [await]: resumed on state [s] it
    runs synchronously to its next [await], leaving state [eff s] and the
    task [next s]. *)
Inductive Task (A : Type) : Type :=
| Settled (r : Outcome A)
| Await (next : State -> Task A) (eff : State -> State).
Arguments Settled {A} r.
Arguments Await {A} next eff.

(** The call of an [async] function: its synchronous prefix. *)
Definition Async (A : Type) : Type := State -> Task A * State.

Definition suspended {A} (k : Async A) : Task A :=
  Await (fun s => fst (k s)) (fun s => snd (k s)).

Definition ret {A} (a : A) : Async A := fun s => (Settled (Ok a), s).
Definition throw {A} (e : jsval) : Async A := fun s => (Settled (Throw e), s).
Definition out_of_fuel {A} : Async A := fun s => (Settled Fuel, s).

(** Synchronous reads and writes of the state. *)
Definition gets {A} (f : State -> A) : Async A :=
  fun s => (Settled (Ok (f s)), s).
Definition modify (f : State -> State) : Async unit :=
  fun s => (Settled (Ok tt), f s).

(** What follows a task once it has settled. *)
Fixpoint then_ {A B} (t : Task A) (k : A -> Async B) (s : State)
  : Task B * State :=
  match t with
  | Settled (Ok a) => k a s
  | Settled (Throw e) => (Settled (Throw e), s)
  | Settled Fuel => (Settled Fuel, s)
  | Await next eff =>
      (Await (fun s' => fst (then_ (next s') k (eff s')))
             (fun s' => snd (then_ (next s') k (eff s'))), s)
  end.

Definition bind {A B} (c : Async A) (k : A -> Async B) : Async B :=
  fun s => let (t, s1) := c s in then_ t k s1.

(** [await p]: the caller is suspended at least until the next turn of the
    event loop, even when [p] is already settled. *)
Fixpoint tick {A} (t : Task A) : Task A :=
  match t with
  | Settled r => Await (fun _ => Settled r) (fun s => s)
  | Await next eff => Await (fun s => tick (next s)) eff
  end.

Definition await {A} (c : Async A) : Async A :=
  fun s => let (t, s1) := c s in (tick t, s1).

(** [try { c } catch (error) { h error }] *)
Fixpoint catch_ {A} (t : Task A) (h : jsval -> Async A) (s : State)
  : Task A * State :=
  match t with
  | Settled (Throw e) => h e s
  | Settled r => (Settled r, s)
  | Await next eff =>
      (Await (fun s' => fst (catch_ (next s') h (eff s')))
             (fun s' => snd (catch_ (next s') h (eff s'))), s)
  end.

Definition try_catch {A} (c : Async A) (h : jsval -> Async A) : Async A :=
  fun s => let (t, s1) := c s in catch_ t h s1.

Declare Scope async_scope.
Delimit Scope async_scope with async.
Notation "x <- c ; k" := (bind c (fun x => k))
  (at level 20, c at level 100, k at level 200, only parsing) : async_scope.
Open Scope async_scope.

(** Resuming one task until it settles: what a caller with nothing else in
    flight observes. *)
Fixpoint run {A} (t : Task A) (s : State) : Outcome A * State :=
  match t with
  | Settled r => (r, s)
  | Await next eff => run (next s) (eff s)
  end.

Definition exec {A} (c : Async A) (s : State) : Outcome A * State :=
  let (t, s1) := c s in run t s1.

(** [for (const x of xs) { body }] with an accumulator. *)
Fixpoint for_of {X A} (xs : list X) (body : A -> X -> Async A) (a : A)
  : Async A :=
  match xs with
  | [] => ret a
  | x :: xs' => a' <- body a x; for_of xs' body a'
  end.

(** ** [Promise.all]

    The tasks have all been started, in the order of the array.  Each
    entry of the schedule names the task that is resumed next; an entry
    naming a settled task, or no task, resumes nothing.  The combined
    promise is fulfilled when every task is, and rejected as soon as one
    is; tasks still pending at that moment are not followed further. *)

Fixpoint gather {A} (ts : list (Task A)) : option (Outcome (list A)) :=
  match ts with
  | [] => Some (Ok [])
  | Settled (Throw e) :: _ => Some (Throw e)
  | Settled Fuel :: _ => Some Fuel
  | Settled (Ok a) :: ts' =>
      match gather ts' with
      | Some (Ok l) => Some (Ok (a :: l))
      | o => o
      end
  | Await _ _ :: ts' =>
      match gather ts' with
      | Some (Ok _) => None
      | o => o
      end
  end.

Fixpoint resume_nth {A} (i : nat) (ts : list (Task A)) (s : State)
  : list (Task A) * State :=
  match ts, i with
  | [], _ => ([], s)
  | Await next eff :: ts', O => (next s :: ts', eff s)
  | t :: ts', O => (t :: ts', s)
  | t :: ts', S i' =>
      let (ts'', s') := resume_nth i' ts' s in (t :: ts'', s')
  end.

Fixpoint all_task {A} (schedule : list nat) (ts : list (Task A))
  : Task (list A) :=
  match gather ts with
  | Some r => Settled r
  | None =>
      match schedule with
      | [] => Settled Fuel
      | i :: schedule' =>
          Await (fun s => all_task schedule' (fst (resume_nth i ts s)))
                (fun s => snd (resume_nth i ts s))
      end
  end.

Fixpoint start_all {A} (cs : list (Async A)) (s : State)
  : list (Task A) * State :=
  match cs with
  | [] => ([], s)
  | c :: cs' =>
      let (t, s1) := c s in
      let (ts, s2) := start_all cs' s1 in (t :: ts, s2)
  end.

Definition Promise_all {A} (schedule : list nat) (cs : list (Async A))
  : Async (list A) :=
  fun s => let (ts, s1) := start_all cs s in (all_task schedule ts, s1).

(** ** The collaborators of the service *)

(** The query string of a [files.list] request. *)
Inductive Query : Type :=
| FoldersIn (parent : string)
    (* mimeType='application/vnd.google-apps.folder' and 'parent' in parents *)
| ModifiedSince (t : Z).
    (* modifiedTime >= 't' *)

(** What varies in the parameters of [files.list]: the query and, for
    a shared drive, [driveId] with [corpora: 'drive']. *)
Record ListParams : Type := {
  list_q : Query;
  list_driveId : option string
}.

(** [response.data] of [files.list] and of [drives.list]. *)
Record ListResponse : Type := {
  files : option (list Folder);
  nextPageToken : option string
}.

Record DrivesResponse : Type := {
  drives : option (list string);
  drives_nextPageToken : option string
}.

Inductive Reply (A : Type) : Type :=
| Resolved (a : A)
| Rejected (e : jsval).
Arguments Resolved {A} a.
Arguments Rejected {A} e.

(** The Google Drive client.  The provider answers the request numbered
    [n] (counting every request sent so far) as it pleases; [files_get]
    gives [response.data]. *)
Record Drive : Type := {
  files_get : nat -> string -> Reply (option Folder);
  files_list : nat -> ListParams -> option string -> Reply ListResponse;
  drives_list : nat -> option string -> Reply DrivesResponse
}.

(** Sending a request: it is numbered and sent now, its answer is there
    when the caller is next resumed. *)
Definition request {A} (reply : nat -> Reply A) : Async A :=
  fun s =>
    (Await (fun _ => Settled match reply (requests s) with
                             | Resolved a => Ok a
                             | Rejected e => Throw e
                             end)
           (fun s' => s'),
     set_requests (S (requests s)) s).

(** A prisma read: the tables are read when the query is sent.  The read
    is answered: a run in which the store rejects a read is not among the
    runs described, and a statement about the failures of a run names the
    answers of the store among its premises. *)
Definition query {A} (read : State -> A) : Async A :=
  fun s => (Await (fun _ => Settled (Ok (read s))) (fun s' => s'), s).

(** [prisma.connections.findFirst({ where: { id_linked_user, provider_slug,
    vertical } })] *)
Definition connections_findFirst (linkedUserId slug vert : string)
  : Async (option connection) :=
  query (fun s =>
    find (fun c => String.eqb (id_linked_user c) linkedUserId
                   && String.eqb (provider_slug c) slug
                   && String.eqb (vertical c) vert)
         (connections s)).

(** [prisma.fs_folders.findFirst({ where: { remote_id, id_connection } })] *)
Definition fs_folders_findFirst (remoteId connectionId : string)
  : Async (option fs_folder) :=
  query (fun s =>
    find (fun r => String.eqb (remote_id r) remoteId
                   && String.eqb (folder_id_connection r) connectionId)
         (fs_folders s)).

(** [orderBy: { remote_modified_at: 'desc' }]: the first row in descending
    order, a row without a date sorting before all dated ones (the order of
    PostgreSQL). *)
Definition later (a b : option Z) : bool :=
  match a, b with
  | None, _ => true
  | Some _, None => false
  | Some x, Some y => (y <=? x)%Z
  end.

Fixpoint first_desc (best : option fs_folder) (rows : list fs_folder)
  : option fs_folder :=
  match rows with
  | [] => best
  | r :: rows' =>
      match best with
      | None => first_desc (Some r) rows'
      | Some b =>
          if later (remote_modified_at b) (remote_modified_at r)
          then first_desc best rows'
          else first_desc (Some r) rows'
      end
  end.

Definition logger (l : level) (message : string) : Async unit :=
  modify (fun s => set_logged ((l, message) :: logged s) s).

(** [new Promise((resolve) => setTimeout(resolve, ms))] *)
Definition delay (ms : Z) : Async unit :=
  fun s => (Await (fun _ => Settled (Ok tt)) (fun s' => s'),
            set_timers (ms :: timers s) s).

(** [set.has(x)] and [set.add(x)] on a [Set<string>] *)
Definition Set_has (x : string) (set : list string) : bool :=
  existsb (String.eqb x) set.

Definition Set_add (x : string) (set : list string) : list string :=
  if Set_has x set then set else set ++ [x].

(** ** [index.ts] *)

Definition RATE_LIMIT_DELAY : Z := 100.
Definition MAX_API_RETRIES : nat := 3.
Definition BASE_BACKOFF_MS : Z := 1000.

(** [isRateLimitError] *)
Definition isRateLimitError (error : jsval) : bool :=
  match error with
  | Atom _ => false                (* not an object, or null *)
  | Obj o =>
      match o !! "code", o !! "message" with
      | Some code, Some message =>
          match code with ANum n => (n =? 429)%Z | _ => false end
          || match message with AStr m => includes "quota" m | _ => false end
      | _, _ => false              (* 'code' in error && 'message' in error *)
      end
  end.

(** [error.message] of an object (used where the guard has established
    one). *)
Definition error_message (error : jsval) : atom :=
  match error with
  | Obj o => prop o "message"
  | Atom _ => AUndefined
  end.

(** [executeWithRetry].  The recursion is on the attempts still allowed:
    the test [retryCount >= MAX_API_RETRIES] stops it, so the budget
    [S (MAX_API_RETRIES - retryCount)] is never used up. *)
Fixpoint executeWithRetry_from {T} (budget : nat) (operation : Async T)
    (retryCount : nat) : Async T :=
  match budget with
  | O => out_of_fuel
  | S budget' =>
      try_catch
        (_ <- await (delay RATE_LIMIT_DELAY);
         await operation)
        (fun error =>
           if negb (isRateLimitError error) then throw error
           else if MAX_API_RETRIES <=? retryCount then
             throw (new_Error ("Failed after " +:+ string_of_nat MAX_API_RETRIES
                               +:+ " retries. Last error: "
                               +:+ to_string (error_message error)))
           else
             let backoffTime :=
               (BASE_BACKOFF_MS * 2 ^ Z.of_nat retryCount)%Z in
             _ <- await (delay backoffTime);
             executeWithRetry_from budget' operation (retryCount + 1))
  end.

Definition executeWithRetry {T} (operation : Async T) (retryCount : nat)
  : Async T :=
  executeWithRetry_from (S (MAX_API_RETRIES - retryCount)) operation retryCount.

(** The [do ... while (pageToken)] loops take a bound on the number of
    pages asked for: the provider alone decides when the listing ends. *)

Definition push_files (folders : list Folder) (response : ListResponse)
  : list Folder :=
  match files response with
  | Some (f :: fs) => folders ++ f :: fs       (* files?.length *)
  | _ => folders
  end.

(** [getModifiedFolders] *)
Fixpoint getModifiedFolders_from (fuel : nat) (drive : Drive) (query : Query)
    (pageToken : option string) (folders : list Folder)
  : Async (list Folder) :=
  match fuel with
  | O => out_of_fuel
  | S fuel' =>
      response <- await (request (fun n =>
        files_list drive n {| list_q := query; list_driveId := None |}
                   pageToken));
      let folders := push_files folders response in
      let pageToken := nextPageToken response in
      if truthy pageToken
      then getModifiedFolders_from fuel' drive query pageToken folders
      else ret folders
  end.

Definition getModifiedFolders (fuel : nat) (drive : Drive) (lastSyncTime : Z)
  : Async (list Folder) :=
  getModifiedFolders_from fuel drive (ModifiedSince lastSyncTime) None [].

(** [getLastSyncTime] *)
Definition getLastSyncTime (connectionId : string) : Async (option Z) :=
  lastSync <- await (query (fun s =>
    first_desc None
      (filter (fun r => String.eqb (folder_id_connection r) connectionId)
              (fs_folders s))));
  ret match lastSync with
      | Some row => remote_modified_at row
      | None => None
      end.

(** [fetchDriveIds] *)
Fixpoint fetchDriveIds_from (fuel : nat) (drive : Drive)
    (pageToken : option string) (driveIds : list string)
  : Async (list string) :=
  match fuel with
  | O => out_of_fuel
  | S fuel' =>
      response <- await (request (fun n => drives_list drive n pageToken));
      let driveIds :=
        match drives response with
        | Some ids => driveIds ++ ids
        | None => driveIds
        end in
      let pageToken := drives_nextPageToken response in
      if truthy pageToken
      then fetchDriveIds_from fuel' drive pageToken driveIds
      else ret driveIds
  end.

(** [response.data.id] *)
Definition data_id (data : option Folder) : Async string :=
  match data with
  | Some d => ret (f_id d)
  | None =>
      throw (new_Error "Cannot read properties of undefined (reading 'id')")
  end.

(** [folder.parents?.[0] || 'root'] *)
Definition first_parent (folder : Folder) : string :=
  match f_parents folder with
  | Some (p :: _) => if truthy_string p then p else "root"
  | _ => "root"
  end.

(** [createFolderWithInternalIds] *)
Definition createFolderWithInternalIds (folder : Folder)
    (internalParentId internalId : string) : Folder :=
  {| f_id := f_id folder; f_name := f_name folder;
     f_parents := f_parents folder; f_driveId := f_driveId folder;
     f_permissions := f_permissions folder;
     internal_id := Some internalId;
     internal_parent_folder_id :=
       if String.eqb internalParentId "root" then None
       else Some internalParentId |}.

(** [{ ...folder, internal_parent_folder_id, internal_id }] *)
Definition with_internal_ids (folder : Folder)
    (internal_parent_id : option string) (folder_internal_id : string)
  : Folder :=
  {| f_id := f_id folder; f_name := f_name folder;
     f_parents := f_parents folder; f_driveId := f_driveId folder;
     f_permissions := f_permissions folder;
     internal_id := Some folder_internal_id;
     internal_parent_folder_id := internal_parent_id |}.

(** [isStuckInLoop] *)
Definition isStuckInLoop (pending remaining : list Folder) : bool :=
  length pending =? length remaining.

(** [resolveParentId].  Its [idMap] and [cache] arguments are, at every
    call, the two maps of the current run, [folderIdToInternalIdMap] and
    [parentLookupCache]; they are read from and written to the state. *)
Definition resolveParentId (parentId : string) (driveIds : list string)
    (connectionId : string) : Async (option string) :=
  idMap <- gets folderIdToInternalIdMap;
  if Map_has parentId idMap then ret (Map_get parentId idMap)
  else if existsb (String.eqb parentId) driveIds || String.eqb parentId "root"
  then ret (Some "root")
  else
    cache <- gets parentLookupCache;
    match Map_get parentId cache with
    | Some cached => ret cached
    | None =>
        parent <- await (fs_folders_findFirst parentId connectionId);
        let result :=
          match parent with
          | Some row =>
              if truthy_string (id_fs_folder row)
              then Some (id_fs_folder row) else None
          | None => None
          end in
        _ <- modify (fun s =>
               set_parentLookupCache
                 (Map_set parentId result (parentLookupCache s)) s);
        ret result
    end.

(** How the concurrent descent of a full scan is scheduled: the turns for
    the [Promise.all] of one level, and a schedule for each child. *)
Inductive Schedule : Type :=
| Idle
| Turns (turns : list nat) (inner : nat -> Schedule).

Definition turns_of (sch : Schedule) : list nat :=
  match sch with
  | Idle => []
  | Turns t _ => t
  end.

Definition inner_of (sch : Schedule) (i : nat) : Schedule :=
  match sch with
  | Idle => Idle
  | Turns _ inner => inner i
  end.

Fixpoint indexed {X} (i : nat) (xs : list X) : list (nat * X) :=
  match xs with
  | [] => []
  | x :: xs' => (i, x) :: indexed (S i) xs'
  end.

(** [xs.forEach] with a body that draws from the state, in order. *)
Fixpoint map_in_order {X Y} (f : X -> Async Y) (xs : list X)
  : Async (list Y) :=
  match xs with
  | [] => ret []
  | x :: xs' => y <- f x; ys <- map_in_order f xs'; ret (y :: ys)
  end.

Section Service.

(** [uuidv4()]: the identifier it returns at its n-th call. *)
Variable uuid_of : nat -> string.

(** [this.cryptoService.decrypt]. *)
Variable decrypt : string -> Reply string.

(** [google.drive({ version: 'v3', auth })], [auth] holding the access
    token. *)
Variable google_drive : string -> Drive.

(** [this.ingestService.ingestData(permissions, 'googledrive',
    connectionId, 'filestorage', 'permission')]: the ingestion pipeline,
    whose code is not part of this service. *)
Variable ingestData :
  list PermissionRef -> string -> string -> string -> string ->
  Async (list UnifiedPermission).

Definition uuidv4 : Async string :=
  fun s => (Settled (Ok (uuid_of (uuids_drawn s))),
            set_uuids_drawn (S (uuids_drawn s)) s).

(** [getIntenalIdForFolder] *)
Definition getIntenalIdForFolder (folderId connectionId : string)
  : Async string :=
  folder <- await (fs_folders_findFirst folderId connectionId);
  match folder with
  | Some row =>
      if truthy_string (id_fs_folder row) then ret (id_fs_folder row)
      else uuidv4
  | None => uuidv4
  end.

(** [getInternalParentRecursive], the closure of
    [handleUnresolvedFolders].  The [try] block either leaves the function
    ([return null], also from [catch]) or hands over the promise of the
    recursive call, which is returned without being awaited and so is
    outside the reach of [catch]. *)
Fixpoint getInternalParentRecursive (fuel : nat)
    (remote_folders : JsMap string Folder) (driveIds : list string)
    (connectionId : string) (drive : Drive)
    (folder : Folder) (visitedIds : list string) : Async (option string) :=
  match fuel with
  | O => out_of_fuel
  | S fuel' =>
      let remote_parent_id := first_parent folder in
      if Set_has remote_parent_id visitedIds then
        _ <- logger WARN
               ("Circular reference detected for folder " +:+ f_id folder);
        ret None
      else
        let visitedIds := Set_add remote_parent_id visitedIds in
        internal_parent_id <-
          await (resolveParentId remote_parent_id driveIds connectionId);
        if truthy internal_parent_id then ret internal_parent_id
        else
          found <-
            try_catch
              (parentFolder <-
                 match Map_get remote_parent_id remote_folders with
                 | Some known => ret (Some known)
                 | None =>
                     await (executeWithRetry
                              (request (fun n =>
                                 files_get drive n remote_parent_id)) 0)
                 end;
               ret (inl parentFolder))
              (fun error =>
                 _ <- logger ERROR
                        ("Failed to resolve parent for folder "
                         +:+ f_id folder);
                 ret (inr None));
          match found with
          | inl None => ret None
          | inl (Some parentFolder) =>
              getInternalParentRecursive fuel' remote_folders driveIds
                connectionId drive parentFolder visitedIds
          | inr result => ret result
          end
  end.

(** The body of [pending.map(async (folder) => ...)]. *)
Definition resolve_pending (fuel : nat)
    (remote_folders : JsMap string Folder) (driveIds : list string)
    (connectionId : string) (drive : Drive) (folder : Folder)
  : Async unit :=
  internal_parent_id <-
    await (getInternalParentRecursive fuel remote_folders driveIds
             connectionId drive folder []);
  folder_internal_id <- uuidv4;
  _ <- modify (fun s =>
         set_folderIdToInternalIdMap
           (Map_set (f_id folder) folder_internal_id
              (folderIdToInternalIdMap s)) s);
  modify (fun s =>
    set_foldersToSync
      (foldersToSync s
       ++ [with_internal_ids folder internal_parent_id folder_internal_id])
      s).

(** [handleUnresolvedFolders].  Its arguments [output], [idCache] and
    [parentLookupCache] are the objects of the caller, [foldersToSync],
    [folderIdToInternalIdMap] and [parentLookupCache] of the state. *)
Definition handleUnresolvedFolders (schedule : list nat) (fuel : nat)
    (pending : list Folder) (remote_folders : JsMap string Folder)
    (driveIds : list string) (connectionId : string) (drive : Drive)
  : Async unit :=
  _ <- logger WARN
         ("Found " +:+ string_of_nat (length pending)
          +:+ " unresolved folders. Resolving them...");
  _ <- await (Promise_all schedule
                (map (resolve_pending fuel remote_folders driveIds
                        connectionId drive) pending));
  ret tt.

(** The body of [for (const folder of remainingFolders)]; the accumulator
    is [foldersStillPending]. *)
Definition resolve_in_pass (driveIds : list string) (connectionId : string)
    (foldersStillPending : list Folder) (folder : Folder)
  : Async (list Folder) :=
  let parentId := first_parent folder in
  internalParentId <- await (resolveParentId parentId driveIds connectionId);
  match internalParentId with
  | Some internalParentId =>
      if truthy_string internalParentId then
        folder_internal_id <-
          await (getIntenalIdForFolder (f_id folder) connectionId);
        _ <- modify (fun s =>
               set_foldersToSync
                 (foldersToSync s
                  ++ [createFolderWithInternalIds folder internalParentId
                        folder_internal_id]) s);
        _ <- modify (fun s =>
               set_folderIdToInternalIdMap
                 (Map_set (f_id folder) folder_internal_id
                    (folderIdToInternalIdMap s)) s);
        ret foldersStillPending
      else ret (foldersStillPending ++ [folder])
  | None => ret (foldersStillPending ++ [folder])
  end.

(** The [while (remainingFolders.length > 0)] loop.  A pass that is not
    stuck leaves fewer folders pending, so [S (length folders)] passes
    are never used up. *)
Fixpoint resolve_passes (passes : nat) (schedule : list nat) (fuel : nat)
    (connectionId : string) (driveIds : list string) (drive : Drive)
    (remainingFolders : list Folder) : Async unit :=
  match passes with
  | O => out_of_fuel
  | S passes' =>
      if 0 <? length remainingFolders then
        foldersStillPending <-
          for_of remainingFolders (resolve_in_pass driveIds connectionId) [];
        if isStuckInLoop foldersStillPending remainingFolders then
          resolved <- gets foldersToSync;
          let remote_folders :=
            Map_of (map (fun folder => (f_id folder, folder)) resolved) in
          await (handleUnresolvedFolders schedule fuel foldersStillPending
                   remote_folders driveIds connectionId drive)
        else
          resolve_passes passes' schedule fuel connectionId driveIds drive
            foldersStillPending
      else ret tt
  end.

(** [processFoldersWithParents] *)
Definition processFoldersWithParents (schedule : list nat) (fuel : nat)
    (folders : list Folder) (connectionId : string)
    (driveIds : list string) (drive : Drive) : Async (list Folder) :=
  _ <- modify (set_folderIdToInternalIdMap []);
  _ <- modify (set_foldersToSync []);
  _ <- modify (set_parentLookupCache []);
  _ <- resolve_passes (S (length folders)) schedule fuel connectionId
         driveIds drive folders;
  gets foldersToSync.

(** [fetchDriveIds] *)
Definition fetchDriveIds (fuel : nat) (auth : string) : Async (list string) :=
  let drive := google_drive auth in
  driveIds <- fetchDriveIds_from fuel drive None [];
  rootDrive <- await (request (fun n => files_get drive n "root"));
  rootId <- data_id rootDrive;
  ret (driveIds ++ [rootId]).

(** [getFoldersIncremental] *)
Definition getFoldersIncremental (schedule : list nat) (fuel : nat)
    (auth connectionId : string) (lastSyncTime : Z) : Async (list Folder) :=
  try_catch
    (let drive := google_drive auth in
     driveIds <- await (fetchDriveIds fuel auth);
     modifiedFolders <-
       await (executeWithRetry (getModifiedFolders fuel drive lastSyncTime) 0);
     await (processFoldersWithParents schedule fuel modifiedFolders
              connectionId driveIds drive))
    (fun error =>
       _ <- logger ERROR "Error in incremental folder sync";
       throw error).

(** [ingestPermissionsForFolders] *)

Definition allPermissions (folders : list Folder) : list PermissionRef :=
  fold_left
    (fun accumulator folder =>
       match f_permissions folder with
       | Some (p :: ps) => accumulator ++ p :: ps
       | _ => accumulator
       end)
    folders [].

Definition uniquePermissions (all : list PermissionRef)
  : list PermissionRef :=
  Map_values (Map_of (map (fun permission =>
                             (permission_id permission, permission)) all)).

Definition permissionIdMap (syncedPermissions : list UnifiedPermission)
  : JsMap string string :=
  Map_of (map (fun permission =>
                 (up_remote_id permission, up_id_fs_permission permission))
              syncedPermissions).

(** [permissionIdMap.get(permission.id)], [undefined] as [None]. *)
Definition synced_id (idMap : JsMap string string)
    (permission : PermissionRef) : option string :=
  match permission_id permission with
  | Some k => Map_get k idMap
  | None => None
  end.

Definition with_permissions (folder : Folder)
    (permissions : option (list PermissionRef)) : Folder :=
  {| f_id := f_id folder; f_name := f_name folder;
     f_parents := f_parents folder; f_driveId := f_driveId folder;
     f_permissions := permissions;
     internal_id := internal_id folder;
     internal_parent_folder_id := internal_parent_folder_id folder |}.

(** The body of the final [folders.forEach]. *)
Definition relink (idMap : JsMap string string) (folder : Folder) : Folder :=
  match f_permissions folder with
  | Some (p :: ps) =>
      with_permissions folder
        (Some (map Synced
                 (omap (fun x => x) (map (synced_id idMap) (p :: ps)))))
  | _ => folder
  end.

Definition ingestPermissionsForFolders (folders : list Folder)
    (connectionId : string) : Async (list Folder) :=
  if length folders =? 0 then
    _ <- logger WARN "No folders provided for ingesting permissions.";
    ret folders
  else
    try_catch
      (let all := allPermissions folders in
       if length all =? 0 then
         _ <- logger WARN "No permissions found in the provided folders.";
         ret folders
       else
         let unique := uniquePermissions all in
         _ <- logger LOG
                ("Ingesting " +:+ string_of_nat (length unique)
                 +:+ " unique permissions.");
         syncedPermissions <-
           await (ingestData unique "googledrive" connectionId
                    "filestorage" "permission");
         let idMap := permissionIdMap syncedPermissions in
         let folders := map (relink idMap) folders in
         _ <- logger LOG
                "Successfully ingested and updated folder permissions.";
         ret folders)
      (fun error =>
         _ <- logger ERROR "Error ingesting permissions for folders";
         throw error).

(** [fetchFoldersForParent], the closure of
    [recursiveGetGoogleDriveFolders] over [drive] and [rootDriveId]. *)

Definition buildQuery (parentId : option string) (driveId : string)
  : Query :=
  match parentId with
  | Some p => if truthy_string p then FoldersIn p else FoldersIn driveId
  | None => FoldersIn driveId
  end.

Fixpoint fetchFoldersForParent_from (fuel : nat) (drive : Drive)
    (parentId : option string) (driveId : string)
    (pageToken : option string) (folders : list Folder)
  : Async (list Folder) :=
  match fuel with
  | O => out_of_fuel
  | S fuel' =>
      response <- await (executeWithRetry (request (fun n =>
        files_list drive n
          {| list_q := buildQuery parentId driveId;
             list_driveId :=
               if String.eqb driveId "root" then None else Some driveId |}
          pageToken)) 0);
      let folders := push_files folders response in
      let pageToken := nextPageToken response in
      if truthy pageToken
      then fetchFoldersForParent_from fuel' drive parentId driveId
             pageToken folders
      else ret folders
  end.

(** [folder.driveId = folder.driveId || rootDriveId] *)
Definition default_driveId (rootDriveId : string) (folder : Folder)
  : Folder :=
  {| f_id := f_id folder; f_name := f_name folder;
     f_parents := f_parents folder;
     f_driveId :=
       if truthy (f_driveId folder) then f_driveId folder
       else Some rootDriveId;
     f_permissions := f_permissions folder;
     internal_id := internal_id folder;
     internal_parent_folder_id := internal_parent_folder_id folder |}.

Definition fetchFoldersForParent (fuel : nat) (drive : Drive)
    (rootDriveId : string) (parentId : option string) (driveId : string)
  : Async (list Folder) :=
  try_catch
    (folders <- fetchFoldersForParent_from fuel drive parentId driveId
                  None [];
     ret (map (default_driveId rootDriveId) folders))
    (fun error =>
       match message_of error with
       | inl type_error => throw type_error
       | inr message =>
           throw (new_Error ("Error fetching Google Drive folders: "
                             +:+ to_string message))
       end).

(** [populateFolders]; [allFolders] is [googleDriveFolders].  The depth of
    the remote tree bounds the recursion. *)
Fixpoint populateFolders (fuel : nat) (schedule : Schedule) (drive : Drive)
    (rootDriveId : string) (parentId internalParentId : option string)
    (level : nat) (driveId : string) : Async unit :=
  match fuel with
  | O => out_of_fuel
  | S fuel' =>
      currentLevelFolders <-
        await (fetchFoldersForParent fuel drive rootDriveId parentId driveId);
      currentLevelFolders <-
        map_in_order
          (fun folder =>
             id <- uuidv4;
             ret {| f_id := f_id folder; f_name := f_name folder;
                    f_parents := f_parents folder;
                    f_driveId := f_driveId folder;
                    f_permissions := f_permissions folder;
                    internal_id := Some id;
                    internal_parent_folder_id := internalParentId |})
          currentLevelFolders;
      _ <- modify (fun s =>
             set_googleDriveFolders
               (googleDriveFolders s ++ currentLevelFolders) s);
      _ <- await (Promise_all (turns_of schedule)
                    (map (fun child =>
                            populateFolders fuel' (inner_of schedule (fst child))
                              drive rootDriveId (Some (f_id (snd child)))
                              (internal_id (snd child)) (level + 1) driveId)
                         (indexed 0 currentLevelFolders)));
      ret tt
  end.

(** [recursiveGetGoogleDriveFolders]: one schedule for each drive. *)
Definition recursiveGetGoogleDriveFolders (fuel : nat)
    (schedules : nat -> Schedule) (auth connectionId : string)
  : Async (list Folder) :=
  let drive := google_drive auth in
  rootDriveId <-
    await (executeWithRetry
             (res <- request (fun n => files_get drive n "root");
              data_id res) 0);
  try_catch
    (driveIds <- await (fetchDriveIds fuel auth);
     _ <- modify (set_googleDriveFolders []);
     _ <- for_of (indexed 0 driveIds)
            (fun _ driveId =>
               await (populateFolders fuel (schedules (fst driveId)) drive
                        rootDriveId None None 0 (snd driveId)))
            tt;
     gets googleDriveFolders)
    (fun error =>
       _ <- logger ERROR "Error in recursiveGetGoogleDriveFolders";
       throw error).

(** [ApiResponse<GoogleDriveFolderOutput[]>] *)
Record ApiResponse : Type := {
  data : list Folder;
  message : string;
  statusCode : nat
}.

(** [sync].  [schedule] orders the fallback walks of an incremental run,
    [schedules] the descent of a full scan.  [ingestPermissionsForFolders]
    rewrites the folders in place, so the [folders] returned as [data] are
    the ones it leaves. *)
Definition sync (schedule : list nat) (schedules : nat -> Schedule)
    (fuel : nat) (linkedUserId : string) : Async ApiResponse :=
  try_catch
    (connection <-
       await (connections_findFirst linkedUserId "googledrive" "filestorage");
     match connection with
     | None =>
         ret {| data := []; message := "Connection not found";
                statusCode := 404 |}
     | Some connection =>
         match decrypt (access_token connection) with
         | Rejected error => throw error
         | Resolved auth =>
             lastSyncTime <-
               await (getLastSyncTime (id_connection connection));
             folders <-
               match lastSyncTime with
               | Some lastSyncTime =>
                   await (getFoldersIncremental schedule fuel auth
                            (id_connection connection) lastSyncTime)
               | None =>
                   await (recursiveGetGoogleDriveFolders fuel schedules auth
                            (id_connection connection))
               end;
             _ <- logger CONSOLE
                    ("Got " +:+ string_of_nat (length folders) +:+ " folders");
             folders <-
               await (ingestPermissionsForFolders folders
                        (id_connection connection));
             _ <- logger LOG
                    ("Synced " +:+ string_of_nat (length folders)
                     +:+ " Google Drive folders!");
             ret {| data := folders;
                    message := "Google Drive folders retrieved";
                    statusCode := 200 |}
         end
     end)
    (fun error =>
       _ <- logger ERROR "Error syncing Google Drive folders";
       _ <- logger CONSOLE "error";
       throw error).

End Service.

(** ** [addFolder] *)

(** [GoogleDriveFolderInput], the fields read by [addFolder]. *)
Record FolderInput : Type := {
  input_name : atom;
  input_parents : atom
}.

(** The [requestBody] of [files.create]. *)
Record FileMetadata : Type := {
  meta_name : atom;
  meta_mimeType : string;
  meta_parents : atom
}.

(** [ApiResponse<GoogleDriveFolderOutput>]; [created = None] is
    [data: null]. *)
Record CreateResponse : Type := {
  created : option (gmap string atom);
  create_message : string;
  create_statusCode : nat
}.

Section AddFolder.

(** [this.cryptoService.decrypt]. *)
Variable decrypt : string -> Reply string.

(** [google.drive({ version: 'v3', auth }).files.create], [auth] holding
    the access token; it gives [response.data]. *)
Variable files_create :
  string -> nat -> FileMetadata -> Reply (option (gmap string atom)).

(** [addFolder] *)
Definition addFolder (folderData : FolderInput) (linkedUserId : string)
  : Async CreateResponse :=
  try_catch
    (connection <-
       await (connections_findFirst linkedUserId "googledrive" "filestorage");
     match connection with
     | None =>
         ret {| created := None; create_message := "Connection not found";
                create_statusCode := 404 |}
     | Some connection =>
         match decrypt (access_token connection) with
         | Rejected error => throw error
         | Resolved auth =>
             let fileMetadata :=
               {| meta_name := input_name folderData;
                  meta_mimeType := "application/vnd.google-apps.folder";
                  meta_parents := input_parents folderData |} in
             response <-
               await (request (fun n => files_create auth n fileMetadata));
             match response with
             | None =>
                 throw (new_Error
                          "Cannot read properties of undefined (reading 'id')")
             | Some data =>
                 let createdFolder : gmap string atom :=
                   {[ "id" := prop data "id";
                      "name" := prop data "name";
                      "mimeType" := prop data "mimeType";
                      "createdTime" := prop data "createdTime";
                      "modifiedTime" := prop data "modifiedTime";
                      "parents" := prop data "parents" ]} in
                 ret {| created := Some createdFolder;
                        create_message := "Google Drive folder created";
                        create_statusCode := 201 |}
             end
         end
     end)
    (fun error =>
       _ <- logger ERROR "Error creating Google Drive folder";
       throw error).

End AddFolder.

(** ** [mappers.ts] *)

Module ZendeskStageMapper.

(** An entry of [customFieldMappings]. *)
Record CustomFieldMapping : Type := {
  slug : string;
  remote_id : string
}.

(** The prototype of the object [field_mappings]. *)
Inductive Prototype : Type :=
| ObjectPrototype                (* [Object.prototype], as [{}] has it *)
| NullPrototype                  (* [null] *)
| ValuePrototype.                (* an object taken from the record *)

(** [field_mappings] is given by its own properties and its prototype. *)
Record UnifiedStageOutput : Type := {
  unified_remote_id : string;
  remote_data : gmap string atom;
  stage_name : atom;
  field_mappings : gmap string atom;
  field_mappings_prototype : Prototype
}.

(** [object[key] = value] on the object that started as [{}].  Every key
    but ["__proto__"] becomes an own property.  ["__proto__"] is an
    accessor of [Object.prototype]: as long as the object inherits it, the
    assignment stores no property; it replaces the prototype when the value
    is an object or [null], and does nothing for another value.  Once the
    prototype is [null] the accessor is out of reach, and ["__proto__"] is
    a key like the others.  (An object taken from the record is parsed
    JSON: it inherits from [Object.prototype] and has no accessor and no
    read-only property.) *)
Definition assign (object : gmap string atom * Prototype) (key : string)
    (value : atom) : gmap string atom * Prototype :=
  let (own, prototype) := object in
  if String.eqb key "__proto__" then
    match own !! key, prototype with
    | None, ObjectPrototype | None, ValuePrototype =>
        match value with
        | AObject => (own, ValuePrototype)
        | ANull => (own, NullPrototype)
        | _ => (own, prototype)
        end
    | _, _ => (<[ key := value ]> own, prototype)
    end
  else (<[ key := value ]> own, prototype).

(** [mapSingleStageToUnified]; a [ZendeskStageOutput] is the object the
    provider returned. *)
Definition mapSingleStageToUnified (stage : gmap string atom)
    (connectionId : string)
    (customFieldMappings : option (list CustomFieldMapping))
  : UnifiedStageOutput :=
  let field_mappings :=
    match customFieldMappings with
    | Some mappings =>
        fold_left
          (fun field_mappings mapping =>
             assign field_mappings (slug mapping)
               (prop stage (remote_id mapping)))
          mappings (∅, ObjectPrototype)
    | None => (∅, ObjectPrototype)
    end in
  {| unified_remote_id := to_string (prop stage "id");
     remote_data := stage;
     stage_name := prop stage "name";
     field_mappings := fst field_mappings;
     field_mappings_prototype := snd field_mappings |}.

(** [unify] *)
Definition unify (source : gmap string atom + list (gmap string atom))
    (connectionId : string)
    (customFieldMappings : option (list CustomFieldMapping))
  : UnifiedStageOutput + list UnifiedStageOutput :=
  match source with
  | inl stage =>
      inl (mapSingleStageToUnified stage connectionId customFieldMappings)
  | inr stages =>
      inr (map (fun stage =>
                  mapSingleStageToUnified stage connectionId
                    customFieldMappings)
               stages)
  end.

End ZendeskStageMapper.

(** * Reasoning about one task at a time *)

(** [exec] gives asynchronous code its sequential reading: a binding runs
    its continuation on the state its first part left, [await] is
    transparent, [try]/[catch] hands a thrown value to the handler. *)

Definition and_then {A B} (r : Outcome A * State)
    (k : A -> State -> Outcome B * State) : Outcome B * State :=
  match r with
  | (Ok a, s) => k a s
  | (Throw e, s) => (Throw e, s)
  | (Fuel, s) => (Fuel, s)
  end.

Definition or_else {A} (r : Outcome A * State)
    (h : jsval -> State -> Outcome A * State) : Outcome A * State :=
  match r with
  | (Throw e, s) => h e s
  | _ => r
  end.

Lemma run_then {A B} (t : Task A) (k : A -> Async B) (s : State) :
  run (fst (then_ t k s)) (snd (then_ t k s))
  = and_then (run t s) (fun a s' => exec (k a) s').
Proof.
  revert s; induction t as [[a|e|]|next IH eff]; intros s; simpl;
    try reflexivity.
  - unfold exec. destruct (k a s); reflexivity.
  - apply IH.
Qed.

Lemma run_tick {A} (t : Task A) (s : State) : run (tick t) s = run t s.
Proof.
  revert s; induction t as [r|next IH eff]; intros s; simpl; auto.
Qed.

Lemma run_catch {A} (t : Task A) (h : jsval -> Async A) (s : State) :
  run (fst (catch_ t h s)) (snd (catch_ t h s))
  = or_else (run t s) (fun e s' => exec (h e) s').
Proof.
  revert s; induction t as [[a|e|]|next IH eff]; intros s; simpl;
    try reflexivity.
  - unfold exec. destruct (h e s); reflexivity.
  - apply IH.
Qed.

Lemma exec_ret {A} (a : A) s : exec (ret a) s = (Ok a, s).
Proof. reflexivity. Qed.

Lemma exec_throw {A} e s : exec (@throw A e) s = (Throw e, s).
Proof. reflexivity. Qed.

Lemma exec_out_of_fuel {A} s : exec (@out_of_fuel A) s = (Fuel, s).
Proof. reflexivity. Qed.

Lemma exec_gets {A} (f : State -> A) s : exec (gets f) s = (Ok (f s), s).
Proof. reflexivity. Qed.

Lemma exec_modify f s : exec (modify f) s = (Ok tt, f s).
Proof. reflexivity. Qed.

Lemma exec_bind {A B} (c : Async A) (k : A -> Async B) s :
  exec (bind c k) s = and_then (exec c s) (fun a s' => exec (k a) s').
Proof.
  unfold exec at 1 2, bind. destruct (c s) as [t s1].
  rewrite <- run_then. destruct (then_ t k s1); reflexivity.
Qed.

Lemma exec_await {A} (c : Async A) s : exec (await c) s = exec c s.
Proof.
  unfold exec, await. destruct (c s) as [t s1]. apply run_tick.
Qed.

Lemma exec_try_catch {A} (c : Async A) (h : jsval -> Async A) s :
  exec (try_catch c h) s = or_else (exec c s) (fun e s' => exec (h e) s').
Proof.
  unfold exec at 1 2, try_catch. destruct (c s) as [t s1].
  rewrite <- run_catch. destruct (catch_ t h s1); reflexivity.
Qed.

Lemma exec_request {A} (reply : nat -> Reply A) s :
  exec (request reply) s
  = (match reply (requests s) with
     | Resolved a => Ok a
     | Rejected e => Throw e
     end, set_requests (S (requests s)) s).
Proof. reflexivity. Qed.

Lemma exec_query {A} (read : State -> A) s :
  exec (query read) s = (Ok (read s), s).
Proof. reflexivity. Qed.

Lemma exec_delay ms s : exec (delay ms) s = (Ok tt, set_timers (ms :: timers s) s).
Proof. reflexivity. Qed.

Lemma exec_logger l m s :
  exec (logger l m) s = (Ok tt, set_logged ((l, m) :: logged s) s).
Proof. reflexivity. Qed.

Create Rewrite HintDb exec.
#[global] Hint Rewrite @exec_ret @exec_throw @exec_out_of_fuel @exec_gets
  @exec_modify @exec_bind @exec_await @exec_try_catch @exec_request
  @exec_query @exec_delay @exec_logger : exec.

Ltac exec_step := autorewrite with exec; cbn [and_then or_else].

(** ** [includes] and the classification of errors *)

Lemma append_String (a : ascii) (s t : string) :
  String a s +:+ t = String a (s +:+ t).
Proof. reflexivity. Qed.

Lemma append_empty (t : string) : "" +:+ t = t.
Proof. reflexivity. Qed.

Lemma prefix_app (n h : string) :
  String.prefix n h = true <-> exists post, h = n +:+ post.
Proof.
  revert h; induction n as [|a n IH]; intros h.
  - split; [intros _; exists h; reflexivity | intros _; destruct h; reflexivity].
  - destruct h as [|b h]; simpl.
    + split; [discriminate | intros [post H]; discriminate].
    + destruct (Ascii.ascii_dec a b) as [->|Hne].
      * rewrite IH. split; intros [post H]; exists post;
          rewrite append_String in *; congruence.
      * split; [discriminate|].
        intros [post H]; rewrite append_String in H; congruence.
Qed.

Lemma includes_spec (n h : string) :
  includes n h = true <-> exists pre post, h = pre +:+ n +:+ post.
Proof.
  revert n; induction h as [|b h IH]; intros n.
  - change (includes n "") with (String.prefix n "" || false).
    rewrite orb_false_r, prefix_app. split.
    + intros [post H]. exists "", post. exact H.
    + intros [pre [post H]]. destruct pre.
      * rewrite append_empty in H. eauto.
      * rewrite append_String in H. discriminate.
  - change (includes n (String b h))
      with (String.prefix n (String b h) || includes n h).
    rewrite orb_true_iff, prefix_app, IH. split.
    + intros [[post H]|[pre [post H]]].
      * exists "", post. exact H.
      * exists (String b pre), post. rewrite append_String. congruence.
    + intros [pre [post H]]. destruct pre as [|c pre].
      * left. rewrite append_empty in H. eauto.
      * right. rewrite append_String in H. exists pre, post. congruence.
Qed.

(** What [isRateLimitError] accepts: an object that has both a [code] and a
    [message], whose code is the number 429 or whose message is a string
    containing "quota". *)
Lemma isRateLimitError_spec (error : jsval) :
  isRateLimitError error = true <->
  exists o code message,
    error = Obj o /\ o !! "code" = Some code /\ o !! "message" = Some message /\
    (code = ANum 429 \/ exists m, message = AStr m /\ includes "quota" m = true).
Proof.
  unfold isRateLimitError. split.
  - destruct error as [a|o]; [discriminate|].
    destruct (o !! "code") as [code|] eqn:Hc; [|discriminate].
    destruct (o !! "message") as [message|] eqn:Hm; [|discriminate].
    intros H. exists o, code, message. repeat split; auto.
    apply orb_true_iff in H as [H|H].
    + left. destruct code; try discriminate. apply Z.eqb_eq in H. congruence.
    + right. destruct message; try discriminate. eauto.
  - intros (o & code & message & -> & Hc & Hm & H). rewrite Hc, Hm.
    apply orb_true_iff. destruct H as [->|(m & -> & H)]; auto.
Qed.

(** ** [executeWithRetry] *)

(** The state once [delay ms] has been waited for. *)
Definition waited (ms : Z) (s : State) : State :=
  set_timers (ms :: timers s) s.

(** The time spent in [delay] so far. *)
Definition total_delay (s : State) : Z := fold_right Z.add 0%Z (timers s).

Definition terminal_error (error : jsval) : jsval :=
  new_Error ("Failed after 3 retries. Last error: "
             +:+ to_string (error_message error)).

Section Retry.
Context {T : Type} (operation : Async T).

(** One attempt, and what follows it. *)
Lemma executeWithRetry_from_attempt budget retryCount s :
  exec (executeWithRetry_from (S budget) operation retryCount) s
  = or_else (exec operation (waited RATE_LIMIT_DELAY s))
      (fun error s' =>
         if negb (isRateLimitError error) then (Throw error, s')
         else if MAX_API_RETRIES <=? retryCount
              then (Throw (terminal_error error), s')
              else exec (executeWithRetry_from budget operation
                           (retryCount + 1))
                        (waited (BASE_BACKOFF_MS * 2 ^ Z.of_nat retryCount) s')).
Proof.
  cbn [executeWithRetry_from].
  rewrite exec_try_catch, exec_bind, exec_await, exec_delay.
  cbn [and_then]. rewrite exec_await. fold (waited RATE_LIMIT_DELAY s).
  destruct (exec operation (waited RATE_LIMIT_DELAY s)) as [[v|e|] s'];
    cbn [or_else]; try reflexivity.
  destruct (isRateLimitError e); cbn [negb]; [|reflexivity].
  destruct (MAX_API_RETRIES <=? retryCount); [reflexivity|].
  rewrite exec_bind, exec_await, exec_delay. reflexivity.
Qed.

Lemma executeWithRetry_attempt retryCount s :
  exec (executeWithRetry operation retryCount) s
  = or_else (exec operation (waited RATE_LIMIT_DELAY s))
      (fun error s' =>
         if negb (isRateLimitError error) then (Throw error, s')
         else if MAX_API_RETRIES <=? retryCount
              then (Throw (terminal_error error), s')
              else exec (executeWithRetry operation (retryCount + 1))
                        (waited (BASE_BACKOFF_MS * 2 ^ Z.of_nat retryCount) s')).
Proof.
  unfold executeWithRetry at 1. rewrite executeWithRetry_from_attempt.
  destruct (exec operation (waited RATE_LIMIT_DELAY s)) as [[v|e|] s'];
    cbn [or_else]; try reflexivity.
  destruct (negb (isRateLimitError e)); [reflexivity|].
  destruct (MAX_API_RETRIES <=? retryCount) eqn:E; [reflexivity|].
  apply Nat.leb_gt in E. unfold executeWithRetry.
  replace (S (MAX_API_RETRIES - (retryCount + 1)))
    with (MAX_API_RETRIES - retryCount) by lia.
  reflexivity.
Qed.

Lemma executeWithRetry_success retryCount s v s' :
  exec operation (waited RATE_LIMIT_DELAY s) = (Ok v, s') ->
  exec (executeWithRetry operation retryCount) s = (Ok v, s').
Proof. intros H. rewrite executeWithRetry_attempt, H. reflexivity. Qed.

Lemma executeWithRetry_propagates retryCount s error s' :
  exec operation (waited RATE_LIMIT_DELAY s) = (Throw error, s') ->
  isRateLimitError error = false ->
  exec (executeWithRetry operation retryCount) s = (Throw error, s').
Proof.
  intros H Hc. rewrite executeWithRetry_attempt, H. cbn [or_else].
  rewrite Hc. reflexivity.
Qed.

Lemma executeWithRetry_retries retryCount s error s' :
  exec operation (waited RATE_LIMIT_DELAY s) = (Throw error, s') ->
  isRateLimitError error = true ->
  retryCount < MAX_API_RETRIES ->
  exec (executeWithRetry operation retryCount) s
  = exec (executeWithRetry operation (retryCount + 1))
         (waited (BASE_BACKOFF_MS * 2 ^ Z.of_nat retryCount) s').
Proof.
  intros H Hc Hlt. rewrite executeWithRetry_attempt, H. cbn [or_else].
  rewrite Hc. cbn [negb].
  apply Nat.leb_gt in Hlt. rewrite Hlt. reflexivity.
Qed.

Lemma executeWithRetry_gives_up retryCount s error s' :
  exec operation (waited RATE_LIMIT_DELAY s) = (Throw error, s') ->
  isRateLimitError error = true ->
  MAX_API_RETRIES <= retryCount ->
  exec (executeWithRetry operation retryCount) s
  = (Throw (terminal_error error), s').
Proof.
  intros H Hc Hge. rewrite executeWithRetry_attempt, H. cbn [or_else].
  rewrite Hc. cbn [negb].
  apply Nat.leb_le in Hge. rewrite Hge. reflexivity.
Qed.

(** The retry budget is never what ends a run. *)
Lemma executeWithRetry_fuel retryCount s s' :
  (forall s1 s2, exec operation s1 <> (Fuel, s2)) ->
  exec (executeWithRetry operation retryCount) s <> (Fuel, s').
Proof.
  intros Hop.
  remember (MAX_API_RETRIES - retryCount) as d eqn:Hd.
  revert retryCount s Hd.
  induction d as [|d IH]; intros retryCount s Hd;
    rewrite executeWithRetry_attempt;
    destruct (exec operation (waited RATE_LIMIT_DELAY s)) as [[v|e|] s1] eqn:E;
    cbn [or_else]; try discriminate; try (exfalso; eapply Hop; exact E).
  - destruct (negb (isRateLimitError e)); [discriminate|].
    assert ((MAX_API_RETRIES <=? retryCount) = true) as E'
        by (apply Nat.leb_le; lia).
    rewrite E'. discriminate.
  - destruct (negb (isRateLimitError e)); [discriminate|].
    destruct (MAX_API_RETRIES <=? retryCount); [discriminate|].
    apply IH. lia.
Qed.
End Retry.

(** A state with nothing stored and nothing done yet. *)
Definition idle : State :=
  {| connections := []; fs_folders := []; fs_permissions := [];
     uuids_drawn := 0; requests := 0; timers := []; logged := [];
     folderIdToInternalIdMap := []; parentLookupCache := [];
     foldersToSync := []; googleDriveFolders := [] |}.

(** A failure in the words of the specification: HTTP code 429, or an
    error message containing the quota keyword. *)
Definition rate_limit_as_specified (error : jsval) : Prop :=
  exists o,
    error = Obj o /\
    (o !! "code" = Some (ANum 429) \/
     exists m, o !! "message" = Some (AStr m) /\ includes "quota" m = true).

(** C6, counterexample.  [new Error('quota exceeded')] has a message with
    the quota keyword and no [code]: [isRateLimitError] rejects it, and
    [executeWithRetry] lets it through on the first attempt. *)
Lemma executeWithRetry_quota_message_not_retried :
  exists error : jsval,
    rate_limit_as_specified error /\
    let operation : Async string := request (fun _ => Rejected error) in
    exists s',
      exec (executeWithRetry operation 0) idle = (Throw error, s') /\
      requests s' = 1 /\ timers s' = [RATE_LIMIT_DELAY].
Proof.
  exists (new_Error "quota exceeded"). split.
  - eexists. split; [reflexivity|]. right. exists "quota exceeded".
    split; reflexivity.
  - eexists. split; [|split]; reflexivity.
Qed.

(** C6 (amended).  A failed attempt is followed by another one exactly when
    [isRateLimitError] accepts the error (an object with both a [code] and
    a [message], the code being 429 or the message a string containing
    "quota") and the ceiling is not reached; the next attempt comes after
    a wait of [BASE_BACKOFF_MS * 2 ^ retryCount].  Any other failure is
    rethrown as it is, from the attempt where it occurred.  An operation
    failing with such errors on attempts 1 and 2 and succeeding on attempt
    3 gives its result after exactly 3 attempts, the waits before them
    adding up to at least [BASE_BACKOFF_MS + BASE_BACKOFF_MS * 2]. *)
Theorem executeWithRetry_retries_rate_limit_failures :
  forall (T : Type) (operation : Async T),
    (forall error,
        isRateLimitError error = true <->
        exists o code message,
          error = Obj o /\ o !! "code" = Some code /\
          o !! "message" = Some message /\
          (code = ANum 429 \/
           exists m, message = AStr m /\ includes "quota" m = true)) /\
    (forall retryCount s error s',
        exec operation (waited RATE_LIMIT_DELAY s) = (Throw error, s') ->
        (isRateLimitError error = false ->
         exec (executeWithRetry operation retryCount) s = (Throw error, s')) /\
        (isRateLimitError error = true ->
         retryCount < MAX_API_RETRIES ->
         exec (executeWithRetry operation retryCount) s
         = exec (executeWithRetry operation (retryCount + 1))
                (waited (BASE_BACKOFF_MS * 2 ^ Z.of_nat retryCount) s'))) /\
    (forall s e1 s1 e2 s2 v s3,
        (forall s, requests (snd (exec operation s)) = S (requests s)) ->
        (forall s, timers (snd (exec operation s)) = timers s) ->
        exec operation (waited RATE_LIMIT_DELAY s) = (Throw e1, s1) ->
        isRateLimitError e1 = true ->
        exec operation
          (waited RATE_LIMIT_DELAY (waited (BASE_BACKOFF_MS * 2 ^ 0) s1))
        = (Throw e2, s2) ->
        isRateLimitError e2 = true ->
        exec operation
          (waited RATE_LIMIT_DELAY (waited (BASE_BACKOFF_MS * 2 ^ 1) s2))
        = (Ok v, s3) ->
        exec (executeWithRetry operation 0) s = (Ok v, s3) /\
        requests s3 = requests s + 3 /\
        (total_delay s + (BASE_BACKOFF_MS + BASE_BACKOFF_MS * 2)
         <= total_delay s3)%Z).
Proof.
  intros T operation. split; [|split].
  - apply isRateLimitError_spec.
  - intros retryCount s error s' H. split.
    + apply executeWithRetry_propagates; assumption.
    + apply executeWithRetry_retries; assumption.
  - intros s e1 s1 e2 s2 v s3 Hone Htim H1 Hc1 H2 Hc2 H3. split; [|split].
    + rewrite (executeWithRetry_retries operation 0 s e1 s1 H1 Hc1)
        by (unfold MAX_API_RETRIES; lia).
      change (0 + 1) with 1. change (Z.of_nat 0) with 0%Z.
      rewrite (executeWithRetry_retries operation 1 _ e2 s2 H2 Hc2)
        by (unfold MAX_API_RETRIES; lia).
      apply executeWithRetry_success. exact H3.
    + pose proof (Hone (waited RATE_LIMIT_DELAY s)) as R1.
      pose proof (Hone (waited RATE_LIMIT_DELAY
                          (waited (BASE_BACKOFF_MS * 2 ^ 0) s1))) as R2.
      pose proof (Hone (waited RATE_LIMIT_DELAY
                          (waited (BASE_BACKOFF_MS * 2 ^ 1) s2))) as R3.
      rewrite H1 in R1. rewrite H2 in R2. rewrite H3 in R3.
      cbn [snd waited set_timers requests] in R1, R2, R3. lia.
    + pose proof (Htim (waited RATE_LIMIT_DELAY s)) as R1.
      pose proof (Htim (waited RATE_LIMIT_DELAY
                          (waited (BASE_BACKOFF_MS * 2 ^ 0) s1))) as R2.
      pose proof (Htim (waited RATE_LIMIT_DELAY
                          (waited (BASE_BACKOFF_MS * 2 ^ 1) s2))) as R3.
      rewrite H1 in R1. rewrite H2 in R2. rewrite H3 in R3.
      cbn [snd waited set_timers timers] in R1, R2, R3.
      unfold total_delay. rewrite R3, R2, R1. cbn [fold_right].
      unfold RATE_LIMIT_DELAY, BASE_BACKOFF_MS. lia.
Qed.


(** A provider that is rate limited on its first two answers. *)
Definition too_many_requests : jsval :=
  Obj {[ "code" := ANum 429; "message" := AStr "Too Many Requests" ]}.

Definition limited_twice : Async string :=
  request (fun n => match n with
                    | 0 | 1 => Rejected too_many_requests
                    | _ => Resolved "done"
                    end).

Definition always_limited : Async string :=
  request (fun _ => Rejected too_many_requests).

Lemma executeWithRetry_retries_rate_limit_failures_witness :
  exists s3,
    exec (executeWithRetry limited_twice 0) idle = (Ok "done", s3) /\
    requests s3 = requests idle + 3 /\
    (total_delay idle + (BASE_BACKOFF_MS + BASE_BACKOFF_MS * 2)
     <= total_delay s3)%Z.
Proof.
  eexists.
  eapply (proj2 (proj2 (executeWithRetry_retries_rate_limit_failures
                          string limited_twice)) idle);
    try (intros; reflexivity).
Defined.


(** ** Pagination *)

Definition page_files (response : ListResponse) : list Folder :=
  match files response with
  | Some l => l
  | None => []
  end.

Lemma push_files_app folders response :
  push_files folders response = folders ++ page_files response.
Proof.
  unfold push_files, page_files.
  destruct (files response) as [[|f fs]|]; auto using app_nil_r.
Qed.

(** The provider lists, for the parameters [params] and from the
    continuation token [pageToken] on, the page [first] and then the pages
    [rest]: every page but the last comes with a token (a non-empty
    string) that continues with the next page. *)
Fixpoint serves (drive : Drive) (params : ListParams)
    (pageToken : option string) (first : list Folder)
    (rest : list (list Folder)) : Prop :=
  match rest with
  | [] =>
      forall n, exists response,
        files_list drive n params pageToken = Resolved response /\
        page_files response = first /\
        truthy (nextPageToken response) = false
  | next :: rest' =>
      exists token,
        truthy_string token = true /\
        (forall n, exists response,
            files_list drive n params pageToken = Resolved response /\
            page_files response = first /\
            nextPageToken response = Some token) /\
        serves drive params (Some token) next rest'
  end.

Lemma getModifiedFolders_from_pages drive query rest :
  forall first pageToken folders fuel s,
    serves drive {| list_q := query; list_driveId := None |} pageToken
      first rest ->
    length rest < fuel ->
    exec (getModifiedFolders_from fuel drive query pageToken folders) s
    = (Ok (folders ++ concat (first :: rest)),
       set_requests (requests s + S (length rest)) s).
Proof.
  induction rest as [|next rest IH];
    intros first pageToken folders fuel s Hs Hfuel;
    (destruct fuel as [|fuel]; [simpl in Hfuel; lia|]);
    cbn [getModifiedFolders_from];
    rewrite exec_bind, exec_await, exec_request.
  - destruct (Hs (requests s)) as (response & -> & Hp & Ht).
    cbn [and_then]. rewrite Ht, exec_ret, push_files_app, Hp.
    cbn [concat length]. rewrite app_nil_r.
    replace (requests s + 1) with (S (requests s)) by lia. reflexivity.
  - destruct Hs as (token & Htok & Hpage & Hrest).
    destruct (Hpage (requests s)) as (response & -> & Hp & Ht).
    cbn [and_then]. rewrite Ht. cbn [truthy]. rewrite Htok.
    rewrite (IH next (Some token)) by (auto; simpl in Hfuel; lia).
    rewrite push_files_app, Hp. cbn [concat length].
    rewrite <- app_assoc. f_equal.
    cbn [requests set_requests].
    replace (S (requests s) + S (length rest))
      with (requests s + S (S (length rest))) by lia.
    reflexivity.
Qed.

Lemma fetchFoldersForParent_from_pages drive parentId driveId rest :
  forall first pageToken folders fuel s,
    serves drive
      {| list_q := buildQuery parentId driveId;
         list_driveId :=
           if String.eqb driveId "root" then None else Some driveId |}
      pageToken first rest ->
    length rest < fuel ->
    exists s',
      exec (fetchFoldersForParent_from fuel drive parentId driveId
              pageToken folders) s
      = (Ok (folders ++ concat (first :: rest)), s') /\
      requests s' = requests s + S (length rest).
Proof.
  induction rest as [|next rest IH];
    intros first pageToken folders fuel s Hs Hfuel;
    (destruct fuel as [|fuel]; [simpl in Hfuel; lia|]);
    cbn [fetchFoldersForParent_from];
    rewrite exec_bind, exec_await.
  - destruct (Hs (requests s)) as (response & Hr & Hp & Ht).
    erewrite executeWithRetry_success
      by (rewrite exec_request; cbn [waited set_timers requests];
          rewrite Hr; reflexivity).
    cbn [and_then]. rewrite Ht, exec_ret, push_files_app, Hp.
    cbn [concat length]. rewrite app_nil_r.
    eexists. split; [reflexivity|]. cbn [requests set_requests]. lia.
  - destruct Hs as (token & Htok & Hpage & Hrest).
    destruct (Hpage (requests s)) as (response & Hr & Hp & Ht).
    erewrite executeWithRetry_success
      by (rewrite exec_request; cbn [waited set_timers requests];
          rewrite Hr; reflexivity).
    cbn [and_then]. rewrite Ht. cbn [truthy]. rewrite Htok.
    edestruct (IH next (Some token)) as (s' & -> & Hreq);
      [exact Hrest | simpl in Hfuel; lia |].
    rewrite push_files_app, Hp. cbn [concat length].
    rewrite <- app_assoc. eexists. split; [reflexivity|].
    rewrite Hreq. cbn [requests set_requests waited set_timers]. lia.
Qed.

(** C5.  When the provider lists the folders of a query in the pages
    [first :: rest], each but the last with a token for the next,
    [getModifiedFolders] returns the folders of all the pages, in page
    order, having sent one request for each page; so does
    [fetchFoldersForParent], for the query of a parent, with [driveId]
    filled in on the folders that lack it.  In both, the number of folders
    returned is the sum of the sizes of the pages. *)
Theorem fetch_returns_all_pages :
  forall (drive : Drive) (first : list Folder) (rest : list (list Folder))
         (fuel : nat) (s : State),
    length rest < fuel ->
    (forall lastSyncTime,
        serves drive
          {| list_q := ModifiedSince lastSyncTime; list_driveId := None |}
          None first rest ->
        exec (getModifiedFolders fuel drive lastSyncTime) s
        = (Ok (concat (first :: rest)),
           set_requests (requests s + length (first :: rest)) s)) /\
    (forall rootDriveId parentId driveId,
        serves drive
          {| list_q := buildQuery parentId driveId;
             list_driveId :=
               if String.eqb driveId "root" then None else Some driveId |}
          None first rest ->
        exists s',
          exec (fetchFoldersForParent fuel drive rootDriveId parentId driveId) s
          = (Ok (map (default_driveId rootDriveId) (concat (first :: rest))),
             s') /\
          requests s' = requests s + length (first :: rest) /\
          map f_id (map (default_driveId rootDriveId) (concat (first :: rest)))
          = map f_id (concat (first :: rest))) /\
    length (concat (first :: rest))
    = list_sum (map (@length Folder) (first :: rest)).
Proof.
  intros drive first rest fuel s Hfuel. split; [|split].
  - intros lastSyncTime Hs. unfold getModifiedFolders.
    rewrite (getModifiedFolders_from_pages drive _ rest first) by assumption.
    reflexivity.
  - intros rootDriveId parentId driveId Hs. unfold fetchFoldersForParent.
    rewrite exec_try_catch, exec_bind.
    destruct (fetchFoldersForParent_from_pages drive parentId driveId rest
                first None [] fuel s Hs Hfuel) as (s' & -> & Hreq).
    cbn [and_then or_else app]. rewrite exec_ret. cbn [or_else].
    exists s'. split; [reflexivity|]. split; [exact Hreq|].
    rewrite map_map. reflexivity.
  - generalize (first :: rest). intros pages.
    induction pages as [|p pages IH]; cbn [concat map list_sum]; auto.
    rewrite length_app, IH. reflexivity.
Qed.

Definition folder_of (id : string) (parents : option (list string)) : Folder :=
  {| f_id := id; f_name := id; f_parents := parents; f_driveId := None;
     f_permissions := None; internal_id := None;
     internal_parent_folder_id := None |}.

(** A provider whose listing has two pages. *)
Definition two_pages : Drive :=
  {| files_get := fun _ _ => Resolved None;
     files_list := fun _ _ pageToken =>
       match pageToken with
       | None =>
           Resolved {| files := Some [folder_of "a" None];
                       nextPageToken := Some "page-2" |}
       | Some _ =>
           Resolved {| files := Some [folder_of "b" None; folder_of "c" None];
                       nextPageToken := None |}
       end;
     drives_list := fun _ _ =>
       Resolved {| drives := None; drives_nextPageToken := None |} |}.

Lemma fetch_returns_all_pages_witness :
  exec (getModifiedFolders 2 two_pages 0) idle
  = (Ok [folder_of "a" None; folder_of "b" None; folder_of "c" None],
     set_requests 2 idle).
Proof.
  apply (proj1 (fetch_returns_all_pages two_pages [folder_of "a" None]
                  [[folder_of "b" None; folder_of "c" None]] 2 idle
                  (le_n 2)) 0%Z).
  exists "page-2". split; [reflexivity|]. split.
  - intros n. eexists. split; [reflexivity|]. split; reflexivity.
  - intros n. eexists. split; [reflexivity|]. split; reflexivity.
Defined.

(** ** The Zendesk stage mapper *)

Section StageMapper.
Import ZendeskStageMapper.

Definition project (stage : gmap string atom)
    (field_mappings : gmap string atom) (mapping : CustomFieldMapping)
  : gmap string atom :=
  <[ slug mapping := prop stage (remote_id mapping) ]> field_mappings.

(** Without the slug ["__proto__"] every assignment stores an own property
    and the prototype stays as it is. *)
Lemma assign_plain stage (mappings : list CustomFieldMapping) :
  ~ In "__proto__" (map slug mappings) ->
  forall (own : gmap string atom) (prototype : Prototype),
    fold_left
      (fun field_mappings mapping =>
         assign field_mappings (slug mapping) (prop stage (remote_id mapping)))
      mappings (own, prototype)
    = (fold_left (project stage) mappings own, prototype).
Proof.
  induction mappings as [|m mappings IH]; intros Hnone own prototype;
    cbn [fold_left]; [reflexivity|].
  cbn [map In] in Hnone.
  assert (Hm : String.eqb (slug m) "__proto__" = false).
  { apply String.eqb_neq. intros E. apply Hnone. left. exact E. }
  unfold assign at 2. rewrite Hm. apply IH. tauto.
Qed.

Lemma project_later_slugs stage (later : list CustomFieldMapping) :
  forall (fm : gmap string atom) (k : string),
    ~ In k (map slug later) ->
    fold_left (project stage) later fm !! k = fm !! k.
Proof.
  induction later as [|m later IH]; intros fm k Hk; cbn [fold_left].
  - reflexivity.
  - cbn [map In] in Hk. rewrite IH by tauto.
    unfold project. apply lookup_insert_ne. tauto.
Qed.

Lemma project_last stage (before later : list CustomFieldMapping) mapping :
  ~ In (slug mapping) (map slug later) ->
  fold_left (project stage) (before ++ mapping :: later) ∅
    !! slug mapping
  = Some (prop stage (remote_id mapping)).
Proof.
  intros Hk. rewrite fold_left_app. cbn [fold_left].
  rewrite project_later_slugs by assumption.
  unfold project. apply lookup_insert_eq.
Qed.
End StageMapper.

(** C9, counterexample.  With two pairs for one slug the second assignment
    overwrites the first: the output does not hold the value of the first
    pair's attribute. *)
Lemma mapSingleStageToUnified_repeated_slug :
  exists (stage : gmap string atom)
         (mappings : list ZendeskStageMapper.CustomFieldMapping)
         (mapping : ZendeskStageMapper.CustomFieldMapping),
    In mapping mappings /\
    prop (ZendeskStageMapper.field_mappings
            (ZendeskStageMapper.mapSingleStageToUnified stage "c"
               (Some mappings)))
         (ZendeskStageMapper.slug mapping)
    <> prop stage (ZendeskStageMapper.remote_id mapping).
Proof.
  exists {[ "p_level" := AStr "high"; "urgency" := AStr "low" ]}.
  exists [ {| ZendeskStageMapper.slug := "priority";
              ZendeskStageMapper.remote_id := "p_level" |};
           {| ZendeskStageMapper.slug := "priority";
              ZendeskStageMapper.remote_id := "urgency" |} ].
  exists {| ZendeskStageMapper.slug := "priority";
            ZendeskStageMapper.remote_id := "p_level" |}.
  split; [left; reflexivity|].
  vm_compute. discriminate.
Qed.

(** C9 (amended).  For every record and every list of custom field
    mappings in which no pair has the slug ["__proto__"], each pair whose
    slug is not used again later in the list has the record's value of its
    attribute as the own property [field_mappings[slug]] of the output (for
    a slug used more than once, that is the last of its pairs), and the
    prototype of [field_mappings] is untouched.  With the single pair
    priority/p_level and a record whose [p_level] is "high",
    [field_mappings["priority"]] is "high". *)
Theorem mapSingleStageToUnified_projects_custom_fields :
  forall (stage : gmap string atom) (connectionId : string),
    (forall (before later : list ZendeskStageMapper.CustomFieldMapping)
            (mapping : ZendeskStageMapper.CustomFieldMapping),
        ~ In "__proto__"
             (map ZendeskStageMapper.slug (before ++ mapping :: later)) ->
        ~ In (ZendeskStageMapper.slug mapping)
             (map ZendeskStageMapper.slug later) ->
        let output :=
          ZendeskStageMapper.mapSingleStageToUnified stage connectionId
            (Some (before ++ mapping :: later)) in
        ZendeskStageMapper.field_mappings output
          !! ZendeskStageMapper.slug mapping
        = Some (prop stage (ZendeskStageMapper.remote_id mapping)) /\
        ZendeskStageMapper.field_mappings_prototype output
        = ZendeskStageMapper.ObjectPrototype) /\
    (stage !! "p_level" = Some (AStr "high") ->
     ZendeskStageMapper.field_mappings
       (ZendeskStageMapper.mapSingleStageToUnified stage connectionId
          (Some [ {| ZendeskStageMapper.slug := "priority";
                     ZendeskStageMapper.remote_id := "p_level" |} ]))
       !! "priority"
     = Some (AStr "high")).
Proof.
  intros stage connectionId. split.
  - intros before later mapping Hnone Hlast output. subst output.
    unfold ZendeskStageMapper.mapSingleStageToUnified.
    cbn [ZendeskStageMapper.field_mappings
         ZendeskStageMapper.field_mappings_prototype].
    rewrite (assign_plain stage _ Hnone). cbn [fst snd].
    split; [|reflexivity].
    apply (project_last stage before later mapping Hlast).
  - intros Hhigh.
    unfold ZendeskStageMapper.mapSingleStageToUnified.
    cbn [ZendeskStageMapper.field_mappings fold_left
         ZendeskStageMapper.slug ZendeskStageMapper.remote_id].
    unfold ZendeskStageMapper.assign. cbn [String.eqb Ascii.eqb Bool.eqb fst].
    rewrite lookup_insert_eq. unfold prop. rewrite Hhigh. reflexivity.
Qed.

Lemma mapSingleStageToUnified_projects_custom_fields_witness :
  ZendeskStageMapper.field_mappings
    (ZendeskStageMapper.mapSingleStageToUnified
       {[ "id" := ANum 7; "p_level" := AStr "high" ]} "c"
       (Some [ {| ZendeskStageMapper.slug := "priority";
                  ZendeskStageMapper.remote_id := "p_level" |} ]))
    !! "priority"
  = Some (AStr "high").
Proof.
  apply (proj2 (mapSingleStageToUnified_projects_custom_fields
                  {[ "id" := ANum 7; "p_level" := AStr "high" ]} "c")).
  reflexivity.
Defined.

(** The slug ["__proto__"] is no key of the output: the assignment goes to
    the accessor of [Object.prototype], which ignores a string. *)
Example mapSingleStageToUnified_proto_slug :
  let output :=
    ZendeskStageMapper.mapSingleStageToUnified
      {[ "p_level" := AStr "high" ]} "c"
      (Some [ {| ZendeskStageMapper.slug := "__proto__";
                 ZendeskStageMapper.remote_id := "p_level" |};
              {| ZendeskStageMapper.slug := "other";
                 ZendeskStageMapper.remote_id := "p_level" |} ]) in
  ZendeskStageMapper.field_mappings output !! "__proto__" = None /\
  ZendeskStageMapper.field_mappings output !! "other" = Some (AStr "high") /\
  ZendeskStageMapper.field_mappings_prototype output
  = ZendeskStageMapper.ObjectPrototype.
Proof. vm_compute. auto. Qed.

(** ** [sync] without a connection *)

(** C10.  When no row of [connections] is a Google Drive file-storage
    connection of the linked user, [sync] answers 404 with no folders and
    leaves the whole state as it was: no request is sent to the provider
    and no table is written. *)
Theorem sync_without_connection :
  forall (uuid_of : nat -> string) (decrypt : string -> Reply string)
         (google_drive : string -> Drive)
         (ingestData : list PermissionRef -> string -> string -> string ->
                       string -> Async (list UnifiedPermission))
         (schedule : list nat) (schedules : nat -> Schedule) (fuel : nat)
         (linkedUserId : string) (s : State),
    (forall c, In c (connections s) ->
               ~ (id_linked_user c = linkedUserId /\
                  provider_slug c = "googledrive" /\
                  vertical c = "filestorage")) ->
    exec (sync uuid_of decrypt google_drive ingestData schedule schedules
            fuel linkedUserId) s
    = (Ok {| data := []; message := "Connection not found";
             statusCode := 404 |}, s).
Proof.
  intros uuid_of decrypt google_drive ingestData schedule schedules fuel
    linkedUserId s Hnone.
  unfold sync. rewrite exec_try_catch, exec_bind, exec_await.
  unfold connections_findFirst. rewrite exec_query. cbn [and_then].
  match goal with |- context [find ?p ?l] => destruct (find p l) eqn:E end.
  - exfalso. apply find_some in E as [Hin Hc].
    apply (Hnone c Hin).
    apply andb_true_iff in Hc as [Hc Hv].
    apply andb_true_iff in Hc as [Hu Hp].
    apply String.eqb_eq in Hu, Hp, Hv. auto.
  - rewrite exec_ret. reflexivity.
Qed.

Lemma sync_without_connection_witness :
  exec (sync (fun _ => "u") (fun t => Resolved t) (fun _ => two_pages)
          (fun _ _ _ _ _ => ret []) [] (fun _ => Idle) 5 "user-1")
       idle
  = (Ok {| data := []; message := "Connection not found";
           statusCode := 404 |}, idle).
Proof.
  apply sync_without_connection.
  intros c Hin. destruct Hin.
Defined.

(** ** Facts about [Map] *)

Section JsMapFacts.
Context {K V : Type} `{EqDecision K}.
Implicit Types (m : list (K * V)) (k : K) (v : V).

Lemma Map_get_app k m1 m2 :
  Map_get k (m1 ++ m2)
  = match Map_get k m1 with Some v => Some v | None => Map_get k m2 end.
Proof.
  induction m1 as [|[k' v'] m1 IH]; cbn [Map_get app]; [reflexivity|].
  destruct (decide (k = k')); auto.
Qed.

Lemma Map_get_set k' k v m :
  Map_get k' (Map_set k v m)
  = if decide (k' = k) then Some v else Map_get k' m.
Proof.
  induction m as [|[k0 v0] m IH]; cbn [Map_set Map_get].
  - destruct (decide (k' = k)); reflexivity.
  - destruct (decide (k = k0)) as [->|Hne]; cbn [Map_get].
    + destruct (decide (k' = k0)); reflexivity.
    + rewrite IH. destruct (decide (k' = k0)) as [->|Hne'].
      * destruct (decide (k0 = k)); congruence.
      * reflexivity.
Qed.

Lemma Map_get_set_eq k v m : Map_get k (Map_set k v m) = Some v.
Proof. rewrite Map_get_set. destruct (decide (k = k)); congruence. Qed.

Lemma Map_get_set_ne k' k v m :
  k' <> k -> Map_get k' (Map_set k v m) = Map_get k' m.
Proof. intros. rewrite Map_get_set. destruct (decide (k' = k)); congruence. Qed.

Lemma Map_get_In k v m : Map_get k m = Some v -> In (k, v) m.
Proof.
  induction m as [|[k' v'] m IH]; cbn [Map_get]; [discriminate|].
  destruct (decide (k = k')) as [->|Hne].
  - intros [= ->]. left. reflexivity.
  - intros Hg. right. auto.
Qed.

Lemma Map_get_key k m : In k (Map_keys m) -> exists v, Map_get k m = Some v.
Proof.
  induction m as [|[k' v'] m IH]; cbn [Map_keys map In Map_get fst];
    [tauto|].
  intros Hin. destruct (decide (k = k')); eauto.
  destruct Hin as [->|Hin]; [congruence|auto].
Qed.

Lemma Map_get_NoDup k v m :
  List.NoDup (Map_keys m) -> In (k, v) m -> Map_get k m = Some v.
Proof.
  induction m as [|[k' v'] m IH]; cbn [Map_keys map In Map_get fst];
    [tauto|].
  intros Hnd [Heq|Hin].
  - injection Heq as -> ->. destruct (decide (k = k)); congruence.
  - apply NoDup_cons_iff in Hnd as [Hout Hnd].
    destruct (decide (k = k')) as [->|Hne]; [|auto].
    exfalso. apply Hout. change (In k' (map fst m)).
    apply in_map_iff. exists (k', v). auto.
Qed.

Lemma Map_keys_set k0 k v m :
  In k0 (Map_keys (Map_set k v m)) <-> k0 = k \/ In k0 (Map_keys m).
Proof.
  induction m as [|[k' v'] m IH]; cbn [Map_set Map_keys map In fst].
  - intuition.
  - destruct (decide (k = k')) as [->|Hne]; cbn [map In fst].
    + intuition.
    + fold (Map_keys (Map_set k v m)). rewrite IH.
      fold (Map_keys m). intuition.
Qed.

Lemma Map_set_NoDup k v m :
  List.NoDup (Map_keys m) -> List.NoDup (Map_keys (Map_set k v m)).
Proof.
  induction m as [|[k' v'] m IH]; cbn [Map_set Map_keys map fst]; intros Hnd.
  - constructor; [intros []|constructor].
  - destruct (decide (k = k')) as [->|Hne]; cbn [map fst]; [exact Hnd|].
    apply NoDup_cons_iff in Hnd as [Hout Hnd].
    apply NoDup_cons_iff. split; [|apply IH; exact Hnd].
    fold (Map_keys (Map_set k v m)). rewrite Map_keys_set.
    intros [Heq|Hin]; [congruence|auto].
Qed.

Lemma Map_fold_NoDup (entries : list (K * V)) m :
  List.NoDup (Map_keys m) ->
  List.NoDup (Map_keys
           (fold_left (fun m kv => Map_set (fst kv) (snd kv) m) entries m)).
Proof.
  revert m; induction entries as [|e entries IH]; intros m Hnd;
    cbn [fold_left]; auto using Map_set_NoDup.
Qed.

Lemma Map_of_NoDup (entries : list (K * V)) : List.NoDup (Map_keys (Map_of entries)).
Proof. apply Map_fold_NoDup. constructor. Qed.

Lemma Map_fold_get (entries : list (K * V)) m k :
  Map_get k (fold_left (fun m kv => Map_set (fst kv) (snd kv) m) entries m)
  = match Map_get k (rev entries) with
    | Some v => Some v
    | None => Map_get k m
    end.
Proof.
  revert m; induction entries as [|[k' v'] entries IH]; intros m;
    cbn [fold_left rev]; [reflexivity|].
  rewrite IH, Map_get_app. cbn [fst snd Map_get].
  destruct (Map_get k (rev entries)); [reflexivity|].
  rewrite Map_get_set. destruct (decide (k = k')); reflexivity.
Qed.

(** [new Map(entries).get(k)] is the value of the last entry for [k]. *)
Lemma Map_of_get (entries : list (K * V)) k :
  Map_get k (Map_of entries) = Map_get k (rev entries).
Proof.
  unfold Map_of. rewrite Map_fold_get.
  destruct (Map_get k (rev entries)); reflexivity.
Qed.
End JsMapFacts.

(** ** Permissions shared between folders *)

(** The entries from which [uniquePermissions] builds its [Map]. *)
Definition permission_entries (all : list PermissionRef)
  : list (option string * PermissionRef) :=
  map (fun permission => (permission_id permission, permission)) all.

(** What the final [forEach] leaves in [folder.permissions]: the stored id
    of each permission that has one, the others dropped. *)
Definition relinked (idMap : JsMap string string)
    (permissions : list PermissionRef) : list PermissionRef :=
  flat_map (fun permission =>
              match synced_id idMap permission with
              | Some id => [Synced id]
              | None => []
              end)
           permissions.

Lemma relink_permissions idMap folder :
  f_permissions (relink idMap folder)
  = match f_permissions folder with
    | Some (p :: ps) => Some (relinked idMap (p :: ps))
    | other => other
    end.
Proof.
  unfold relink. destruct (f_permissions folder) as [[|p ps]|] eqn:E;
    try (rewrite E; reflexivity).
  cbn [with_permissions f_permissions]. f_equal.
  unfold relinked. generalize (p :: ps). intros l.
  induction l as [|r l IH]; [reflexivity|].
  cbn [map flat_map].
  destruct (synced_id idMap r); cbn [omap list_omap map app].
  - f_equal. exact IH.
  - exact IH.
Qed.

Lemma relink_id idMap folder : f_id (relink idMap folder) = f_id folder.
Proof.
  unfold relink. destruct (f_permissions folder) as [[|p ps]|]; reflexivity.
Qed.

Lemma uniquePermissions_NoDup all :
  List.NoDup (map permission_id (uniquePermissions all)).
Proof.
  unfold uniquePermissions. fold (permission_entries all).
  pose proof (Map_of_NoDup (permission_entries all)) as Hnd.
  assert (Hkeys : forall m : list (option string * PermissionRef),
             (forall k p, In (k, p) m -> k = permission_id p) ->
             map permission_id (Map_values m) = Map_keys m).
  { induction m as [|[k p] m IH]; intros Hm; [reflexivity|].
    cbn [Map_values Map_keys map fst snd].
    rewrite <- (Hm k p) by (left; reflexivity).
    f_equal. apply IH. intros k' p' Hin. apply Hm. right. exact Hin. }
  rewrite Hkeys; [exact Hnd|].
  intros k p Hin. apply (Map_get_NoDup _ _ _ Hnd) in Hin.
  rewrite Map_of_get in Hin. apply Map_get_In in Hin.
  apply in_rev in Hin. unfold permission_entries in Hin.
  apply in_map_iff in Hin as (q & [= <- <-] & _). reflexivity.
Qed.

Lemma uniquePermissions_last all p :
  In p (uniquePermissions all) <->
  Map_get (permission_id p) (rev (permission_entries all)) = Some p.
Proof.
  unfold uniquePermissions. fold (permission_entries all).
  pose proof (Map_of_NoDup (permission_entries all)) as Hnd.
  split.
  - intros Hin. apply in_map_iff in Hin as ([k q] & Hq & Hin).
    cbn [snd] in Hq. subst q.
    apply (Map_get_NoDup _ _ _ Hnd) in Hin.
    rewrite Map_of_get in Hin.
    assert (k = permission_id p) as ->; [|exact Hin].
    apply Map_get_In, in_rev in Hin. unfold permission_entries in Hin.
    apply in_map_iff in Hin as (q & [= <- <-] & _). reflexivity.
  - intros Hg. rewrite <- Map_of_get in Hg. apply Map_get_In in Hg.
    apply in_map_iff. exists (permission_id p, p). auto.
Qed.

Lemma uniquePermissions_covers all q :
  In q all ->
  exists p, In p (uniquePermissions all) /\ permission_id p = permission_id q.
Proof.
  intros Hin.
  assert (Hk : In (permission_id q) (Map_keys (rev (permission_entries all)))).
  { unfold Map_keys. apply in_map_iff. exists (permission_id q, q).
    split; [reflexivity|]. apply -> in_rev. unfold permission_entries.
    apply in_map_iff. eauto. }
  apply Map_get_key in Hk as [p Hp]. exists p.
  assert (permission_id p = permission_id q) as Hid.
  { apply Map_get_In, in_rev in Hp. unfold permission_entries in Hp.
    apply in_map_iff in Hp as (r & [= Hr <-] & _). auto. }
  split; [|exact Hid].
  apply uniquePermissions_last. rewrite Hid. exact Hp.
Qed.

(** What [reduce] collects: the permissions of every folder of the batch,
    folder after folder. *)
Lemma allPermissions_flat_map (folders : list Folder) :
  allPermissions folders
  = flat_map (fun folder =>
                match f_permissions folder with
                | Some permissions => permissions
                | None => []
                end)
             folders.
Proof.
  unfold allPermissions.
  set (embedded := fun folder : Folder =>
                     match f_permissions folder with
                     | Some permissions => permissions
                     | None => []
                     end).
  enough (H : forall accumulator,
             fold_left
               (fun accumulator folder =>
                  match f_permissions folder with
                  | Some (p :: ps) => accumulator ++ p :: ps
                  | _ => accumulator
                  end)
               folders accumulator
             = accumulator ++ flat_map embedded folders)
    by apply (H []).
  induction folders as [|folder folders IH]; intros accumulator;
    cbn [fold_left flat_map].
  - rewrite app_nil_r. reflexivity.
  - rewrite IH. unfold embedded at 2.
    destruct (f_permissions folder) as [[|p ps]|];
      rewrite ?app_nil_l, ?app_assoc; reflexivity.
Qed.

(** C8.  The permissions handed to ingestion are taken from every folder of
    the batch and hold each remote id once, with the content of its last
    occurrence in the batch: each permission that a folder embeds has its
    remote id in that list.  After ingestion every folder's list holds, for
    each of its permissions in order, the stored id that the ingestion
    result gives for its remote id (one id for one remote id, whichever
    folder refers to it), and a permission for which the result has no
    entry is left out, without an error. *)
Theorem ingestPermissionsForFolders_deduplicates :
  forall (ingestData : list PermissionRef -> string -> string -> string ->
                       string -> Async (list UnifiedPermission))
         (folders : list Folder) (connectionId : string),
    let all :=
      flat_map (fun folder =>
                  match f_permissions folder with
                  | Some permissions => permissions
                  | None => []
                  end)
               folders in
    let unique := uniquePermissions all in
    allPermissions folders = all /\
    List.NoDup (map permission_id unique) /\
    (forall folder permissions q,
       In folder folders -> f_permissions folder = Some permissions ->
       In q permissions ->
       exists p, In p unique /\ permission_id p = permission_id q) /\
    (forall p, In p unique <->
       Map_get (permission_id p) (rev (permission_entries all)) = Some p) /\
    (forall s syncedPermissions s',
       all <> [] ->
       exec (ingestData unique "googledrive" connectionId "filestorage"
               "permission")
            (set_logged
               ((LOG, "Ingesting " +:+ string_of_nat (length unique)
                      +:+ " unique permissions.") :: logged s) s)
       = (Ok syncedPermissions, s') ->
       let idMap := permissionIdMap syncedPermissions in
       exists folders',
         exec (ingestPermissionsForFolders ingestData folders connectionId) s
         = (Ok folders',
            set_logged
              ((LOG, "Successfully ingested and updated folder permissions.")
               :: logged s') s') /\
         Forall2
           (fun folder folder' =>
              f_id folder' = f_id folder /\
              f_permissions folder'
              = match f_permissions folder with
                | Some (p :: ps) => Some (relinked idMap (p :: ps))
                | other => other
                end)
           folders folders' /\
         (forall r1 r2,
             permission_id r1 = permission_id r2 ->
             synced_id idMap r1 = synced_id idMap r2) /\
         (forall p,
             synced_id idMap (Embedded p)
             = Map_get (perm_id p)
                 (rev (map (fun u => (up_remote_id u, up_id_fs_permission u))
                           syncedPermissions)))).
Proof.
  intros ingestData folders connectionId all unique.
  assert (Eall : allPermissions folders = all)
    by apply allPermissions_flat_map.
  split; [exact Eall|].
  split; [apply uniquePermissions_NoDup|].
  split.
  { intros folder permissions q Hfolder Hpermissions Hq.
    apply uniquePermissions_covers. unfold all. apply in_flat_map.
    exists folder. split; [exact Hfolder|]. rewrite Hpermissions. exact Hq. }
  split; [apply uniquePermissions_last|].
  intros s syncedPermissions s' Hall Hingest idMap.
  exists (map (relink idMap) folders). split; [|split; [|split]].
  - unfold ingestPermissionsForFolders.
    destruct folders as [|folder folders'].
    { exfalso. apply Hall. reflexivity. }
    cbn [length Nat.eqb].
    rewrite exec_try_catch, Eall.
    clearbody all. clear Eall.
    destruct all as [|p all'] eqn:Eall; [congruence|].
    cbn [length Nat.eqb]. fold unique.
    repeat exec_step. rewrite Hingest. repeat exec_step. reflexivity.
  - clear. induction folders as [|folder folders IH]; constructor; auto.
    split; [apply relink_id|apply relink_permissions].
  - intros r1 r2 Hid. unfold synced_id. rewrite Hid. reflexivity.
  - intros p. unfold synced_id, idMap, permissionIdMap.
    cbn [permission_id]. apply Map_of_get.
Qed.

(** Two folders sharing the permission "perm-1"; the ingestion stores it
    and fails to store "perm-2". *)
Definition shared_permission_folders : list Folder :=
  [ {| f_id := "a"; f_name := "a"; f_parents := None; f_driveId := None;
       f_permissions :=
         Some [Embedded {| perm_id := "perm-1"; perm_body := "reader" |};
               Embedded {| perm_id := "perm-2"; perm_body := "owner" |}];
       internal_id := Some "ia"; internal_parent_folder_id := None |};
    {| f_id := "b"; f_name := "b"; f_parents := None; f_driveId := None;
       f_permissions :=
         Some [Embedded {| perm_id := "perm-1"; perm_body := "writer" |}];
       internal_id := Some "ib"; internal_parent_folder_id := None |} ].

Definition ingest_perm_1 (permissions : list PermissionRef)
    (provider connectionId vertical object : string)
  : Async (list UnifiedPermission) :=
  ret [ {| up_remote_id := "perm-1"; up_id_fs_permission := "internal-1" |} ].

Example uniquePermissions_shared :
  uniquePermissions (allPermissions shared_permission_folders)
  = [Embedded {| perm_id := "perm-1"; perm_body := "writer" |};
     Embedded {| perm_id := "perm-2"; perm_body := "owner" |}].
Proof. reflexivity. Qed.

Example ingestPermissionsForFolders_shared :
  option_map (map f_permissions)
    (match fst (exec (ingestPermissionsForFolders ingest_perm_1
                        shared_permission_folders "c") idle) with
     | Ok folders => Some folders
     | _ => None
     end)
  = Some [Some [Synced "internal-1"]; Some [Synced "internal-1"]].
Proof. reflexivity. Qed.

Lemma ingestPermissionsForFolders_deduplicates_witness :
  exists folders' s'',
    exec (ingestPermissionsForFolders ingest_perm_1
            shared_permission_folders "c") idle
    = (Ok folders', s'') /\
    Forall2
      (fun folder folder' =>
         f_id folder' = f_id folder /\
         f_permissions folder'
         = match f_permissions folder with
           | Some (p :: ps) =>
               Some (relinked
                       (permissionIdMap
                          [ {| up_remote_id := "perm-1";
                               up_id_fs_permission := "internal-1" |} ])
                       (p :: ps))
           | other => other
           end)
      shared_permission_folders folders'.
Proof.
  edestruct (proj2 (proj2 (proj2 (proj2
               (ingestPermissionsForFolders_deduplicates ingest_perm_1
                  shared_permission_folders "c")))) idle)
    as (folders' & Hexec & Hall & _);
    [discriminate | reflexivity |].
  exists folders'. eexists. split; [exact Hexec | exact Hall].
Defined.

(** * Resolution of parents: concrete runs *)

(** Identifiers as [uuidv4] could draw them: all different, none a marker. *)
Definition uuid_nth (n : nat) : string := "uuid-" +:+ string_of_nat n.

(** A drive whose folder "p" lies directly under the drive "drive-0"; no
    other file can be fetched. *)
Definition drive_p_under_root : Drive :=
  {| files_get := fun _ fileId =>
       if String.eqb fileId "p"
       then Resolved (Some (folder_of "p" (Some ["drive-0"])))
       else Rejected (Obj {[ "code" := ANum 404;
                             "message" := AStr "File not found" ]});
     files_list := fun _ _ _ =>
       Resolved {| files := None; nextPageToken := None |};
     drives_list := fun _ _ =>
       Resolved {| drives := None; drives_nextPageToken := None |} |}.

(** The store after an earlier run that persisted folder "f". *)
Definition with_f_persisted : State :=
  {| connections := [];
     fs_folders := [ {| id_fs_folder := "id-of-f"; remote_id := "f";
                        folder_id_connection := "c";
                        remote_modified_at := Some 1%Z |} ];
     fs_permissions := [];
     uuids_drawn := 0; requests := 0; timers := []; logged := [];
     folderIdToInternalIdMap := []; parentLookupCache := [];
     foldersToSync := []; googleDriveFolders := [] |}.

Definition output_of (r : Outcome (list Folder) * State) : list Folder :=
  match fst r with
  | Ok folders => folders
  | _ => []
  end.

(** C1, at its failing input.  The batch holds the one folder "f", whose
    parent "p" is neither in the batch nor in the store; the ancestor walk
    fetches "p", finds it under the drive, and the run succeeds with "f"
    pointing at "root", which is the internal id of no folder of the output
    or of the store. *)
Theorem fallback_parent_reference_dangles :
  let run :=
    exec (processFoldersWithParents uuid_nth (repeat 0 20) 3
            [folder_of "f" (Some ["p"])] "c" ["drive-0"] drive_p_under_root)
         idle in
  fst run = Ok [ with_internal_ids (folder_of "f" (Some ["p"]))
                   (Some "root") "uuid-0" ] /\
  (forall folder, In folder (output_of run) ->
                  internal_id folder <> Some "root") /\
  (forall row, In row (fs_folders (snd run)) -> id_fs_folder row <> "root").
Proof.
  split; [vm_compute; reflexivity|]. split.
  - intros folder Hin. vm_compute in Hin.
    destruct Hin as [<-|[]]. discriminate.
  - intros row Hin. vm_compute in Hin. destruct Hin.
Qed.

(** A cycle that the pass loop does not see: "B" is persisted, so "A"
    resolves through the store and "B" through "A"; each ends up the
    parent of the other. *)
Example persisted_cycle_passes_through :
  map (fun folder => (internal_id folder, internal_parent_folder_id folder))
    (output_of
       (exec (processFoldersWithParents uuid_nth [] 3
                [folder_of "A" (Some ["B"]); folder_of "B" (Some ["A"])]
                "c" ["drive-0"] drive_p_under_root)
             {| connections := [];
                fs_folders := [ {| id_fs_folder := "id-of-B"; remote_id := "B";
                                   folder_id_connection := "c";
                                   remote_modified_at := Some 1%Z |} ];
                fs_permissions := [];
                uuids_drawn := 0; requests := 0; timers := []; logged := [];
                folderIdToInternalIdMap := []; parentLookupCache := [];
                foldersToSync := []; googleDriveFolders := [] |}))
  = [(Some "uuid-0", Some "id-of-B"); (Some "id-of-B", Some "uuid-0")].
Proof. vm_compute. reflexivity. Qed.

(** C2, at its failing input.  Folder "f" is persisted with the internal id
    "id-of-f".  Arriving with a parent under the drive it keeps that id;
    arriving with the unknown parent "p" it goes through the ancestor walk
    and is given a fresh identifier. *)
Theorem fallback_mints_fresh_internal_id :
  map internal_id
    (output_of
       (exec (processFoldersWithParents uuid_nth (repeat 0 20) 3
                [folder_of "f" (Some ["drive-0"])] "c" ["drive-0"]
                drive_p_under_root)
             with_f_persisted))
  = [Some "id-of-f"] /\
  map internal_id
    (output_of
       (exec (processFoldersWithParents uuid_nth (repeat 0 20) 3
                [folder_of "f" (Some ["p"])] "c" ["drive-0"]
                drive_p_under_root)
             with_f_persisted))
  = [Some "uuid-0"].
Proof. split; vm_compute; reflexivity. Qed.

(** * Reasoning about a task among others

    A task resumed between the steps of other tasks can rely only on what
    those steps preserve.  [Inv] is what the task may assume of the state
    each time it is resumed; [Gstep] relates the state before and after each
    of its own steps.  [wsafe n Q t]: resumed on states satisfying [Inv],
    the task [t] settles after at most [n] resumptions, each a [Gstep], with
    an outcome satisfying [Q]. *)

Section Interference.
Variable Inv : State -> Prop.
Variable Gstep : State -> State -> Prop.
Hypothesis Gstep_refl : forall s, Gstep s s.
Hypothesis Gstep_trans : forall s1 s2 s3, Gstep s1 s2 -> Gstep s2 s3 -> Gstep s1 s3.
Hypothesis Gstep_Inv : forall s s', Inv s -> Gstep s s' -> Inv s'.

Fixpoint wsafe {A} (n : nat) (Q : Outcome A -> Prop) (t : Task A)
    {struct t} : Prop :=
  match t with
  | Settled r => Q r
  | Await next eff =>
      match n with
      | O => False
      | S n' => forall s, Inv s -> Gstep s (eff s) /\ wsafe n' Q (next s)
      end
  end.

(** The call [c], made on a state satisfying [Inv] and [P]. *)
Definition csafe {A} (n : nat) (P : State -> Prop) (Q : Outcome A -> Prop)
    (c : Async A) : Prop :=
  forall s, Inv s -> P s -> Gstep s (snd (c s)) /\ wsafe n Q (fst (c s)).

Definition anywhere : State -> Prop := fun _ => True.

Lemma wsafe_mono {A} (Q Q' : Outcome A -> Prop) (t : Task A) :
  (forall r, Q r -> Q' r) ->
  forall n m, n <= m -> wsafe n Q t -> wsafe m Q' t.
Proof.
  intros HQ. induction t as [r|next IH eff]; intros n m Hle H; cbn in *.
  - auto.
  - destruct n as [|n]; [contradiction|].
    destruct m as [|m]; [lia|].
    intros s Hs. destruct (H s Hs) as [Hg Hw]. split; [exact Hg|].
    apply (IH s n m); [lia|exact Hw].
Qed.

Lemma csafe_weaken {A} n n' (P P' : State -> Prop)
    (Q Q' : Outcome A -> Prop) (c : Async A) :
  csafe n P Q c ->
  n <= n' -> (forall s, P' s -> P s) -> (forall r, Q r -> Q' r) ->
  csafe n' P' Q' c.
Proof.
  intros H Hn HP HQ s Hs Hp. destruct (H s Hs (HP s Hp)) as [Hg Hw].
  split; [exact Hg|]. eapply wsafe_mono; eauto.
Qed.

Lemma csafe_ret {A} n (P : State -> Prop) (Q : Outcome A -> Prop) (a : A) :
  Q (Ok a) -> csafe n P Q (ret a).
Proof. intros HQ s _ _. split; [apply Gstep_refl|exact HQ]. Qed.

Lemma csafe_throw {A} n (P : State -> Prop) (Q : Outcome A -> Prop) e :
  Q (Throw e) -> csafe n P Q (throw e).
Proof. intros HQ s _ _. split; [apply Gstep_refl|exact HQ]. Qed.

Lemma csafe_sync {A} (P : State -> Prop) (Q : Outcome A -> Prop)
    (c : Async A) :
  (forall s, Inv s -> P s ->
     exists r s', c s = (Settled r, s') /\ Gstep s s' /\ Q r) ->
  csafe 0 P Q c.
Proof.
  intros H s Hs Hp. destruct (H s Hs Hp) as (r & s' & -> & Hg & HQ).
  split; assumption.
Qed.

Lemma then_safe {A B} (Q1 : Outcome A -> Prop) (Q2 : Outcome B -> Prop)
    (k : A -> Async B) n2 :
  (forall a, Q1 (Ok a) -> csafe n2 anywhere Q2 (k a)) ->
  (forall e, Q1 (Throw e) -> Q2 (Throw e)) ->
  (Q1 Fuel -> Q2 Fuel) ->
  forall (t : Task A) n1 s,
    wsafe n1 Q1 t -> Inv s ->
    Gstep s (snd (then_ t k s)) /\ wsafe (n1 + n2) Q2 (fst (then_ t k s)).
Proof.
  intros Hk He Hf.
  induction t as [[a|e|]|next IH eff]; intros n1 s Hw Hs; cbn in Hw |- *.
  - destruct (Hk a Hw s Hs I) as [Hg Hw']. split; [exact Hg|].
    eapply wsafe_mono; [| |exact Hw']; auto. lia.
  - split; [apply Gstep_refl|auto].
  - split; [apply Gstep_refl|auto].
  - split; [apply Gstep_refl|].
    destruct n1 as [|n1]; [contradiction|]. cbn.
    intros s' Hs'. destruct (Hw s' Hs') as [Hg Hw'].
    destruct (IH s' n1 (eff s') Hw' (Gstep_Inv _ _ Hs' Hg)) as [Hg' Hw''].
    split; [eapply Gstep_trans; eauto|exact Hw''].
Qed.

Lemma csafe_bind {A B} n1 n2 (P : State -> Prop) (Q1 : Outcome A -> Prop)
    (Q2 : Outcome B -> Prop) (c : Async A) (k : A -> Async B) :
  csafe n1 P Q1 c ->
  (forall a, Q1 (Ok a) -> csafe n2 anywhere Q2 (k a)) ->
  (forall e, Q1 (Throw e) -> Q2 (Throw e)) ->
  (Q1 Fuel -> Q2 Fuel) ->
  csafe (n1 + n2) P Q2 (bind c k).
Proof.
  intros Hc Hk He Hf s Hs Hp. unfold bind.
  destruct (Hc s Hs Hp) as [Hg Hw]. destruct (c s) as [t s1]. cbn in Hg, Hw.
  destruct (then_safe Q1 Q2 k n2 Hk He Hf t n1 s1 Hw (Gstep_Inv _ _ Hs Hg))
    as [Hg' Hw'].
  split; [eapply Gstep_trans; eauto|exact Hw'].
Qed.

Lemma tick_safe {A} (Q : Outcome A -> Prop) (t : Task A) :
  forall n, wsafe n Q t -> wsafe (S n) Q (tick t).
Proof.
  induction t as [r|next IH eff]; intros n Hw; cbn in Hw |- *.
  - intros s _. split; [apply Gstep_refl|exact Hw].
  - destruct n as [|n]; [contradiction|].
    intros s Hs. destruct (Hw s Hs) as [Hg Hw']. split; [exact Hg|].
    apply IH. exact Hw'.
Qed.

Lemma csafe_await {A} n (P : State -> Prop) (Q : Outcome A -> Prop)
    (c : Async A) :
  csafe n P Q c -> csafe (S n) P Q (await c).
Proof.
  intros Hc s Hs Hp. unfold await.
  destruct (Hc s Hs Hp) as [Hg Hw]. destruct (c s) as [t s1].
  split; [exact Hg|]. apply tick_safe. exact Hw.
Qed.

Lemma catch_safe {A} (Q1 Q2 : Outcome A -> Prop) (h : jsval -> Async A) n2 :
  (forall e, Q1 (Throw e) -> csafe n2 anywhere Q2 (h e)) ->
  (forall a, Q1 (Ok a) -> Q2 (Ok a)) ->
  (Q1 Fuel -> Q2 Fuel) ->
  forall (t : Task A) n1 s,
    wsafe n1 Q1 t -> Inv s ->
    Gstep s (snd (catch_ t h s)) /\ wsafe (n1 + n2) Q2 (fst (catch_ t h s)).
Proof.
  intros Hh Ha Hf.
  induction t as [[a|e|]|next IH eff]; intros n1 s Hw Hs; cbn in Hw |- *.
  - split; [apply Gstep_refl|auto].
  - destruct (Hh e Hw s Hs I) as [Hg Hw']. split; [exact Hg|].
    eapply wsafe_mono; [| |exact Hw']; auto. lia.
  - split; [apply Gstep_refl|auto].
  - split; [apply Gstep_refl|].
    destruct n1 as [|n1]; [contradiction|]. cbn.
    intros s' Hs'. destruct (Hw s' Hs') as [Hg Hw'].
    destruct (IH s' n1 (eff s') Hw' (Gstep_Inv _ _ Hs' Hg)) as [Hg' Hw''].
    split; [eapply Gstep_trans; eauto|exact Hw''].
Qed.

Lemma csafe_try_catch {A} n1 n2 (P : State -> Prop)
    (Q1 Q2 : Outcome A -> Prop) (c : Async A) (h : jsval -> Async A) :
  csafe n1 P Q1 c ->
  (forall e, Q1 (Throw e) -> csafe n2 anywhere Q2 (h e)) ->
  (forall a, Q1 (Ok a) -> Q2 (Ok a)) ->
  (Q1 Fuel -> Q2 Fuel) ->
  csafe (n1 + n2) P Q2 (try_catch c h).
Proof.
  intros Hc Hh Ha Hf s Hs Hp. unfold try_catch.
  destruct (Hc s Hs Hp) as [Hg Hw]. destruct (c s) as [t s1]. cbn in Hg, Hw.
  destruct (catch_safe Q1 Q2 h n2 Hh Ha Hf t n1 s1 Hw (Gstep_Inv _ _ Hs Hg))
    as [Hg' Hw'].
  split; [eapply Gstep_trans; eauto|exact Hw'].
Qed.

(** The primitives that wait. *)

Hypothesis Gstep_requests : forall s n, Gstep s (set_requests n s).
Hypothesis Gstep_timers : forall s t, Gstep s (set_timers t s).
Hypothesis Gstep_logged :
  forall s l m, Gstep s (set_logged ((l, m) :: logged s) s).

Lemma csafe_request {A} (P : State -> Prop) (Q : Outcome A -> Prop)
    (reply : nat -> Reply A) :
  (forall n, Q match reply n with
               | Resolved a => Ok a
               | Rejected e => Throw e
               end) ->
  csafe 1 P Q (request reply).
Proof.
  intros HQ s Hs Hp. cbn. split; [apply Gstep_requests|].
  intros s' _. split; [apply Gstep_refl|apply HQ].
Qed.

Lemma csafe_delay (P : State -> Prop) (Q : Outcome unit -> Prop) ms :
  Q (Ok tt) -> csafe 1 P Q (delay ms).
Proof.
  intros HQ s Hs Hp. cbn. split; [apply Gstep_timers|].
  intros s' _. split; [apply Gstep_refl|exact HQ].
Qed.

Lemma csafe_logger (P : State -> Prop) (Q : Outcome unit -> Prop) l m :
  Q (Ok tt) -> csafe 0 P Q (logger l m).
Proof.
  intros HQ s Hs Hp. cbn. split; [apply Gstep_logged|exact HQ].
Qed.

(** [executeWithRetry]: its outcome is an outcome of the operation, or an
    error; every attempt and every wait is a step. *)
Definition or_throws {A} (Q : Outcome A -> Prop) (r : Outcome A) : Prop :=
  match r with
  | Ok a => Q (Ok a)
  | Throw _ => True
  | Fuel => False
  end.

Lemma csafe_executeWithRetry_from {T} n (Q : Outcome T -> Prop)
    (operation : Async T) :
  csafe n anywhere Q operation ->
  ~ Q Fuel ->
  forall budget retryCount,
    0 < budget ->
    MAX_API_RETRIES < budget + retryCount ->
    csafe (budget * (n + 5)) anywhere (or_throws Q)
      (executeWithRetry_from budget operation retryCount).
Proof.
  intros Hop Hfuel.
  induction budget as [|budget IH]; intros retryCount Hpos Hb.
  - lia.
  - cbn [executeWithRetry_from].
    replace (S budget * (n + 5)) with ((2 + S n) + (2 + budget * (n + 5)))
      by lia.
    eapply csafe_try_catch with (Q1 := Q).
    + eapply csafe_bind with (Q1 := eq (Ok tt)).
      * apply csafe_await, csafe_delay. reflexivity.
      * intros [] _. apply csafe_await. exact Hop.
      * intros e [=].
      * intros [=].
    + intros e _.
      destruct (isRateLimitError e); cbn [negb].
      * destruct (MAX_API_RETRIES <=? retryCount) eqn:E.
        -- apply csafe_throw. exact I.
        -- apply Nat.leb_gt in E.
           eapply csafe_bind with (Q1 := eq (Ok tt)).
           ++ apply csafe_await, csafe_delay. reflexivity.
           ++ intros [] _. apply IH; lia.
           ++ intros e' [=].
           ++ intros [=].
      * apply csafe_throw. exact I.
    + intros a Ha. exact Ha.
    + intros Hf. exact (Hfuel Hf).
Qed.

End Interference.

(** * Two folders that name each other as parent *)

(** ** One walk, seen from the other *)

Section OneWalk.
Variable uuid_of : nat -> string.
Variable drive : Drive.
Variable driveIds : list string.
Variable connectionId : string.

(** The folder [self] of the batch, with id [X], is walked; [Y] is the id
    of the other one. *)
Variables X Y : string.
Variable self : Folder.

Definition not_a_root (Z : string) : Prop :=
  existsb (String.eqb Z) driveIds || String.eqb Z "root" = false.

Hypothesis self_id : f_id self = X.
Hypothesis self_parent : first_parent self = Y.
Hypothesis X_not_Y : X <> Y.
Hypothesis X_not_a_root : not_a_root X.
Hypothesis Y_not_a_root : not_a_root Y.

(** The provider, when it answers at all, gives [X] the parent [Y] and
    [Y] the parent [X]. *)
Hypothesis remote_X : forall n data,
  files_get drive n X = Resolved (Some data) -> first_parent data = Y.
Hypothesis remote_Y : forall n data,
  files_get drive n Y = Resolved (Some data) -> first_parent data = X.

(** What the walk of [self] assumes each time it is resumed: [X] has no
    internal id yet, and the store is known not to have it. *)
Definition unresolved (Z : string) (s : State) : Prop :=
  Map_get Z (folderIdToInternalIdMap s) = None /\
  Map_get Z (parentLookupCache s) = Some None.

(** A step of a walk: it sends requests, waits and logs. *)
Definition silent (s s' : State) : Prop :=
  folderIdToInternalIdMap s' = folderIdToInternalIdMap s /\
  parentLookupCache s' = parentLookupCache s /\
  foldersToSync s' = foldersToSync s /\
  fs_folders s' = fs_folders s /\
  incl (logged s) (logged s').

Lemma silent_refl s : silent s s.
Proof. repeat split; auto using incl_refl. Qed.

Lemma silent_trans s1 s2 s3 : silent s1 s2 -> silent s2 s3 -> silent s1 s3.
Proof.
  intros (a1 & b1 & c1 & d1 & e1) (a2 & b2 & c2 & d2 & e2).
  repeat split; try congruence. eapply incl_tran; eauto.
Qed.

Lemma silent_unresolved Z s s' : unresolved Z s -> silent s s' -> unresolved Z s'.
Proof. intros [H1 H2] (a & b & _). unfold unresolved. rewrite a, b. auto. Qed.

Lemma silent_requests s n : silent s (set_requests n s).
Proof. repeat split; auto using incl_refl. Qed.

Lemma silent_timers s t : silent s (set_timers t s).
Proof. repeat split; auto using incl_refl. Qed.

Lemma silent_logged s l m : silent s (set_logged ((l, m) :: logged s) s).
Proof. repeat split; cbn; auto using incl_refl, incl_tl. Qed.

Local Abbreviation safe := (csafe (unresolved X) silent).

Ltac side :=
  try solve [ exact silent_refl | exact silent_trans
            | exact (silent_unresolved X) | exact silent_requests
            | exact silent_timers | exact silent_logged ].

(** [resolveParentId] finds nothing for an id that is unresolved. *)
Lemma resolveParentId_unresolved Z s :
  not_a_root Z -> unresolved Z s ->
  resolveParentId Z driveIds connectionId s = (Settled (Ok None), s).
Proof.
  intros Hroot [Hid Hcache]. unfold resolveParentId, bind, gets. cbn.
  unfold Map_has. rewrite Hid. unfold not_a_root in Hroot. rewrite Hroot.
  cbn. rewrite Hcache. reflexivity.
Qed.

(** The outcomes of fetching an ancestor [Z] whose parent, as the provider
    has it, is [W]. *)
Definition fetched (W : string) (r : Outcome (option Folder)) : Prop :=
  match r with
  | Ok (Some data) => first_parent data = W
  | Ok None => True
  | Throw _ => True
  | Fuel => False
  end.

Definition found_parent (W : string)
    (r : Outcome (option Folder + option string)) : Prop :=
  match r with
  | Ok (inl (Some data)) => first_parent data = W
  | Ok (inl None) | Ok (inr None) => True
  | _ => False
  end.

(** One hop of the walk: the parent [Z] of [folder] is not resolved; it is
    fetched, and the walk goes on from what was fetched. *)
Lemma walk_hop fuel folder visited Z W n_next (P : State -> Prop) :
  first_parent folder = Z ->
  Set_has Z visited = false ->
  (forall s, unresolved X s -> P s ->
             resolveParentId Z driveIds connectionId s = (Settled (Ok None), s)) ->
  (forall n data, files_get drive n Z = Resolved (Some data) ->
                  first_parent data = W) ->
  (forall data, first_parent data = W ->
     safe n_next anywhere (eq (Ok None))
       (getInternalParentRecursive fuel [] driveIds connectionId drive data
          (Set_add Z visited))) ->
  safe (27 + n_next) P (eq (Ok None))
    (getInternalParentRecursive (S fuel) [] driveIds connectionId drive folder
       visited).
Proof.
  intros Hparent Hvisited Hresolve Hremote Hnext.
  cbn [getInternalParentRecursive]. rewrite Hparent, Hvisited.
  eapply csafe_weaken
    with (n := 1 + (25 + n_next)) (P := P) (Q := eq (Ok None));
    [|lia|auto|auto].
  eapply csafe_bind with (Q1 := eq (Ok None)); side.
  - apply csafe_await; side. apply csafe_sync.
    intros s Hs Hp. exists (Ok None), s.
    rewrite Hresolve by assumption. auto using silent_refl.
  - intros a [= <-]. cbn [truthy].
    eapply csafe_bind with (Q1 := found_parent W); side.
    + eapply csafe_try_catch
        with (Q1 := fun r => match r with
                             | Throw _ => True
                             | _ => found_parent W r
                             end)
             (n1 := 25) (n2 := 0); side.
      * cbn [Map_get].
        eapply csafe_bind
          with (Q1 := or_throws (fetched W)) (n1 := 25) (n2 := 0); side.
        -- apply csafe_await; side. unfold executeWithRetry.
           eapply csafe_executeWithRetry_from
             with (Q := fetched W) (n := 1)
                  (budget := S (MAX_API_RETRIES - 0)); side.
           ++ apply csafe_request; side. intros n.
              destruct (files_get drive n Z) as [[data|]|e] eqn:E; cbn; eauto.
           ++ cbn. tauto.
           ++ unfold MAX_API_RETRIES. lia.
           ++ unfold MAX_API_RETRIES. lia.
        -- intros [data|] Hd; apply csafe_ret; side; exact Hd.
        -- intros e _. exact I.
        -- intros [].
      * intros e _.
        eapply csafe_bind with (Q1 := eq (Ok tt)) (n1 := 0) (n2 := 0); side.
        -- apply csafe_logger; side. reflexivity.
        -- intros [] _. apply csafe_ret; side. exact I.
        -- intros e' [=].
        -- intros [=].
      * intros a Ha. exact Ha.
      * intros [].
    + intros [[data|]|[r|]] Hfound; cbn in Hfound; try contradiction.
      * apply Hnext. exact Hfound.
      * apply csafe_ret; side. reflexivity.
      * apply csafe_ret; side. reflexivity.
    + intros e [].
    + intros [].
  - intros e [=].
  - intros [=].
Qed.

(** With [remote_folders] empty and [Y] already visited, the walk from a
    folder whose parent is [X] ends in two hops at most, with [null]. *)
Lemma walk_from_other fuel data :
  first_parent data = X ->
  safe 27 anywhere (eq (Ok None))
    (getInternalParentRecursive (S (S fuel)) [] driveIds connectionId drive
       data (Set_add Y [])).
Proof.
  intros Hdata.
  assert (Hxy : String.eqb X Y = false) by (apply String.eqb_neq; exact X_not_Y).
  eapply csafe_weaken with (n := 27 + 0) (P := anywhere) (Q := eq (Ok None));
    [|lia|auto|auto].
  eapply walk_hop with (Z := X) (W := Y).
  - exact Hdata.
  - cbn. rewrite Hxy. reflexivity.
  - intros s Hs _. apply resolveParentId_unresolved; assumption.
  - exact remote_X.
  - intros data' Hdata'. cbn [getInternalParentRecursive].
    rewrite Hdata'.
    assert (Hseen : Set_has Y (Set_add X (Set_add Y [])) = true).
    { change (Set_add Y []) with [Y]. unfold Set_add.
      replace (Set_has X [Y]) with false by (cbn; rewrite Hxy; reflexivity).
      cbn. rewrite String.eqb_refl. reflexivity. }
    rewrite Hseen.
    eapply csafe_bind with (Q1 := eq (Ok tt)) (n1 := 0) (n2 := 0); side.
    + apply csafe_logger; side. reflexivity.
    + intros [] _. apply csafe_ret; side. reflexivity.
    + intros e [=].
    + intros [=].
Qed.

(** The walk of [self], started on a state where [Y] is unresolved too. *)
Lemma walk_of_self fuel :
  safe 54 (unresolved Y) (eq (Ok None))
    (getInternalParentRecursive (S (S (S fuel))) [] driveIds connectionId
       drive self []).
Proof.
  eapply csafe_weaken
    with (n := 27 + 27) (P := unresolved Y) (Q := eq (Ok None));
    [|lia|auto|auto].
  eapply walk_hop with (Z := Y) (W := X).
  - exact self_parent.
  - reflexivity.
  - intros s _ Hs. apply resolveParentId_unresolved; assumption.
  - exact remote_Y.
  - intros data Hdata. apply walk_from_other. exact Hdata.
Qed.

(** The last step of the task of [self]: it draws an identifier, records it
    for [X] and appends [self], without a parent, to the output. *)
Definition completes (s s' : State) : Prop :=
  exists u,
    folderIdToInternalIdMap s' = Map_set X u (folderIdToInternalIdMap s) /\
    foldersToSync s' = foldersToSync s ++ [with_internal_ids self None u] /\
    parentLookupCache s' = parentLookupCache s /\
    fs_folders s' = fs_folders s /\
    incl (logged s) (logged s').

(** The task of [self] while it is pending: at most [n] resumptions are
    left, all silent but the last, which completes it. *)
Fixpoint tsafe (n : nat) (t : Task unit) {struct t} : Prop :=
  match t with
  | Settled _ => False
  | Await next eff =>
      match n with
      | O => False
      | S n' =>
          forall s, unresolved X s ->
            match next s with
            | Settled r => r = Ok tt /\ completes s (eff s)
            | Await _ _ => silent s (eff s) /\ tsafe n' (next s)
            end
      end
  end.

Lemma chain_safe (k : option string -> Async unit) :
  (forall s, unresolved X s ->
     exists s', k None s = (Settled (Ok tt), s') /\ completes s s') ->
  forall (w : Task (option string)) n s1,
    wsafe (unresolved X) silent n (eq (Ok None)) w ->
    snd (then_ (tick w) k s1) = s1 /\ tsafe (S n) (fst (then_ (tick w) k s1)).
Proof.
  intros Hk. induction w as [r|next IH eff]; intros n s1 Hw; cbn in Hw.
  - subst r. split; [reflexivity|]. cbn. intros s Hs.
    destruct (Hk s Hs) as (s' & -> & Hc). cbn. auto.
  - destruct n as [|n]; [contradiction|]. split; [reflexivity|].
    cbn. intros s Hs. destruct (Hw s Hs) as [Hg Hw'].
    destruct (IH s n (eff s) Hw') as [Hsnd Ht]. rewrite Hsnd.
    destruct (fst (then_ (tick (next s)) k (eff s))) as [r|next' eff'];
      [contradiction|].
    split; [exact Hg|exact Ht].
Qed.

Lemma thread_spawn fuel s :
  unresolved X s -> unresolved Y s -> 3 <= fuel ->
  silent s (snd (resolve_pending uuid_of fuel [] driveIds connectionId drive
                   self s)) /\
  tsafe 55 (fst (resolve_pending uuid_of fuel [] driveIds connectionId drive
                   self s)).
Proof.
  intros HX HY Hfuel.
  destruct fuel as [|[|[|fuel]]]; try lia.
  unfold resolve_pending, bind, await.
  destruct (walk_of_self fuel s HX HY) as [Hg Hw].
  destruct (getInternalParentRecursive (S (S (S fuel))) [] driveIds
              connectionId drive self [] s) as [w s1].
  cbn [fst snd] in Hg, Hw.
  match goal with
  | |- context [then_ (tick w) ?k s1] =>
      destruct (chain_safe k) with (w := w) (n := 54) (s1 := s1)
        as [Hsnd Ht]; [|exact Hw|]
  end.
  - intros s' Hs'. eexists. split; [reflexivity|].
    exists (uuid_of (uuids_drawn s')). cbn. rewrite self_id.
    repeat split; auto using incl_refl.
  - rewrite Hsnd. split; [exact Hg|exact Ht].
Qed.

End OneWalk.

(** ** The two walks, interleaved *)

Lemma completes_unresolved X self Z s s' :
  completes X self s s' -> Z <> X -> unresolved Z s -> unresolved Z s'.
Proof.
  intros (u & Hid & _ & Hcache & _) Hne [H1 H2]. unfold unresolved.
  rewrite Hid, Hcache, Map_get_set_ne by exact Hne. auto.
Qed.

Lemma tsafe_pending X self n t :
  tsafe X self n t -> 0 < n /\ exists next eff, t = Await next eff.
Proof.
  destruct t as [r|next eff]; cbn; [contradiction|].
  destruct n; [contradiction|]. intros _. split; [lia|eauto].
Qed.

Section TwoWalks.
Variables A B : string.
Variables fA fB : Folder.

Definition entry (folder : Folder) (u : string) : Folder :=
  with_internal_ids folder None u.

(** Both folders are in the output, each without a parent. *)
Definition both_orphans (output : list Folder) : Prop :=
  exists uA uB,
    output = [entry fA uA; entry fB uB] \/ output = [entry fB uB; entry fA uA].

(** The two tasks and the state between two turns of the schedule; [nA]
    and [nB] bound the resumptions left to the tasks still pending. *)
Inductive conf : list (Task unit) -> State -> nat -> nat -> Prop :=
| conf_both tA tB s nA nB :
    tsafe A fA nA tA -> tsafe B fB nB tB ->
    unresolved A s -> unresolved B s ->
    foldersToSync s = [] ->
    conf [tA; tB] s nA nB
| conf_A_done tB s nB uA :
    tsafe B fB nB tB -> unresolved B s ->
    foldersToSync s = [entry fA uA] ->
    conf [Settled (Ok tt); tB] s 0 nB
| conf_B_done tA s nA uB :
    tsafe A fA nA tA -> unresolved A s ->
    foldersToSync s = [entry fB uB] ->
    conf [tA; Settled (Ok tt)] s nA 0
| conf_done s :
    both_orphans (foldersToSync s) ->
    conf [Settled (Ok tt); Settled (Ok tt)] s 0 0.

Hypothesis A_not_B : A <> B.

Lemma tsafe_step X self n next eff s :
  tsafe X self n (Await next eff) -> unresolved X s ->
  (next s = Settled (Ok tt) /\ completes X self s (eff s)) \/
  (exists n', n = S n' /\ silent s (eff s) /\ tsafe X self n' (next s)).
Proof.
  cbn. destruct n as [|n']; [contradiction|]. intros H Hs.
  specialize (H s Hs). destruct (next s) as [r|next' eff'].
  - left. destruct H as [-> Hc]. auto.
  - right. exists n'. tauto.
Qed.

Lemma completes_logged X self s s' :
  completes X self s s' -> incl (logged s) (logged s').
Proof. intros (u & _ & _ & _ & _ & H). exact H. Qed.

Lemma silent_logged_incl s s' : silent s s' -> incl (logged s) (logged s').
Proof. intros (_ & _ & _ & _ & H). exact H. Qed.

Lemma resume_nth_nil {T} i s : @resume_nth T i [] s = ([], s).
Proof. destruct i; reflexivity. Qed.

Lemma conf_step ts s nA nB i :
  conf ts s nA nB ->
  exists nA' nB',
    conf (fst (resume_nth i ts s)) (snd (resume_nth i ts s)) nA' nB' /\
    nA' <= nA /\ nB' <= nB /\
    (i = 0 -> nA' < nA \/ nA' = 0) /\
    (i = 1 -> nB' < nB \/ nB' = 0) /\
    incl (logged s) (logged (snd (resume_nth i ts s))).
Proof.
  assert (B_not_A : B <> A) by congruence.
  intros Hconf.
  destruct Hconf as
      [tA tB s nA nB HtA HtB HA HB Hout
      |tB s nB uA HtB HB Hout
      |tA s nA uB HtA HA Hout
      |s Hout].
  - (* both pending *)
    destruct (tsafe_pending _ _ _ _ HtA) as (HnA & nxA & efA & ->).
    destruct (tsafe_pending _ _ _ _ HtB) as (HnB & nxB & efB & ->).
    destruct i as [|[|i]]; cbn [resume_nth fst snd];
      rewrite ?resume_nth_nil; cbn [fst snd].
    + destruct (tsafe_step _ _ _ _ _ s HtA HA)
        as [[-> Hc]|(n' & -> & Hg & Ht)].
      * pose proof (completes_unresolved _ _ B _ _ Hc B_not_A HB) as HB'.
        pose proof (completes_logged _ _ _ _ Hc) as Hlog.
        destruct Hc as (u & _ & Hfs & _).
        exists 0, nB. repeat split; try lia; try discriminate; auto.
        eapply conf_A_done with (uA := u); [exact HtB|exact HB'|].
        rewrite Hfs, Hout. reflexivity.
      * exists n', nB. repeat split; try lia; try discriminate.
        -- apply conf_both; eauto using silent_unresolved.
           destruct Hg as (_ & _ & -> & _). exact Hout.
        -- apply silent_logged_incl. exact Hg.
    + destruct (tsafe_step _ _ _ _ _ s HtB HB)
        as [[-> Hc]|(n' & -> & Hg & Ht)].
      * pose proof (completes_unresolved _ _ A _ _ Hc A_not_B HA) as HA'.
        pose proof (completes_logged _ _ _ _ Hc) as Hlog.
        destruct Hc as (u & _ & Hfs & _).
        exists nA, 0. repeat split; try lia; try discriminate; auto.
        eapply conf_B_done with (uB := u); [exact HtA|exact HA'|].
        rewrite Hfs, Hout. reflexivity.
      * exists nA, n'. repeat split; try lia; try discriminate.
        -- apply conf_both; eauto using silent_unresolved.
           destruct Hg as (_ & _ & -> & _). exact Hout.
        -- apply silent_logged_incl. exact Hg.
    + exists nA, nB. repeat split; try lia; try discriminate.
      * apply conf_both; assumption.
      * apply incl_refl.
  - (* A done *)
    destruct (tsafe_pending _ _ _ _ HtB) as (HnB & nxB & efB & ->).
    destruct i as [|[|i]]; cbn [resume_nth fst snd];
      rewrite ?resume_nth_nil; cbn [fst snd].
    + exists 0, nB. repeat split; try lia; try discriminate.
      * eapply conf_A_done; eassumption.
      * apply incl_refl.
    + destruct (tsafe_step _ _ _ _ _ s HtB HB)
        as [[-> Hc]|(n' & -> & Hg & Ht)].
      * pose proof (completes_logged _ _ _ _ Hc) as Hlog.
        destruct Hc as (u & _ & Hfs & _).
        exists 0, 0. repeat split; try lia; try discriminate; auto.
        apply conf_done. exists uA, u. left. rewrite Hfs, Hout. reflexivity.
      * exists 0, n'. repeat split; try lia; try discriminate.
        -- eapply conf_A_done with (uA := uA); eauto using silent_unresolved.
           destruct Hg as (_ & _ & -> & _). exact Hout.
        -- apply silent_logged_incl. exact Hg.
    + exists 0, nB. repeat split; try lia; try discriminate.
      * eapply conf_A_done; eassumption.
      * apply incl_refl.
  - (* B done *)
    destruct (tsafe_pending _ _ _ _ HtA) as (HnA & nxA & efA & ->).
    destruct i as [|[|i]]; cbn [resume_nth fst snd];
      rewrite ?resume_nth_nil; cbn [fst snd].
    + destruct (tsafe_step _ _ _ _ _ s HtA HA)
        as [[-> Hc]|(n' & -> & Hg & Ht)].
      * pose proof (completes_logged _ _ _ _ Hc) as Hlog.
        destruct Hc as (u & _ & Hfs & _).
        exists 0, 0. repeat split; try lia; try discriminate; auto.
        apply conf_done. exists u, uB. right. rewrite Hfs, Hout. reflexivity.
      * exists n', 0. repeat split; try lia; try discriminate.
        -- eapply conf_B_done with (uB := uB); eauto using silent_unresolved.
           destruct Hg as (_ & _ & -> & _). exact Hout.
        -- apply silent_logged_incl. exact Hg.
    + exists nA, 0. repeat split; try lia; try discriminate.
      * eapply conf_B_done; eassumption.
      * apply incl_refl.
    + exists nA, 0. repeat split; try lia; try discriminate.
      * eapply conf_B_done; eassumption.
      * apply incl_refl.
  - (* both done *)
    exists 0, 0.
    destruct i as [|[|i]]; cbn [resume_nth fst snd];
      rewrite ?resume_nth_nil; cbn [fst snd];
      repeat split; try lia; try discriminate;
      try (apply conf_done; exact Hout); apply incl_refl.
Qed.

Lemma conf_gather ts s nA nB :
  conf ts s nA nB ->
  (gather ts = Some (Ok [tt; tt]) /\ both_orphans (foldersToSync s)) \/
  (gather ts = None /\ (0 < nA \/ 0 < nB)).
Proof.
  intros [tA tB s' nA' nB' HtA HtB HA HB Hout
         |tB s' nB' uA HtB HB Hout
         |tA s' nA' uB HtA HA Hout
         |s' Hout].
  - destruct (tsafe_pending _ _ _ _ HtA) as (HnA & nxA & efA & ->).
    destruct (tsafe_pending _ _ _ _ HtB) as (HnB & nxB & efB & ->).
    right. split; [reflexivity|]. left. exact HnA.
  - destruct (tsafe_pending _ _ _ _ HtB) as (HnB & nxB & efB & ->).
    right. split; [reflexivity|]. right. exact HnB.
  - destruct (tsafe_pending _ _ _ _ HtA) as (HnA & nxA & efA & ->).
    right. split; [reflexivity|]. left. exact HnA.
  - left. split; [reflexivity|exact Hout].
Qed.

(** Whatever the schedule, the two tasks end with both folders orphaned,
    unless the schedule stops before one of them has had its turns. *)
Lemma all_task_run schedule :
  forall ts s nA nB,
    conf ts s nA nB ->
    incl (logged s) (logged (snd (run (all_task schedule ts) s))) /\
    ((fst (run (all_task schedule ts) s) = Ok [tt; tt] /\
      both_orphans (foldersToSync (snd (run (all_task schedule ts) s)))) \/
     (fst (run (all_task schedule ts) s) = Fuel /\
      (count_occ Nat.eq_dec schedule 0 < nA \/
       count_occ Nat.eq_dec schedule 1 < nB))).
Proof.
  induction schedule as [|i schedule IH]; intros ts s nA nB Hconf;
    destruct (conf_gather _ _ _ _ Hconf) as [[Hg Hout]|[Hg Hn]];
    cbn [all_task]; rewrite Hg; cbn [run fst snd].
  - split; [apply incl_refl|]. left. auto.
  - split; [apply incl_refl|]. right. split; [reflexivity|]. exact Hn.
  - split; [apply incl_refl|]. left. auto.
  - destruct (conf_step _ _ _ _ i Hconf)
      as (nA' & nB' & Hconf' & HleA & HleB & H0 & H1 & Hlog).
    destruct (IH _ _ _ _ Hconf') as [Hlog' [Hok|[Hfuel Hcount]]].
    split; [eapply incl_tran; eauto|].
    + left. exact Hok.
    + split; [eapply incl_tran; eauto|].
      right. split; [exact Hfuel|].
      cbn [count_occ].
      destruct Hcount as [Hc|Hc]; [left|right].
      * destruct (Nat.eq_dec i 0) as [->|Hi]; [|lia].
        destruct (H0 eq_refl); lia.
      * destruct (Nat.eq_dec i 1) as [->|Hi]; [|lia].
        destruct (H1 eq_refl); lia.
Qed.

End TwoWalks.

(** ** The pass loop on the two folders *)

Lemma exec_Promise_all {T} schedule (cs : list (Async T)) s :
  exec (Promise_all schedule cs) s
  = run (all_task schedule (fst (start_all cs s))) (snd (start_all cs s)).
Proof.
  unfold exec, Promise_all. destruct (start_all cs s). reflexivity.
Qed.

(** A parent that is unknown everywhere: not resolved in this run, not a
    drive, not looked up before, not in the store. *)
Lemma exec_resolveParentId_unknown Z driveIds connectionId s :
  Map_get Z (folderIdToInternalIdMap s) = None ->
  not_a_root driveIds Z ->
  Map_get Z (parentLookupCache s) = None ->
  find (fun r => String.eqb (remote_id r) Z
                 && String.eqb (folder_id_connection r) connectionId)
       (fs_folders s) = None ->
  exec (resolveParentId Z driveIds connectionId) s
  = (Ok None,
     set_parentLookupCache (Map_set Z None (parentLookupCache s)) s).
Proof.
  intros Hid Hroot Hcache Hstore. unfold resolveParentId.
  exec_step. unfold Map_has. rewrite Hid.
  unfold not_a_root in Hroot. rewrite Hroot.
  exec_step. rewrite Hcache. unfold fs_folders_findFirst.
  exec_step. rewrite Hstore. repeat exec_step. reflexivity.
Qed.

(** A folder whose parent is unknown everywhere stays pending. *)
Lemma exec_resolve_in_pass_unknown uuid_of driveIds connectionId pending
    folder s :
  Map_get (first_parent folder) (folderIdToInternalIdMap s) = None ->
  not_a_root driveIds (first_parent folder) ->
  Map_get (first_parent folder) (parentLookupCache s) = None ->
  find (fun r => String.eqb (remote_id r) (first_parent folder)
                 && String.eqb (folder_id_connection r) connectionId)
       (fs_folders s) = None ->
  exec (resolve_in_pass uuid_of driveIds connectionId pending folder) s
  = (Ok (pending ++ [folder]),
     set_parentLookupCache
       (Map_set (first_parent folder) None (parentLookupCache s)) s).
Proof.
  intros Hid Hroot Hcache Hstore. unfold resolve_in_pass.
  rewrite exec_bind, exec_await.
  rewrite exec_resolveParentId_unknown by assumption.
  cbn [and_then]. rewrite exec_ret. reflexivity.
Qed.

Lemma resolve_passes_unfold uuid_of passes schedule fuel connectionId
    driveIds drive remainingFolders :
  resolve_passes uuid_of (S passes) schedule fuel connectionId driveIds drive
    remainingFolders
  = if 0 <? length remainingFolders then
      bind (for_of remainingFolders
              (resolve_in_pass uuid_of driveIds connectionId) [])
        (fun foldersStillPending =>
           if isStuckInLoop foldersStillPending remainingFolders then
             bind (gets foldersToSync)
               (fun resolved =>
                  await (handleUnresolvedFolders uuid_of schedule fuel
                           foldersStillPending
                           (Map_of (map (fun folder => (f_id folder, folder))
                                        resolved))
                           driveIds connectionId drive))
           else
             resolve_passes uuid_of passes schedule fuel connectionId driveIds
               drive foldersStillPending)
    else ret tt.
Proof. reflexivity. Qed.

(** The state in which the pass loop gives up on the two folders: nothing
    resolved, both parents looked up in vain. *)
Definition stuck_on (fA fB : Folder) (s : State) : State :=
  set_parentLookupCache [(f_id fB, None); (f_id fA, None)]
    (set_foldersToSync [] (set_folderIdToInternalIdMap [] s)).

Lemma pass_loop_stuck uuid_of drive driveIds connectionId fA fB schedule
    fuel s :
  first_parent fA = f_id fB ->
  first_parent fB = f_id fA ->
  f_id fA <> f_id fB ->
  not_a_root driveIds (f_id fA) ->
  not_a_root driveIds (f_id fB) ->
  (forall row, In row (fs_folders s) ->
               folder_id_connection row = connectionId ->
               remote_id row <> f_id fA /\ remote_id row <> f_id fB) ->
  exec (processFoldersWithParents uuid_of schedule fuel [fA; fB]
          connectionId driveIds drive) s
  = and_then
      (exec (handleUnresolvedFolders uuid_of schedule fuel [fA; fB] []
               driveIds connectionId drive) (stuck_on fA fB s))
      (fun _ s' => (Ok (foldersToSync s'), s')).
Proof.
  intros HpA HpB Hne HrA HrB Hstore.
  assert (Hfind : forall Z, (Z = f_id fA \/ Z = f_id fB) ->
            find (fun r => String.eqb (remote_id r) Z
                           && String.eqb (folder_id_connection r) connectionId)
                 (fs_folders s) = None).
  { intros Z HZ.
    match goal with |- find ?p ?l = None => destruct (find p l) eqn:E end;
      [|reflexivity].
    apply find_some in E as [Hin Hc]. apply andb_true_iff in Hc as [Hr Hc].
    apply String.eqb_eq in Hr, Hc. destruct (Hstore _ Hin Hc) as [H1 H2].
    destruct HZ; congruence. }
  unfold processFoldersWithParents.
  rewrite exec_bind, exec_modify. cbn [and_then].
  rewrite exec_bind, exec_modify. cbn [and_then].
  rewrite exec_bind, exec_modify. cbn [and_then].
  rewrite exec_bind, resolve_passes_unfold.
  cbn [length Nat.ltb Nat.leb for_of].
  rewrite exec_bind, exec_bind.
  rewrite exec_resolve_in_pass_unknown; rewrite ?HpA;
    [|reflexivity|assumption|reflexivity|apply Hfind; auto].
  cbn [and_then]. rewrite exec_bind.
  rewrite exec_resolve_in_pass_unknown; rewrite ?HpB;
    [|reflexivity|assumption| |apply Hfind; auto].
  2:{ cbn. destruct (decide (f_id fA = f_id fB)); [contradiction|reflexivity]. }
  cbn [and_then app]. rewrite exec_ret. cbn [and_then].
  cbn [isStuckInLoop length Nat.eqb].
  rewrite exec_bind, exec_gets. cbn [and_then].
  rewrite exec_await.
  cbn [foldersToSync set_parentLookupCache set_foldersToSync map Map_of
       fold_left parentLookupCache Map_set].
  destruct (decide (f_id fA = f_id fB)); [contradiction|].
  unfold stuck_on.
  match goal with
  | |- and_then ?x _ = and_then ?y _ => replace x with y by reflexivity
  end.
  destruct (exec _ _) as [[[]|e|] s']; reflexivity.
Qed.

(** The turns of the schedule that a walk of two hops needs at most. *)
Definition walk_turns : nat := 55.

(** C4.  The batch holds two folders, each naming the other as its parent;
    neither is a drive or in the store, and the provider, asked for either,
    answers with the same parent or not at all.  The pass loop is stuck
    after one pass and records the warning; whatever the order in which the
    two ancestor walks are resumed, the run does not throw, and once each
    walk has had [walk_turns] turns it returns both folders with
    [internal_parent_folder_id = null] (so at least one of them). *)
Theorem mutual_parents_resolve_as_orphans :
  forall (uuid_of : nat -> string) (drive : Drive) (driveIds : list string)
         (connectionId : string) (fA fB : Folder) (schedule : list nat)
         (fuel : nat) (s : State),
    first_parent fA = f_id fB ->
    first_parent fB = f_id fA ->
    f_id fA <> f_id fB ->
    not_a_root driveIds (f_id fA) ->
    not_a_root driveIds (f_id fB) ->
    (forall row, In row (fs_folders s) ->
                 folder_id_connection row = connectionId ->
                 remote_id row <> f_id fA /\ remote_id row <> f_id fB) ->
    (forall n data, files_get drive n (f_id fA) = Resolved (Some data) ->
                    first_parent data = f_id fB) ->
    (forall n data, files_get drive n (f_id fB) = Resolved (Some data) ->
                    first_parent data = f_id fA) ->
    3 <= fuel ->
    let r := exec (processFoldersWithParents uuid_of schedule fuel [fA; fB]
                     connectionId driveIds drive) s in
    In (WARN, "Found 2 unresolved folders. Resolving them...")
       (logged (snd r)) /\
    ((exists uA uB,
         fst r = Ok [with_internal_ids fA None uA; with_internal_ids fB None uB]
         \/ fst r = Ok [with_internal_ids fB None uB;
                        with_internal_ids fA None uA]) \/
     (fst r = Fuel /\
      (count_occ Nat.eq_dec schedule 0 < walk_turns \/
       count_occ Nat.eq_dec schedule 1 < walk_turns))).
Proof.
  intros uuid_of drive driveIds connectionId fA fB schedule fuel s
    HpA HpB Hne HrA HrB Hstore HremA HremB Hfuel r.
  subst r. rewrite pass_loop_stuck by assumption.
  unfold handleUnresolvedFolders.
  rewrite exec_bind, exec_logger. cbn [and_then length].
  rewrite exec_bind, exec_await, exec_Promise_all.
  cbn [map start_all].
  change ("Found " +:+ string_of_nat 2
          +:+ " unresolved folders. Resolving them...")
    with "Found 2 unresolved folders. Resolving them...".
  set (warning := (WARN, "Found 2 unresolved folders. Resolving them...")).
  set (s3 := set_logged (warning :: logged (stuck_on fA fB s))
               (stuck_on fA fB s)).
  assert (HA3 : unresolved (f_id fA) s3).
  { split; cbn; [reflexivity|].
    destruct (decide (f_id fA = f_id fB)); [contradiction|].
    destruct (decide (f_id fA = f_id fA)); [reflexivity|contradiction]. }
  assert (HB3 : unresolved (f_id fB) s3).
  { split; cbn; [reflexivity|].
    destruct (decide (f_id fB = f_id fB)); [reflexivity|contradiction]. }
  destruct (thread_spawn uuid_of drive driveIds connectionId
              (f_id fA) (f_id fB) fA eq_refl HpA Hne HrA HrB HremA HremB
              fuel s3 HA3 HB3 Hfuel) as [HgA HtA].
  destruct (resolve_pending uuid_of fuel [] driveIds connectionId drive fA s3)
    as [tA sA].
  cbn [fst snd] in HgA, HtA.
  assert (Hne' : f_id fB <> f_id fA) by congruence.
  destruct (thread_spawn uuid_of drive driveIds connectionId
              (f_id fB) (f_id fA) fB eq_refl HpB Hne' HrB HrA HremB HremA
              fuel sA (silent_unresolved _ _ _ HB3 HgA)
              (silent_unresolved _ _ _ HA3 HgA) Hfuel) as [HgB HtB].
  destruct (resolve_pending uuid_of fuel [] driveIds connectionId drive fB sA)
    as [tB sB].
  cbn [fst snd] in HgB, HtB |- *.
  pose proof (silent_trans _ _ _ HgA HgB) as Hg.
  assert (Hconf : conf (f_id fA) (f_id fB) fA fB [tA; tB] sB 55 55).
  { apply conf_both; eauto using silent_unresolved.
    destruct Hg as (_ & _ & -> & _). reflexivity. }
  destruct (all_task_run (f_id fA) (f_id fB) fA fB Hne schedule _ _ _ _ Hconf)
    as [Hlog Hres].
  assert (Hwarn : In warning
                    (logged (snd (run (all_task schedule [tA; tB]) sB)))).
  { apply Hlog. apply (silent_logged_incl _ _ Hg). left. reflexivity. }
  destruct (run (all_task schedule [tA; tB]) sB) as [res sF].
  cbn [fst snd] in Hres, Hwarn.
  destruct Hres as [[-> Hout]|[-> Hcount]]; cbn [and_then];
    rewrite ?exec_ret; cbn [and_then fst snd].
  - split; [exact Hwarn|]. left.
    destruct Hout as (uA & uB & [->| ->]); exists uA, uB; auto.
  - split; [exact Hwarn|]. right. split; [reflexivity|exact Hcount].
Qed.

(** A provider that has the two folders "A" and "B" parents of each
    other. *)
Definition drive_A_B_cycle : Drive :=
  {| files_get := fun _ fileId =>
       if String.eqb fileId "A"
       then Resolved (Some (folder_of "A" (Some ["B"])))
       else if String.eqb fileId "B"
       then Resolved (Some (folder_of "B" (Some ["A"])))
       else Rejected (Obj {[ "code" := ANum 404;
                             "message" := AStr "File not found" ]});
     files_list := fun _ _ _ =>
       Resolved {| files := None; nextPageToken := None |};
     drives_list := fun _ _ =>
       Resolved {| drives := None; drives_nextPageToken := None |} |}.

(** The two walks taking turns. *)
Definition alternating (n : nat) : list nat := concat (repeat [0; 1] n).

Lemma mutual_parents_resolve_as_orphans_witness :
  let r := exec (processFoldersWithParents uuid_nth (alternating 60) 3
                   [folder_of "A" (Some ["B"]); folder_of "B" (Some ["A"])]
                   "c" ["drive-0"] drive_A_B_cycle) idle in
  In (WARN, "Found 2 unresolved folders. Resolving them...")
     (logged (snd r)) /\
  ((exists uA uB,
       fst r = Ok [with_internal_ids (folder_of "A" (Some ["B"])) None uA;
                   with_internal_ids (folder_of "B" (Some ["A"])) None uB]
       \/ fst r = Ok [with_internal_ids (folder_of "B" (Some ["A"])) None uB;
                      with_internal_ids (folder_of "A" (Some ["B"])) None uA])
   \/ (fst r = Fuel /\
       (count_occ Nat.eq_dec (alternating 60) 0 < walk_turns \/
        count_occ Nat.eq_dec (alternating 60) 1 < walk_turns))).
Proof.
  apply (mutual_parents_resolve_as_orphans uuid_nth drive_A_B_cycle
           ["drive-0"] "c" (folder_of "A" (Some ["B"]))
           (folder_of "B" (Some ["A"])) (alternating 60) 3 idle).
  - reflexivity.
  - reflexivity.
  - discriminate.
  - reflexivity.
  - reflexivity.
  - intros row [].
  - intros n data H. cbn in H. injection H as <-. reflexivity.
  - intros n data H. cbn in H. injection H as <-. reflexivity.
  - lia.
Defined.

(** On that provider each walk finds the cycle and says so. *)
Example mutual_parents_run :
  let r := exec (processFoldersWithParents uuid_nth (alternating 60) 3
                   [folder_of "A" (Some ["B"]); folder_of "B" (Some ["A"])]
                   "c" ["drive-0"] drive_A_B_cycle) idle in
  map (fun folder => (f_id folder, internal_parent_folder_id folder))
      (output_of r)
  = [("A", None); ("B", None)] /\
  logged (snd r)
  = [(WARN, "Circular reference detected for folder B");
     (WARN, "Circular reference detected for folder A");
     (WARN, "Found 2 unresolved folders. Resolving them...")] /\
  requests (snd r) = 4.
Proof. vm_compute. auto. Qed.

(** * The retry executor: what it throws and what it costs *)

Lemma executeWithRetry_throws {T} (operation : Async T) :
  forall d retryCount s error s',
    d = MAX_API_RETRIES - retryCount ->
    exec (executeWithRetry operation retryCount) s = (Throw error, s') ->
    isRateLimitError error = false.
Proof.
  induction d as [|d IH]; intros retryCount s error s' Hd;
    rewrite executeWithRetry_attempt;
    destruct (exec operation (waited RATE_LIMIT_DELAY s)) as [[v|e|] s1];
    cbn [or_else]; try discriminate.
  - destruct (isRateLimitError e) eqn:E; cbn [negb].
    + assert ((MAX_API_RETRIES <=? retryCount) = true) as ->
          by (apply Nat.leb_le; lia).
      intros [= <- _]. reflexivity.
    + intros [= <- _]. exact E.
  - destruct (isRateLimitError e) eqn:E; cbn [negb].
    + destruct (MAX_API_RETRIES <=? retryCount).
      * intros [= <- _]. reflexivity.
      * apply IH. lia.
    + intros [= <- _]. exact E.
Qed.

(** X1.  Whatever the operation does and wherever the count starts, an error
    thrown by [executeWithRetry] is never one that [isRateLimitError]
    accepts: a rate limit failure is retried, and once the retries are used
    up it is replaced by a new [Error], which has no [code]. *)
Theorem executeWithRetry_never_throws_rate_limit_error :
  forall (T : Type) (operation : Async T) (retryCount : nat)
         (s s' : State) (error : jsval),
    exec (executeWithRetry operation retryCount) s = (Throw error, s') ->
    isRateLimitError error = false.
Proof.
  intros T operation retryCount s s' error H.
  eapply executeWithRetry_throws; [reflexivity|exact H].
Qed.

Lemma executeWithRetry_never_throws_rate_limit_error_witness :
  exists s',
    exec (executeWithRetry always_limited 0) idle
    = (Throw (new_Error
                "Failed after 3 retries. Last error: Too Many Requests"), s') /\
    isRateLimitError
      (new_Error "Failed after 3 retries. Last error: Too Many Requests")
    = false.
Proof.
  exists (snd (exec (executeWithRetry always_limited 0) idle)).
  assert (Hrun : exec (executeWithRetry always_limited 0) idle
                 = (Throw (new_Error
                             "Failed after 3 retries. Last error: Too Many Requests"),
                    snd (exec (executeWithRetry always_limited 0) idle)))
    by (vm_compute; reflexivity).
  split; [exact Hrun|].
  exact (executeWithRetry_never_throws_rate_limit_error string always_limited
           0 idle _ _ Hrun).
Defined.

(** ** The cost of [executeWithRetry] *)

Lemma total_delay_waited ms s :
  total_delay (waited ms s) = (ms + total_delay s)%Z.
Proof. reflexivity. Qed.

(** The longest wait from attempt [retryCount] on, [d] retries being left. *)
Fixpoint worst_delay (d retryCount : nat) : Z :=
  match d with
  | O => RATE_LIMIT_DELAY
  | S d' =>
      RATE_LIMIT_DELAY + BASE_BACKOFF_MS * 2 ^ Z.of_nat retryCount
      + worst_delay d' (retryCount + 1)
  end.

Lemma worst_delay_at_least d :
  forall retryCount, (100 <= worst_delay d retryCount)%Z.
Proof.
  induction d as [|d IH]; intros retryCount; cbn [worst_delay];
    unfold RATE_LIMIT_DELAY, BASE_BACKOFF_MS; [lia|].
  specialize (IH (retryCount + 1)).
  assert ((0 < 2 ^ Z.of_nat retryCount)%Z) by (apply Z.pow_pos_nonneg; lia).
  lia.
Qed.

Section RetryCost.
Context {T : Type} (operation : Async T).
Hypothesis one_request :
  forall s, requests (snd (exec operation s)) = S (requests s).
Hypothesis no_timer :
  forall s, timers (snd (exec operation s)) = timers s.

Lemma executeWithRetry_cost :
  forall d retryCount s,
    d = MAX_API_RETRIES - retryCount ->
    let s' := snd (exec (executeWithRetry operation retryCount) s) in
    requests s + 1 <= requests s' <= requests s + S d /\
    (total_delay s + RATE_LIMIT_DELAY <= total_delay s'
     <= total_delay s + worst_delay d retryCount)%Z.
Proof.
  induction d as [|d IH]; intros retryCount s Hd; cbn zeta;
    rewrite executeWithRetry_attempt;
    pose proof (one_request (waited RATE_LIMIT_DELAY s)) as Hr;
    pose proof (no_timer (waited RATE_LIMIT_DELAY s)) as Ht;
    destruct (exec operation (waited RATE_LIMIT_DELAY s)) as [[v|e|] s1];
    cbn [or_else snd] in *;
    assert (Hd1 : total_delay s1 = (RATE_LIMIT_DELAY + total_delay s)%Z)
      by (unfold total_delay; rewrite Ht; reflexivity);
    cbn [waited set_timers requests] in Hr;
    assert (Hpow : (0 < 2 ^ Z.of_nat retryCount)%Z)
      by (apply Z.pow_pos_nonneg; lia);
    cbn [worst_delay]; unfold RATE_LIMIT_DELAY, BASE_BACKOFF_MS in *;
    try (split; lia).
  - destruct (isRateLimitError e); cbn [negb snd]; [|split; lia].
    assert ((MAX_API_RETRIES <=? retryCount) = true) as ->
        by (apply Nat.leb_le; lia).
    cbn [snd]. split; lia.
  - pose proof (worst_delay_at_least d (retryCount + 1)). split; lia.
  - pose proof (worst_delay_at_least d (retryCount + 1)) as Hw1.
    destruct (isRateLimitError e); cbn [negb snd]; [|split; lia].
    destruct (MAX_API_RETRIES <=? retryCount); cbn [snd]; [split; lia|].
    specialize (IH (retryCount + 1)
                  (waited (1000 * 2 ^ Z.of_nat retryCount) s1)).
    cbn zeta in IH. destruct IH as [IHr IHt]; [lia|].
    rewrite total_delay_waited in IHt.
    cbn [waited set_timers requests] in IHr.
    unfold RATE_LIMIT_DELAY in IHt. split; lia.
  - pose proof (worst_delay_at_least d (retryCount + 1)). split; lia.
Qed.
End RetryCost.

(** X2.  For an operation that sends one request for each attempt and sets
    no timer, a call of [executeWithRetry] sends at least one and at most
    four requests ([MAX_API_RETRIES + 1]) and waits between 100 ms and
    7400 ms in all, whatever the answers: four delays of 100 ms and the
    back-offs of 1000, 2000 and 4000 ms. *)
Theorem executeWithRetry_attempts_and_wait_are_bounded :
  forall (T : Type) (operation : Async T),
    (forall s, requests (snd (exec operation s)) = S (requests s)) ->
    (forall s, timers (snd (exec operation s)) = timers s) ->
    forall s,
      let s' := snd (exec (executeWithRetry operation 0) s) in
      requests s + 1 <= requests s' <= requests s + 4 /\
      (total_delay s + 100 <= total_delay s' <= total_delay s + 7400)%Z.
Proof.
  intros T operation Hone Htim s.
  exact (executeWithRetry_cost operation Hone Htim 3 0 s eq_refl).
Qed.

Lemma executeWithRetry_attempts_and_wait_are_bounded_witness :
  let s' := snd (exec (executeWithRetry always_limited 0) idle) in
  requests idle + 1 <= requests s' <= requests idle + 4 /\
  (total_delay idle + 100 <= total_delay s' <= total_delay idle + 7400)%Z.
Proof.
  apply (executeWithRetry_attempts_and_wait_are_bounded string always_limited);
    intros s; reflexivity.
Defined.

(** * The last sync time *)

Lemma later_refl a : later a a = true.
Proof. destruct a; cbn; [apply Z.leb_refl|reflexivity]. Qed.

Lemma later_trans a b c : later a b = true -> later b c = true -> later a c = true.
Proof.
  destruct a, b, c; cbn; try congruence.
  rewrite !Z.leb_le. lia.
Qed.

Lemma later_total a b : later a b = false -> later b a = true.
Proof.
  destruct a, b; cbn; try congruence. rewrite Z.leb_gt, Z.leb_le. lia.
Qed.

(** [first_desc] returns a row that no other row comes before. *)
Lemma first_desc_max rows :
  forall best,
    match first_desc best rows with
    | Some top =>
        (best = Some top \/ In top rows) /\
        (forall b, best = Some b ->
                   later (remote_modified_at top) (remote_modified_at b) = true) /\
        (forall r, In r rows ->
                   later (remote_modified_at top) (remote_modified_at r) = true)
    | None => best = None /\ rows = []
    end.
Proof.
  induction rows as [|r rows IH]; intros best; cbn [first_desc].
  - destruct best as [b|]; [|auto].
    split; [auto|]. split; [|intros r []].
    intros b' [= <-]. apply later_refl.
  - destruct best as [b|].
    + destruct (later (remote_modified_at b) (remote_modified_at r)) eqn:E.
      * specialize (IH (Some b)).
        destruct (first_desc (Some b) rows) as [top|]; [|destruct IH; discriminate].
        destruct IH as (Hin & Hb & Hrows). split; [|split].
        -- destruct Hin; [auto|right; right; assumption].
        -- exact Hb.
        -- intros r' [<-|Hr']; [|auto].
           eapply later_trans; [apply Hb; reflexivity|exact E].
      * specialize (IH (Some r)).
        destruct (first_desc (Some r) rows) as [top|]; [|destruct IH; discriminate].
        destruct IH as (Hin & Hb & Hrows). split; [|split].
        -- right. destruct Hin as [[= ->]|Hin]; [left; reflexivity|right; exact Hin].
        -- intros b' [= <-].
           eapply later_trans; [apply Hb; reflexivity|].
           apply later_total. exact E.
        -- intros r' [<-|Hr']; [apply Hb; reflexivity|auto].
    + specialize (IH (Some r)).
      destruct (first_desc (Some r) rows) as [top|]; [|destruct IH; discriminate].
      destruct IH as (Hin & Hb & Hrows). split; [|split].
      * right. destruct Hin as [[= ->]|Hin]; [left; reflexivity|right; exact Hin].
      * intros b [=].
      * intros r' [<-|Hr']; [apply Hb; reflexivity|auto].
Qed.

(** X3.  [getLastSyncTime] only reads.  It gives [null] when the connection
    has no folder row; when the connection has rows and each of them has a
    date, it gives the date of one of these rows and no row of the
    connection has a later one (rows of other connections do not count). *)
Theorem getLastSyncTime_is_the_latest_modification :
  forall (connectionId : string) (s : State),
    let mine := fun row => folder_id_connection row = connectionId in
    ((forall row, In row (fs_folders s) -> ~ mine row) ->
     exec (getLastSyncTime connectionId) s = (Ok None, s)) /\
    ((exists row, In row (fs_folders s) /\ mine row) ->
     (forall row, In row (fs_folders s) -> mine row ->
                  remote_modified_at row <> None) ->
     exists latest,
       exec (getLastSyncTime connectionId) s = (Ok (Some latest), s) /\
       (exists row, In row (fs_folders s) /\ mine row /\
                    remote_modified_at row = Some latest) /\
       (forall row t, In row (fs_folders s) -> mine row ->
                      remote_modified_at row = Some t -> (t <= latest)%Z)).
Proof.
  intros connectionId s mine. unfold getLastSyncTime.
  rewrite exec_bind, exec_await, exec_query. cbn [and_then].
  set (rows := filter (fun r => String.eqb (folder_id_connection r) connectionId)
                      (fs_folders s)).
  assert (Hrows : forall row, In row rows <-> In row (fs_folders s) /\ mine row).
  { intros row. unfold rows, mine.
    rewrite <- !list_elem_of_In, list_elem_of_filter, Is_true_true.
    rewrite String.eqb_eq. tauto. }
  pose proof (first_desc_max rows None) as Hmax.
  destruct (first_desc None rows) as [top|]; split.
  - intros Hnone. exfalso.
    destruct Hmax as ([[=]|Hin] & _). apply Hrows in Hin as [Hin Hm].
    exact (Hnone top Hin Hm).
  - intros _ Hdated.
    destruct Hmax as ([[=]|Hin] & _ & Hlater).
    pose proof Hin as Hin'. apply Hrows in Hin' as [Hin' Hm].
    destruct (remote_modified_at top) as [latest|] eqn:Etop;
      [|exfalso; exact (Hdated top Hin' Hm Etop)].
    exists latest. rewrite exec_ret. split; [reflexivity|]. split.
    + exists top. auto.
    + intros row t Hr Hmr Ht.
      specialize (Hlater row (proj2 (Hrows row) (conj Hr Hmr))).
      rewrite Ht in Hlater. cbn in Hlater. apply Z.leb_le. exact Hlater.
  - intros _. rewrite exec_ret. reflexivity.
  - intros (row & Hin & Hm). exfalso.
    destruct Hmax as [_ Hnil].
    assert (Hr : In row rows) by (apply Hrows; auto).
    rewrite Hnil in Hr. destruct Hr.
Qed.

Definition synced_twice : State :=
  {| connections := [];
     fs_folders :=
       [ {| id_fs_folder := "i1"; remote_id := "r1";
            folder_id_connection := "c"; remote_modified_at := Some 10%Z |};
         {| id_fs_folder := "i2"; remote_id := "r2";
            folder_id_connection := "c"; remote_modified_at := Some 30%Z |};
         {| id_fs_folder := "i3"; remote_id := "r3";
            folder_id_connection := "other"; remote_modified_at := Some 50%Z |} ];
     fs_permissions := [];
     uuids_drawn := 0; requests := 0; timers := []; logged := [];
     folderIdToInternalIdMap := []; parentLookupCache := [];
     foldersToSync := []; googleDriveFolders := [] |}.

Lemma getLastSyncTime_is_the_latest_modification_witness :
  exists latest,
    exec (getLastSyncTime "c") synced_twice = (Ok (Some latest), synced_twice) /\
    (exists row, In row (fs_folders synced_twice) /\
                 folder_id_connection row = "c" /\
                 remote_modified_at row = Some latest) /\
    (forall row t, In row (fs_folders synced_twice) ->
                   folder_id_connection row = "c" ->
                   remote_modified_at row = Some t -> (t <= latest)%Z).
Proof.
  apply (proj2 (getLastSyncTime_is_the_latest_modification "c" synced_twice)).
  - eexists. split; [left; reflexivity|reflexivity].
  - intros row [<-|[<-|[<-|[]]]] _; discriminate.
Defined.

(** * The list of drives *)

Definition page_drives (response : DrivesResponse) : list string :=
  match drives response with
  | Some ids => ids
  | None => []
  end.

(** The provider lists the shared drives in the pages [first :: rest]. *)
Fixpoint serves_drives (drive : Drive) (pageToken : option string)
    (first : list string) (rest : list (list string)) : Prop :=
  match rest with
  | [] =>
      forall n, exists response,
        drives_list drive n pageToken = Resolved response /\
        page_drives response = first /\
        truthy (drives_nextPageToken response) = false
  | next :: rest' =>
      exists token,
        truthy_string token = true /\
        (forall n, exists response,
            drives_list drive n pageToken = Resolved response /\
            page_drives response = first /\
            drives_nextPageToken response = Some token) /\
        serves_drives drive (Some token) next rest'
  end.

Lemma fetchDriveIds_from_pages drive rest :
  forall first pageToken driveIds fuel s,
    serves_drives drive pageToken first rest ->
    length rest < fuel ->
    exec (fetchDriveIds_from fuel drive pageToken driveIds) s
    = (Ok (driveIds ++ concat (first :: rest)),
       set_requests (requests s + S (length rest)) s).
Proof.
  induction rest as [|next rest IH];
    intros first pageToken driveIds fuel s Hs Hfuel;
    (destruct fuel as [|fuel]; [simpl in Hfuel; lia|]);
    cbn [fetchDriveIds_from];
    rewrite exec_bind, exec_await, exec_request.
  - destruct (Hs (requests s)) as (response & -> & Hp & Ht).
    cbn [and_then]. rewrite Ht, exec_ret.
    unfold page_drives in Hp. cbn [concat length]. rewrite app_nil_r.
    replace (requests s + 1) with (S (requests s)) by lia.
    destruct (drives response); subst first; rewrite ?app_nil_r; reflexivity.
  - destruct Hs as (token & Htok & Hpage & Hrest).
    destruct (Hpage (requests s)) as (response & -> & Hp & Ht).
    cbn [and_then]. rewrite Ht. cbn [truthy]. rewrite Htok.
    rewrite (IH next (Some token)) by (auto; simpl in Hfuel; lia).
    cbn [concat length requests set_requests].
    replace (S (requests s) + S (length rest))
      with (requests s + S (S (length rest))) by lia.
    unfold page_drives in Hp.
    destruct (drives response); subst first;
      rewrite ?app_nil_r, <- ?app_assoc; reflexivity.
Qed.

Lemma exec_fetchDriveIds google_drive auth rootId first rest fuel s :
  serves_drives (google_drive auth) None first rest ->
  (forall n, exists data,
      files_get (google_drive auth) n "root" = Resolved (Some data) /\
      f_id data = rootId) ->
  length rest < fuel ->
  exec (fetchDriveIds google_drive fuel auth) s
  = (Ok (concat (first :: rest) ++ [rootId]),
     set_requests (requests s + length (first :: rest) + 1) s).
Proof.
  intros Hs Hroot Hfuel. unfold fetchDriveIds.
  rewrite exec_bind, (fetchDriveIds_from_pages _ rest first) by assumption.
  cbn [and_then]. rewrite exec_bind, exec_await, exec_request.
  destruct (Hroot (requests (set_requests (requests s + S (length rest)) s)))
    as (data & -> & Hid).
  cbn [and_then]. rewrite exec_bind. cbn [data_id]. rewrite exec_ret.
  cbn [and_then]. rewrite exec_ret, Hid.
  cbn [app length requests set_requests].
  replace (S (requests s + S (length rest)))
    with (requests s + S (length rest) + 1) by lia.
  reflexivity.
Qed.

(** X4.  [fetchDriveIds] returns the shared drives of every page, in page
    order, followed by the id of the user's own root folder; it sends one
    request for each page and one for the root, and sets no timer. *)
Theorem fetchDriveIds_lists_the_drives_then_the_root :
  forall (google_drive : string -> Drive) (auth rootId : string)
         (first : list string) (rest : list (list string))
         (fuel : nat) (s : State),
    serves_drives (google_drive auth) None first rest ->
    (forall n, exists data,
        files_get (google_drive auth) n "root" = Resolved (Some data) /\
        f_id data = rootId) ->
    length rest < fuel ->
    exec (fetchDriveIds google_drive fuel auth) s
    = (Ok (concat (first :: rest) ++ [rootId]),
       set_requests (requests s + length (first :: rest) + 1) s).
Proof.
  intros google_drive auth rootId first rest fuel s.
  apply exec_fetchDriveIds.
Qed.

(** A provider with two pages of shared drives and the root folder "my". *)
Definition two_drive_pages : Drive :=
  {| files_get := fun _ fileId =>
       if String.eqb fileId "root" then Resolved (Some (folder_of "my" None))
       else Resolved None;
     files_list := fun _ _ _ =>
       Resolved {| files := None; nextPageToken := None |};
     drives_list := fun _ pageToken =>
       match pageToken with
       | None =>
           Resolved {| drives := Some ["d1"; "d2"];
                       drives_nextPageToken := Some "next" |}
       | Some _ =>
           Resolved {| drives := Some ["d3"]; drives_nextPageToken := None |}
       end |}.

Lemma fetchDriveIds_lists_the_drives_then_the_root_witness :
  exec (fetchDriveIds (fun _ => two_drive_pages) 2 "token") idle
  = (Ok ["d1"; "d2"; "d3"; "my"], set_requests 3 idle).
Proof.
  apply (fetchDriveIds_lists_the_drives_then_the_root
           (fun _ => two_drive_pages) "token" "my" ["d1"; "d2"] [["d3"]] 2 idle).
  - exists "next". split; [reflexivity|]. split.
    + intros n. eexists. split; [reflexivity|]. split; reflexivity.
    + intros n. eexists. split; [reflexivity|]. split; reflexivity.
  - intros n. eexists. split; reflexivity.
  - apply le_n.
Defined.

(** X5.  [fetchDriveIds] does not go through [executeWithRetry]: a failure
    of [drives.list], or of [files.get] for the root once the pages are
    read, is thrown as it is after that one request, a rate limit failure
    included. *)
Theorem fetchDriveIds_does_not_retry :
  forall (google_drive : string -> Drive) (auth : string) (fuel : nat)
         (s : State) (error : jsval),
    (drives_list (google_drive auth) (requests s) None = Rejected error ->
     exec (fetchDriveIds google_drive (S fuel) auth) s
     = (Throw error, set_requests (S (requests s)) s)) /\
    (forall first rest,
        serves_drives (google_drive auth) None first rest ->
        length rest <= fuel ->
        files_get (google_drive auth) (requests s + length (first :: rest))
          "root" = Rejected error ->
        exec (fetchDriveIds google_drive (S fuel) auth) s
        = (Throw error,
           set_requests (requests s + length (first :: rest) + 1) s)).
Proof.
  intros google_drive auth fuel s error. split.
  - intros Hrej. unfold fetchDriveIds. cbn [fetchDriveIds_from].
    rewrite !exec_bind, exec_await, exec_request, Hrej. reflexivity.
  - intros first rest Hs Hfuel Hrej. unfold fetchDriveIds.
    rewrite exec_bind, (fetchDriveIds_from_pages _ rest first)
      by (auto; lia).
    cbn [and_then]. rewrite exec_bind, exec_await, exec_request.
    cbn [requests set_requests length] in Hrej |- *.
    rewrite Hrej. cbn [and_then].
    replace (S (requests s + S (length rest)))
      with (requests s + S (length rest) + 1) by lia.
    reflexivity.
Qed.

(** A provider that answers every request with "429 Too Many Requests". *)
Definition limited_drive : Drive :=
  {| files_get := fun _ _ => Rejected too_many_requests;
     files_list := fun _ _ _ => Rejected too_many_requests;
     drives_list := fun _ _ => Rejected too_many_requests |}.

Lemma fetchDriveIds_does_not_retry_witness :
  exec (fetchDriveIds (fun _ => limited_drive) 1 "token") idle
  = (Throw too_many_requests, set_requests 1 idle).
Proof.
  apply (proj1 (fetchDriveIds_does_not_retry (fun _ => limited_drive) "token"
                  0 idle too_many_requests)).
  reflexivity.
Defined.

(** * A listing interrupted by a rate limit *)

(** From request number [n] and token [pageToken] on, the provider answers
    with the pages [pages], each with a token for the next request; the
    request after them, numbered [n + length pages], is answered as
    [finally] says. *)
Fixpoint answers (drive : Drive) (params : ListParams) (n : nat)
    (pageToken : option string) (pages : list (list Folder))
    (finally : Reply ListResponse -> Prop) : Prop :=
  match pages with
  | [] => finally (files_list drive n params pageToken)
  | page :: pages' =>
      exists response token,
        files_list drive n params pageToken = Resolved response /\
        page_files response = page /\
        nextPageToken response = Some token /\
        truthy_string token = true /\
        answers drive params (S n) (Some token) pages' finally
  end.

Definition last_page (page : list Folder) (reply : Reply ListResponse)
  : Prop :=
  exists response,
    reply = Resolved response /\ page_files response = page /\
    truthy (nextPageToken response) = false.

Lemma getModifiedFolders_from_answers drive query pages :
  forall pageToken folders fuel s,
    length pages < fuel ->
    (forall error,
        answers drive {| list_q := query; list_driveId := None |} (requests s)
          pageToken pages (eq (Rejected error)) ->
        exec (getModifiedFolders_from fuel drive query pageToken folders) s
        = (Throw error, set_requests (requests s + S (length pages)) s)) /\
    (forall page,
        answers drive {| list_q := query; list_driveId := None |} (requests s)
          pageToken pages (last_page page) ->
        exec (getModifiedFolders_from fuel drive query pageToken folders) s
        = (Ok (folders ++ concat pages ++ page),
           set_requests (requests s + S (length pages)) s)).
Proof.
  induction pages as [|p pages IH]; intros pageToken folders fuel s Hfuel;
    (destruct fuel as [|fuel]; [simpl in Hfuel; lia|]);
    cbn [getModifiedFolders_from answers];
    rewrite exec_bind, exec_await, exec_request.
  - cbn [length concat app].
    replace (requests s + 1) with (S (requests s)) by lia. split.
    + intros error <-. reflexivity.
    + intros page (response & -> & Hp & Ht).
      cbn [and_then]. rewrite Ht, exec_ret, push_files_app, Hp. reflexivity.
  - cbn [length] in Hfuel.
    assert (Hlt : length pages < fuel) by lia.
    split.
    + intros error (response & token & -> & Hp & Ht & Htok & Hrest).
      cbn [and_then]. rewrite Ht. cbn [truthy]. rewrite Htok.
      destruct (IH (Some token) (push_files folders response) fuel
                  (set_requests (S (requests s)) s) Hlt) as [IHe _].
      rewrite (IHe error) by exact Hrest.
      cbn [requests set_requests length].
      replace (S (requests s) + S (length pages))
        with (requests s + S (S (length pages))) by lia.
      reflexivity.
    + intros page (response & token & -> & Hp & Ht & Htok & Hrest).
      cbn [and_then]. rewrite Ht. cbn [truthy]. rewrite Htok.
      destruct (IH (Some token) (push_files folders response) fuel
                  (set_requests (S (requests s)) s) Hlt) as [_ IHo].
      rewrite (IHo page) by exact Hrest.
      rewrite push_files_app, Hp.
      cbn [requests set_requests length concat].
      replace (S (requests s) + S (length pages))
        with (requests s + S (S (length pages))) by lia.
      rewrite <- !app_assoc. reflexivity.
Qed.

(** X6.  In the incremental listing the retried operation is the whole of
    [getModifiedFolders]: when a page request fails with a rate limit error
    after the pages [seen], the listing starts again from its first page
    after the back-off, the folders of [seen] are dropped, and the result
    is what the second listing returns. *)
Theorem rate_limited_listing_starts_over :
  forall (drive : Drive) (lastSyncTime : Z) (fuel : nat) (s : State)
         (seen pages : list (list Folder)) (page : list Folder)
         (error : jsval),
    let params :=
      {| list_q := ModifiedSince lastSyncTime; list_driveId := None |} in
    length seen < fuel -> length pages < fuel ->
    answers drive params (requests s) None seen (eq (Rejected error)) ->
    isRateLimitError error = true ->
    answers drive params (requests s + S (length seen)) None pages
      (last_page page) ->
    exec (executeWithRetry (getModifiedFolders fuel drive lastSyncTime) 0) s
    = (Ok (concat pages ++ page),
       set_requests (requests s + S (length seen) + S (length pages))
         (set_timers (RATE_LIMIT_DELAY :: BASE_BACKOFF_MS :: RATE_LIMIT_DELAY
                      :: timers s) s)).
Proof.
  intros drive lastSyncTime fuel s seen pages page error params
    Hseen Hpages Hfirst Hlimit Hsecond.
  unfold getModifiedFolders.
  erewrite executeWithRetry_retries; [| |exact Hlimit|unfold MAX_API_RETRIES; lia].
  2:{ apply (proj1 (getModifiedFolders_from_answers drive _ seen None [] fuel
                      (waited RATE_LIMIT_DELAY s) Hseen)).
      exact Hfirst. }
  erewrite executeWithRetry_success.
  2:{ apply (proj2 (getModifiedFolders_from_answers drive _ pages None [] fuel
                      _ Hpages)).
      exact Hsecond. }
  reflexivity.
Qed.

(** A provider that is rate limited on its second answer: the first
    attempt gets the page of "a" and fails on the next one. *)
Definition limited_on_second_page : Drive :=
  {| files_get := fun _ _ => Resolved None;
     files_list := fun n _ pageToken =>
       match n, pageToken with
       | 1, _ => Rejected too_many_requests
       | _, None =>
           Resolved {| files := Some [folder_of "a" None];
                       nextPageToken := Some "page-2" |}
       | _, Some _ =>
           Resolved {| files := Some [folder_of "b" None];
                       nextPageToken := None |}
       end;
     drives_list := fun _ _ =>
       Resolved {| drives := None; drives_nextPageToken := None |} |}.

Lemma rate_limited_listing_starts_over_witness :
  exec (executeWithRetry (getModifiedFolders 2 limited_on_second_page 0) 0)
       idle
  = (Ok [folder_of "a" None; folder_of "b" None],
     set_requests 4 (set_timers [100; 1000; 100]%Z idle)).
Proof.
  apply (rate_limited_listing_starts_over limited_on_second_page 0%Z 2 idle
           [[folder_of "a" None]] [[folder_of "a" None]] [folder_of "b" None]
           too_many_requests).
  - apply le_n.
  - apply le_n.
  - eexists _, "page-2". repeat split.
  - reflexivity.
  - eexists _, "page-2". split; [reflexivity|]. repeat split.
    eexists. repeat split.
Defined.

(** ** Failures of [fetchFoldersForParent] *)

Definition parent_params (parentId : option string) (driveId : string)
  : ListParams :=
  {| list_q := buildQuery parentId driveId;
     list_driveId := if String.eqb driveId "root" then None else Some driveId |}.

Lemma fetchFoldersForParent_from_fails drive parentId driveId seen :
  forall pageToken folders fuel s error,
    length seen < fuel ->
    answers drive (parent_params parentId driveId) (requests s) pageToken seen
      (eq (Rejected error)) ->
    isRateLimitError error = false ->
    exists s',
      exec (fetchFoldersForParent_from fuel drive parentId driveId pageToken
              folders) s
      = (Throw error, s') /\
      requests s' = requests s + S (length seen).
Proof.
  induction seen as [|p seen IH]; intros pageToken folders fuel s error
    Hfuel Hans Hcls;
    (destruct fuel as [|fuel]; [simpl in Hfuel; lia|]);
    cbn [fetchFoldersForParent_from answers] in *;
    rewrite exec_bind, exec_await.
  - erewrite executeWithRetry_propagates;
      [|rewrite exec_request; cbn [waited set_timers requests];
        fold (parent_params parentId driveId); rewrite <- Hans; reflexivity
       |exact Hcls].
    cbn [and_then]. eexists. split; [reflexivity|].
    cbn [requests set_requests waited set_timers length]. lia.
  - destruct Hans as (response & token & Hr & Hp & Ht & Htok & Hrest).
    erewrite executeWithRetry_success
      by (rewrite exec_request; cbn [waited set_timers requests];
          fold (parent_params parentId driveId); rewrite Hr; reflexivity).
    cbn [and_then]. rewrite Ht. cbn [truthy]. rewrite Htok.
    edestruct (IH (Some token)) as (s' & -> & Hreq);
      [|exact Hrest|exact Hcls|].
    + cbn [length] in Hfuel. lia.
    + eexists. split; [reflexivity|]. rewrite Hreq.
      cbn [requests set_requests waited set_timers length]. lia.
Qed.

(** X7.  When a page request fails with an error that is no rate limit
    error, [fetchFoldersForParent] throws after that request: for an error
    object whose message is the string [m], a new [Error] with the message
    "Error fetching Google Drive folders: " followed by [m]; for [null] or
    [undefined], the [TypeError] of reading their [message].  When every
    request is rate limited, it throws after four requests, with the
    message of the exhaustion behind the same prefix.  Whatever it throws
    is no rate limit error, so a caller that retries on such errors does
    not retry the listing. *)
Theorem fetchFoldersForParent_wraps_the_failure :
  forall (drive : Drive) (rootDriveId : string) (parentId : option string)
         (driveId : string) (fuel : nat) (s : State),
    (forall (seen : list (list Folder)) (error : jsval),
        length seen < fuel ->
        answers drive (parent_params parentId driveId) (requests s) None seen
          (eq (Rejected error)) ->
        isRateLimitError error = false ->
        exists thrown s',
          exec (fetchFoldersForParent fuel drive rootDriveId parentId driveId) s
          = (Throw thrown, s') /\
          requests s' = requests s + S (length seen) /\
          (forall o m,
              error = Obj o -> o !! "message" = Some (AStr m) ->
              thrown
              = Obj {[ "message" :=
                         AStr ("Error fetching Google Drive folders: "
                               +:+ m) ]}) /\
          (error = Atom ANull ->
           thrown
           = Obj {[ "message" :=
                      AStr "Cannot read properties of null (reading 'message')" ]}) /\
          (error = Atom AUndefined ->
           thrown
           = Obj {[ "message" :=
                      AStr "Cannot read properties of undefined (reading 'message')" ]})) /\
    (forall (o : gmap string atom) (m : string),
        0 < fuel ->
        (forall n, files_list drive n (parent_params parentId driveId) None
                   = Rejected (Obj o)) ->
        isRateLimitError (Obj o) = true ->
        o !! "message" = Some (AStr m) ->
        exists s',
          exec (fetchFoldersForParent fuel drive rootDriveId parentId driveId) s
          = (Throw (Obj {[ "message" :=
                             AStr ("Error fetching Google Drive folders: "
                                   +:+ "Failed after 3 retries. Last error: "
                                   +:+ m) ]}), s') /\
          requests s' = requests s + 4) /\
    (forall thrown s',
        exec (fetchFoldersForParent fuel drive rootDriveId parentId driveId) s
        = (Throw thrown, s') ->
        isRateLimitError thrown = false).
Proof.
  intros drive rootDriveId parentId driveId fuel s. split; [|split].
  - intros seen error Hfuel Hans Hcls. unfold fetchFoldersForParent.
    rewrite exec_try_catch, exec_bind.
    destruct (fetchFoldersForParent_from_fails drive parentId driveId seen
                None [] fuel s error Hfuel Hans Hcls) as (s' & -> & Hreq).
    cbn [and_then or_else].
    destruct error as [a|o].
    + destruct a; cbn [message_of]; rewrite exec_throw;
        (eexists _, s'; split; [reflexivity|]; split; [exact Hreq|]);
        (split; [intros o m [=]|]); split; intros [=]; reflexivity.
    + cbn [message_of]. rewrite exec_throw.
      eexists _, s'. split; [reflexivity|]. split; [exact Hreq|].
      split; [|split; intros [=]].
      intros o' m [= <-] Hm. unfold new_Error, prop. rewrite Hm. reflexivity.
  - intros o m Hfuel Hrej Hcls Hm. unfold fetchFoldersForParent.
    destruct fuel as [|fuel]; [lia|].
    rewrite exec_try_catch, exec_bind. cbn [fetchFoldersForParent_from].
    rewrite exec_bind, exec_await.
    fold (parent_params parentId driveId).
    assert (Hop : forall s0,
               exec (request (fun n =>
                       files_list drive n (parent_params parentId driveId)
                         None)) s0
               = (Throw (Obj o), set_requests (S (requests s0)) s0)).
    { intros s0. rewrite exec_request, Hrej. reflexivity. }
    rewrite (executeWithRetry_retries _ 0 _ (Obj o) _ (Hop _) Hcls)
      by (unfold MAX_API_RETRIES; lia).
    change (0 + 1) with 1.
    rewrite (executeWithRetry_retries _ 1 _ (Obj o) _ (Hop _) Hcls)
      by (unfold MAX_API_RETRIES; lia).
    change (1 + 1) with 2.
    rewrite (executeWithRetry_retries _ 2 _ (Obj o) _ (Hop _) Hcls)
      by (unfold MAX_API_RETRIES; lia).
    change (2 + 1) with 3.
    rewrite (executeWithRetry_gives_up _ 3 _ (Obj o) _ (Hop _) Hcls)
      by (unfold MAX_API_RETRIES; lia).
    cbn [and_then or_else]. eexists. split.
    + unfold terminal_error, error_message, prop. rewrite Hm.
      reflexivity.
    + cbn [requests set_requests waited set_timers]. lia.
  - intros thrown s'. unfold fetchFoldersForParent. rewrite exec_try_catch.
    match goal with
    | |- context [or_else ?r _] => destruct r as [[folders|error|] s1]
    end; cbn [or_else]; try discriminate.
    destruct error as [a|o]; [destruct a|]; cbn [message_of];
      rewrite exec_throw; intros [= <- _]; reflexivity.
Qed.

Lemma fetchFoldersForParent_wraps_the_failure_witness :
  exists s',
    exec (fetchFoldersForParent 1 limited_drive "my" (Some "p") "drive-0") idle
    = (Throw (Obj {[ "message" :=
                       AStr ("Error fetching Google Drive folders: "
                             +:+ "Failed after 3 retries. Last error: "
                             +:+ "Too Many Requests") ]}), s') /\
    requests s' = 4.
Proof.
  apply (proj1 (proj2 (fetchFoldersForParent_wraps_the_failure limited_drive
                         "my" (Some "p") "drive-0" 1 idle))
           {[ "code" := ANum 429; "message" := AStr "Too Many Requests" ]}
           "Too Many Requests").
  - lia.
  - intros n. reflexivity.
  - reflexivity.
  - reflexivity.
Defined.

(** A request rejected with [null]: reading its [message] in the [catch]
    is what fails. *)
Example fetchFoldersForParent_rejected_with_null :
  fst (exec (fetchFoldersForParent 1
               {| files_get := fun _ _ => Resolved None;
                  files_list := fun _ _ _ => Rejected (Atom ANull);
                  drives_list := fun _ _ =>
                    Resolved {| drives := None;
                                drives_nextPageToken := None |} |}
               "my" (Some "p") "drive-0") idle)
  = Throw (Obj {[ "message" :=
                    AStr "Cannot read properties of null (reading 'message')" ]}).
Proof. vm_compute. reflexivity. Qed.

(** * The parent lookup and its cache *)

(** [driveIds.includes(parentId) || parentId === 'root'] *)
Definition is_root (driveIds : list string) (parentId : string) : bool :=
  existsb (String.eqb parentId) driveIds || String.eqb parentId "root".

(** The row that [fs_folders.findFirst] gives for a remote id. *)
Definition stored_row (remoteId connectionId : string) (s : State)
  : option fs_folder :=
  find (fun r => String.eqb (remote_id r) remoteId
                 && String.eqb (folder_id_connection r) connectionId)
       (fs_folders s).

(** [row?.id_fs_folder || null] *)
Definition stored_id (remoteId connectionId : string) (s : State)
  : option string :=
  match stored_row remoteId connectionId s with
  | Some row =>
      if truthy_string (id_fs_folder row) then Some (id_fs_folder row)
      else None
  | None => None
  end.

Lemma exec_resolveParentId parentId driveIds connectionId s :
  exec (resolveParentId parentId driveIds connectionId) s
  = match Map_get parentId (folderIdToInternalIdMap s) with
    | Some internalId => (Ok (Some internalId), s)
    | None =>
        if is_root driveIds parentId then (Ok (Some "root"), s)
        else
          match Map_get parentId (parentLookupCache s) with
          | Some cached => (Ok cached, s)
          | None =>
              (Ok (stored_id parentId connectionId s),
               set_parentLookupCache
                 (Map_set parentId (stored_id parentId connectionId s)
                    (parentLookupCache s)) s)
          end
    end.
Proof.
  unfold resolveParentId. rewrite exec_bind, exec_gets. cbn [and_then].
  unfold Map_has.
  destruct (Map_get parentId (folderIdToInternalIdMap s)) as [v|];
    [apply exec_ret|].
  fold (is_root driveIds parentId).
  destruct (is_root driveIds parentId); [apply exec_ret|].
  rewrite exec_bind, exec_gets. cbn [and_then].
  destruct (Map_get parentId (parentLookupCache s)) as [cached|];
    [apply exec_ret|].
  rewrite exec_bind, exec_await. unfold fs_folders_findFirst.
  rewrite exec_query. cbn [and_then].
  rewrite exec_bind, exec_modify. cbn [and_then]. rewrite exec_ret.
  reflexivity.
Qed.

(** X8.  The answer of [resolveParentId] is remembered: after a call, a
    second call for the same parent, in any state with the same two maps,
    gives the same answer and changes nothing, whatever the store holds by
    then. *)
Theorem resolveParentId_asks_the_store_once :
  forall (parentId : string) (driveIds : list string) (connectionId : string)
         (s s2 : State),
    let first := exec (resolveParentId parentId driveIds connectionId) s in
    folderIdToInternalIdMap s2 = folderIdToInternalIdMap (snd first) ->
    parentLookupCache s2 = parentLookupCache (snd first) ->
    exec (resolveParentId parentId driveIds connectionId) s2 = (fst first, s2).
Proof.
  intros parentId driveIds connectionId s s2 first Hid Hcache.
  subst first. rewrite exec_resolveParentId in *.
  rewrite exec_resolveParentId, Hid, Hcache.
  destruct (Map_get parentId (folderIdToInternalIdMap s)) as [v|] eqn:Ev;
    cbn [fst snd]; [rewrite Ev; reflexivity|].
  destruct (is_root driveIds parentId); cbn [fst snd];
    [rewrite Ev; reflexivity|].
  destruct (Map_get parentId (parentLookupCache s)) as [cached|] eqn:Ec;
    cbn [fst snd].
  - rewrite Ev, Ec. reflexivity.
  - cbn [folderIdToInternalIdMap parentLookupCache set_parentLookupCache].
    rewrite Ev, Map_get_set_eq. reflexivity.
Qed.

(** The store of [with_f_persisted] emptied once "f" has been looked up. *)
Definition f_looked_up_then_deleted : State :=
  {| connections := []; fs_folders := []; fs_permissions := [];
     uuids_drawn := 0; requests := 0; timers := []; logged := [];
     folderIdToInternalIdMap := [];
     parentLookupCache := [("f", Some "id-of-f")];
     foldersToSync := []; googleDriveFolders := [] |}.

Lemma resolveParentId_asks_the_store_once_witness :
  exec (resolveParentId "f" ["drive-0"] "c") f_looked_up_then_deleted
  = (Ok (Some "id-of-f"), f_looked_up_then_deleted).
Proof.
  apply (resolveParentId_asks_the_store_once "f" ["drive-0"] "c"
           with_f_persisted f_looked_up_then_deleted); reflexivity.
Defined.

(** * Permissions: nothing to ingest, and failure *)

(** X9.  When no folder of the batch has permissions,
    [ingestPermissionsForFolders] returns the folders as they are, logs one
    warning and never calls the ingestion service. *)
Theorem ingestPermissionsForFolders_without_permissions :
  forall (ingestData : list PermissionRef -> string -> string -> string ->
                       string -> Async (list UnifiedPermission))
         (folders : list Folder) (connectionId : string) (s : State),
    allPermissions folders = [] ->
    exec (ingestPermissionsForFolders ingestData folders connectionId) s
    = (Ok folders,
       set_logged
         ((WARN, if length folders =? 0
                 then "No folders provided for ingesting permissions."
                 else "No permissions found in the provided folders.")
          :: logged s) s).
Proof.
  intros ingestData folders connectionId s Hnone.
  unfold ingestPermissionsForFolders.
  destruct (length folders =? 0).
  - rewrite exec_bind, exec_logger. cbn [and_then]. apply exec_ret.
  - rewrite exec_try_catch, Hnone. cbn [length Nat.eqb].
    rewrite exec_bind, exec_logger. cbn [and_then]. rewrite exec_ret.
    reflexivity.
Qed.

(** An ingestion service that always fails. *)
Definition ingest_unavailable (permissions : list PermissionRef)
    (provider connectionId vertical object : string)
  : Async (list UnifiedPermission) :=
  throw (new_Error "ingestion unavailable").

Lemma ingestPermissionsForFolders_without_permissions_witness :
  exec (ingestPermissionsForFolders ingest_unavailable
          [folder_of "a" None; folder_of "b" None] "c") idle
  = (Ok [folder_of "a" None; folder_of "b" None],
     set_logged [(WARN, "No permissions found in the provided folders.")]
       idle).
Proof.
  apply (ingestPermissionsForFolders_without_permissions ingest_unavailable
           [folder_of "a" None; folder_of "b" None] "c" idle).
  reflexivity.
Defined.

(** X10.  When the ingestion of the permissions fails,
    [ingestPermissionsForFolders] logs an error and throws the error of the
    ingestion as it is: no folder is returned without its permissions. *)
Theorem ingestPermissionsForFolders_rethrows :
  forall (ingestData : list PermissionRef -> string -> string -> string ->
                       string -> Async (list UnifiedPermission))
         (folders : list Folder) (connectionId : string) (s s' : State)
         (error : jsval),
    allPermissions folders <> [] ->
    exec (ingestData (uniquePermissions (allPermissions folders))
            "googledrive" connectionId "filestorage" "permission")
         (set_logged
            ((LOG, "Ingesting "
                   +:+ string_of_nat
                         (length (uniquePermissions (allPermissions folders)))
                   +:+ " unique permissions.") :: logged s) s)
    = (Throw error, s') ->
    exec (ingestPermissionsForFolders ingestData folders connectionId) s
    = (Throw error,
       set_logged ((ERROR, "Error ingesting permissions for folders")
                   :: logged s') s').
Proof.
  intros ingestData folders connectionId s s' error Hsome Hfail.
  unfold ingestPermissionsForFolders.
  destruct folders as [|folder folders]; [exfalso; apply Hsome; reflexivity|].
  cbn [length Nat.eqb]. rewrite exec_try_catch.
  destruct (allPermissions (folder :: folders)) as [|p all] eqn:Eall;
    [congruence|].
  cbn [length Nat.eqb].
  rewrite exec_bind, exec_logger. cbn [and_then].
  rewrite exec_bind, exec_await, Hfail. cbn [and_then or_else].
  rewrite exec_bind, exec_logger. cbn [and_then]. apply exec_throw.
Qed.

Lemma ingestPermissionsForFolders_rethrows_witness :
  exec (ingestPermissionsForFolders ingest_unavailable
          shared_permission_folders "c") idle
  = (Throw (new_Error "ingestion unavailable"),
     set_logged [(ERROR, "Error ingesting permissions for folders");
                 (LOG, "Ingesting 2 unique permissions.")] idle).
Proof.
  apply (ingestPermissionsForFolders_rethrows ingest_unavailable
           shared_permission_folders "c" idle
           (set_logged [(LOG, "Ingesting 2 unique permissions.")] idle)).
  - discriminate.
  - reflexivity.
Defined.

(** ** [sync]: no failure goes unreported *)

(** X11.  Whenever [sync] throws, whatever failed, its last two actions
    were to log the error and to print it: no failure of a run goes
    unreported. *)
Theorem sync_logs_what_it_throws :
  forall (uuid_of : nat -> string) (decrypt : string -> Reply string)
         (google_drive : string -> Drive)
         (ingestData : list PermissionRef -> string -> string -> string ->
                       string -> Async (list UnifiedPermission))
         (schedule : list nat) (schedules : nat -> Schedule) (fuel : nat)
         (linkedUserId : string) (s s' : State) (error : jsval),
    exec (sync uuid_of decrypt google_drive ingestData schedule schedules
            fuel linkedUserId) s
    = (Throw error, s') ->
    exists s1,
      s' = set_logged ((CONSOLE, "error")
                       :: (ERROR, "Error syncing Google Drive folders")
                       :: logged s1) s1.
Proof.
  intros uuid_of decrypt google_drive ingestData schedule schedules fuel
    linkedUserId s s' error.
  unfold sync. rewrite exec_try_catch.
  match goal with |- context [or_else ?r _] => destruct r as [[a|e|] s1] end;
    cbn [or_else]; try discriminate.
  rewrite exec_bind, exec_logger. cbn [and_then].
  rewrite exec_bind, exec_logger. cbn [and_then]. rewrite exec_throw.
  intros [= _ <-]. exists s1. reflexivity.
Qed.

(** A user with one Google Drive connection. *)
Definition one_connection : State :=
  {| connections :=
       [ {| id_connection := "c"; id_linked_user := "user-1";
            provider_slug := "googledrive";
            vertical := "filestorage"; access_token := "x" |} ];
     fs_folders := []; fs_permissions := [];
     uuids_drawn := 0; requests := 0; timers := []; logged := [];
     folderIdToInternalIdMap := []; parentLookupCache := [];
     foldersToSync := []; googleDriveFolders := [] |}.

(** A run in which the stored access token cannot be decrypted. *)
Definition sync_with_bad_key : Async ApiResponse :=
  sync (fun _ => "u") (fun _ => Rejected (new_Error "bad key"))
    (fun _ => two_pages) (fun _ _ _ _ _ => ret []) [] (fun _ => Idle) 5
    "user-1".

Lemma sync_logs_what_it_throws_witness :
  exists s1,
    snd (exec sync_with_bad_key one_connection)
    = set_logged ((CONSOLE, "error")
                  :: (ERROR, "Error syncing Google Drive folders")
                  :: logged s1) s1.
Proof.
  apply (sync_logs_what_it_throws (fun _ => "u")
           (fun _ => Rejected (new_Error "bad key"))
           (fun _ => two_pages) (fun _ _ _ _ _ => ret []) []
           (fun _ => Idle) 5 "user-1" one_connection
           (snd (exec sync_with_bad_key one_connection))
           (new_Error "bad key")).
  reflexivity.
Defined.

(** * Creating a folder *)

Lemma connections_findFirst_none linkedUserId s :
  (forall c, In c (connections s) ->
             ~ (id_linked_user c = linkedUserId /\
                provider_slug c = "googledrive" /\
                vertical c = "filestorage")) ->
  exec (connections_findFirst linkedUserId "googledrive" "filestorage") s
  = (Ok None, s).
Proof.
  intros Hnone. unfold connections_findFirst. rewrite exec_query.
  match goal with |- context [find ?p ?l] => destruct (find p l) eqn:E end;
    [|reflexivity].
  exfalso. apply find_some in E as [Hin Hc]. apply (Hnone c Hin).
  apply andb_true_iff in Hc as [Hc Hv].
  apply andb_true_iff in Hc as [Hu Hp].
  apply String.eqb_eq in Hu, Hp, Hv. auto.
Qed.

(** X12.  Without a Google Drive connection of the user, [addFolder]
    answers 404 "Connection not found" with no data; nothing is decrypted,
    sent or logged. *)
Theorem addFolder_without_connection :
  forall (decrypt : string -> Reply string)
         (files_create : string -> nat -> FileMetadata ->
                         Reply (option (gmap string atom)))
         (folderData : FolderInput) (linkedUserId : string) (s : State),
    (forall c, In c (connections s) ->
               ~ (id_linked_user c = linkedUserId /\
                  provider_slug c = "googledrive" /\
                  vertical c = "filestorage")) ->
    exec (addFolder decrypt files_create folderData linkedUserId) s
    = (Ok {| created := None; create_message := "Connection not found";
             create_statusCode := 404 |}, s).
Proof.
  intros decrypt files_create folderData linkedUserId s Hnone.
  unfold addFolder. rewrite exec_try_catch, exec_bind, exec_await.
  rewrite connections_findFirst_none by exact Hnone.
  cbn [and_then]. rewrite exec_ret. reflexivity.
Qed.

Lemma addFolder_without_connection_witness :
  exec (addFolder (fun t => Resolved t) (fun _ _ _ => Resolved None)
          {| input_name := AStr "reports"; input_parents := AUndefined |}
          "user-1") idle
  = (Ok {| created := None; create_message := "Connection not found";
           create_statusCode := 404 |}, idle).
Proof.
  apply addFolder_without_connection. intros c [].
Defined.

(** The fields that [addFolder] copies from the answer of the provider. *)
Definition created_fields : list string :=
  ["id"; "name"; "mimeType"; "createdTime"; "modifiedTime"; "parents"].

(** X13.  With a connection, [addFolder] sends exactly one request.  If it
    is answered, the result is 201 with the six fields [id], [name],
    [mimeType], [createdTime], [modifiedTime] and [parents] of the answer
    and nothing else of it; if it is rejected, the error is logged and
    thrown as it is. *)
Theorem addFolder_sends_one_request :
  forall (decrypt : string -> Reply string)
         (files_create : string -> nat -> FileMetadata ->
                         Reply (option (gmap string atom)))
         (folderData : FolderInput) (linkedUserId : string) (s : State)
         (connection : connection) (auth : string),
    exec (connections_findFirst linkedUserId "googledrive" "filestorage") s
    = (Ok (Some connection), s) ->
    decrypt (access_token connection) = Resolved auth ->
    let fileMetadata :=
      {| meta_name := input_name folderData;
         meta_mimeType := "application/vnd.google-apps.folder";
         meta_parents := input_parents folderData |} in
    let sent := set_requests (S (requests s)) s in
    (forall data,
        files_create auth (requests s) fileMetadata = Resolved (Some data) ->
        exists createdFolder,
          exec (addFolder decrypt files_create folderData linkedUserId) s
          = (Ok {| created := Some createdFolder;
                   create_message := "Google Drive folder created";
                   create_statusCode := 201 |}, sent) /\
          forall k, createdFolder !! k
                    = if decide (In k created_fields) then Some (prop data k)
                      else None) /\
    (forall error,
        files_create auth (requests s) fileMetadata = Rejected error ->
        exec (addFolder decrypt files_create folderData linkedUserId) s
        = (Throw error,
           set_logged ((ERROR, "Error creating Google Drive folder")
                       :: logged s) sent)).
Proof.
  intros decrypt files_create folderData linkedUserId s connection auth
    Hconn Hkey fileMetadata sent.
  split.
  - intros data Hreply.
    exists {[ "id" := prop data "id";
              "name" := prop data "name";
              "mimeType" := prop data "mimeType";
              "createdTime" := prop data "createdTime";
              "modifiedTime" := prop data "modifiedTime";
              "parents" := prop data "parents" ]}.
    split.
    + unfold addFolder. rewrite exec_try_catch, exec_bind, exec_await, Hconn.
      cbn [and_then]. rewrite Hkey, exec_bind, exec_await, exec_request.
      fold fileMetadata. rewrite Hreply. cbn [and_then]. rewrite exec_ret.
      reflexivity.
    + intros k. unfold created_fields.
      destruct (decide (In k _)) as [Hin|Hout].
      * cbn [In] in Hin.
        destruct Hin as [<-|[<-|[<-|[<-|[<-|[<-|[]]]]]]]; reflexivity.
      * cbn [In] in Hout.
        rewrite !lookup_insert_ne by (intros <-; tauto).
        apply lookup_singleton_ne. intros <-. tauto.
  - intros error Hreply.
    unfold addFolder. rewrite exec_try_catch, exec_bind, exec_await, Hconn.
    cbn [and_then]. rewrite Hkey, exec_bind, exec_await, exec_request.
    fold fileMetadata. rewrite Hreply. cbn [and_then or_else].
    rewrite exec_bind, exec_logger. cbn [and_then]. rewrite exec_throw.
    reflexivity.
Qed.

(** A provider that answers [files.create] with the new file, under the
    requested name and with a field that was not asked for. *)
Definition files_create_named
  : string -> nat -> FileMetadata -> Reply (option (gmap string atom)) :=
  fun _ _ fileMetadata =>
    Resolved (Some {[ "id" := AStr "new"; "name" := meta_name fileMetadata;
                      "kind" := AStr "drive#file" ]}).

Lemma addFolder_sends_one_request_witness :
  exists createdFolder,
    exec (addFolder (fun token => Resolved token) files_create_named
            {| input_name := AStr "reports"; input_parents := AUndefined |}
            "user-1") one_connection
    = (Ok {| created := Some createdFolder;
             create_message := "Google Drive folder created";
             create_statusCode := 201 |}, set_requests 1 one_connection) /\
    createdFolder !! "name" = Some (AStr "reports") /\
    createdFolder !! "parents" = Some AUndefined /\
    createdFolder !! "kind" = None.
Proof.
  destruct (proj1 (addFolder_sends_one_request (fun token => Resolved token)
                     files_create_named
                     {| input_name := AStr "reports";
                        input_parents := AUndefined |}
                     "user-1" one_connection _ "x" eq_refl eq_refl)
              _ eq_refl) as (createdFolder & Hexec & Hfields).
  exists createdFolder. split; [exact Hexec|].
  rewrite !Hfields. repeat split; reflexivity.
Defined.

(** * The Zendesk stage mapper: the keys of [field_mappings] *)

Lemma project_fold stage (mappings : list ZendeskStageMapper.CustomFieldMapping) :
  forall (fm : gmap string atom) (k : string) (v : atom),
    fold_left (project stage) mappings fm !! k = Some v ->
    fm !! k = Some v \/
    exists mapping, In mapping mappings /\
                    ZendeskStageMapper.slug mapping = k /\
                    v = prop stage (ZendeskStageMapper.remote_id mapping).
Proof.
  induction mappings as [|m mappings IH]; intros fm k v; cbn [fold_left].
  - auto.
  - intros H. apply IH in H as [H|(mapping & Hin & Hs & Hv)].
    + unfold project in H.
      destruct (decide (ZendeskStageMapper.slug m = k)) as [<-|Hne].
      * rewrite lookup_insert_eq in H. injection H as <-.
        right. exists m. split; [left; reflexivity|auto].
      * rewrite lookup_insert_ne in H by exact Hne. auto.
    + right. exists mapping. split; [right; exact Hin|auto].
Qed.

Lemma project_fold_key stage (mappings : list ZendeskStageMapper.CustomFieldMapping) :
  forall (fm : gmap string atom) (mapping : ZendeskStageMapper.CustomFieldMapping),
    In mapping mappings ->
    is_Some (fold_left (project stage) mappings fm
               !! ZendeskStageMapper.slug mapping).
Proof.
  induction mappings as [|m mappings IH]; intros fm mapping; cbn [fold_left In];
    [tauto|].
  intros [->|Hin]; [|auto].
  destruct (in_dec string_dec (ZendeskStageMapper.slug mapping)
              (map ZendeskStageMapper.slug mappings)) as [Hlater|Hlast].
  - apply in_map_iff in Hlater as (m' & Hs & Hin'). rewrite <- Hs. auto.
  - rewrite project_later_slugs by exact Hlast.
    unfold project. rewrite lookup_insert_eq. eauto.
Qed.

(** X14.  When no custom field mapping has the slug ["__proto__"], the own
    keys of [field_mappings] in the output of [mapSingleStageToUnified] are
    the slugs of the mappings, and the value under a key is the value of
    the stage at the remote id of a mapping with that slug. *)
Theorem field_mappings_holds_the_mapped_slugs :
  forall (stage : gmap string atom) (connectionId : string)
         (customFieldMappings :
            option (list ZendeskStageMapper.CustomFieldMapping))
         (k : string),
    let mappings :=
      match customFieldMappings with Some l => l | None => [] end in
    let output :=
      ZendeskStageMapper.mapSingleStageToUnified stage connectionId
        customFieldMappings in
    ~ In "__proto__" (map ZendeskStageMapper.slug mappings) ->
    (is_Some (ZendeskStageMapper.field_mappings output !! k) <->
     In k (map ZendeskStageMapper.slug mappings)) /\
    (forall v,
        ZendeskStageMapper.field_mappings output !! k = Some v ->
        exists mapping,
          In mapping mappings /\ ZendeskStageMapper.slug mapping = k /\
          v = prop stage (ZendeskStageMapper.remote_id mapping)).
Proof.
  intros stage connectionId customFieldMappings k mappings output Hnone.
  assert (Hfm : ZendeskStageMapper.field_mappings output
                = fold_left (project stage) mappings ∅).
  { subst output. unfold ZendeskStageMapper.mapSingleStageToUnified.
    cbn [ZendeskStageMapper.field_mappings].
    destruct customFieldMappings as [l|]; [|reflexivity].
    rewrite (assign_plain stage l Hnone). reflexivity. }
  rewrite Hfm. split; [split|].
  - intros [v Hv]. apply project_fold in Hv as [Hv|(mapping & Hin & <- & _)].
    + rewrite lookup_empty in Hv. discriminate.
    + apply in_map. exact Hin.
  - intros Hin. apply in_map_iff in Hin as (mapping & <- & Hin).
    apply project_fold_key. exact Hin.
  - intros v Hv. apply project_fold in Hv as [Hv|Hv]; [|exact Hv].
    rewrite lookup_empty in Hv. discriminate.
Qed.

Lemma field_mappings_holds_the_mapped_slugs_witness :
  let output :=
    ZendeskStageMapper.mapSingleStageToUnified
      {[ "id" := ANum 7; "p_level" := AStr "high" ]} "c"
      (Some [ {| ZendeskStageMapper.slug := "priority";
                 ZendeskStageMapper.remote_id := "p_level" |};
              {| ZendeskStageMapper.slug := "owner";
                 ZendeskStageMapper.remote_id := "assignee" |} ]) in
  is_Some (ZendeskStageMapper.field_mappings output !! "owner") /\
  ~ is_Some (ZendeskStageMapper.field_mappings output !! "p_level").
Proof.
  pose proof (fun k =>
    proj1 (field_mappings_holds_the_mapped_slugs
             {[ "id" := ANum 7; "p_level" := AStr "high" ]} "c"
             (Some [ {| ZendeskStageMapper.slug := "priority";
                        ZendeskStageMapper.remote_id := "p_level" |};
                     {| ZendeskStageMapper.slug := "owner";
                        ZendeskStageMapper.remote_id := "assignee" |} ]) k
             ltac:(cbn; intros [H|[H|[]]]; discriminate H))) as Hkeys.
  cbn zeta in Hkeys |- *. split.
  - apply Hkeys. right. left. reflexivity.
  - intros H. apply Hkeys in H. destruct H as [H|[H|[]]]; discriminate H.
Defined.

(** * The pass loop of [processFoldersWithParents] *)

Lemma stored_id_truthy remoteId connectionId s id :
  stored_id remoteId connectionId s = Some id -> truthy_string id = true.
Proof.
  unfold stored_id. destruct (stored_row remoteId connectionId s) as [row|];
    [|discriminate].
  destruct (truthy_string (id_fs_folder row)) eqn:E; [|discriminate].
  intros [= <-]. exact E.
Qed.

Lemma stored_id_store remoteId connectionId s s' :
  fs_folders s' = fs_folders s ->
  stored_id remoteId connectionId s' = stored_id remoteId connectionId s.
Proof. intros H. unfold stored_id, stored_row. rewrite H. reflexivity. Qed.

Lemma exec_getIntenalIdForFolder uuid_of folderId connectionId s :
  exec (getIntenalIdForFolder uuid_of folderId connectionId) s
  = match stored_id folderId connectionId s with
    | Some id => (Ok id, s)
    | None => (Ok (uuid_of (uuids_drawn s)),
               set_uuids_drawn (S (uuids_drawn s)) s)
    end.
Proof.
  unfold getIntenalIdForFolder, fs_folders_findFirst, stored_id, stored_row.
  rewrite exec_bind, exec_await, exec_query. cbn [and_then].
  match goal with |- context [find ?p ?l] => destruct (find p l) as [row|] end;
    [|reflexivity].
  destruct (truthy_string (id_fs_folder row)); reflexivity.
Qed.

Lemma exec_for_of_cons {X A} (x : X) xs (body : A -> X -> Async A) a s :
  exec (for_of (x :: xs) body a) s
  = and_then (exec (body a x) s) (fun a' s' => exec (for_of xs body a') s').
Proof. cbn [for_of]. apply exec_bind. Qed.

(** What one iteration of the pass does with [folder]. *)
Lemma exec_resolve_in_pass uuid_of driveIds connectionId pending folder s :
  exec (resolve_in_pass uuid_of driveIds connectionId pending folder) s
  = and_then
      (exec (resolveParentId (first_parent folder) driveIds connectionId) s)
      (fun internalParentId s1 =>
         match internalParentId with
         | Some parent =>
             if truthy_string parent then
               and_then
                 (exec (getIntenalIdForFolder uuid_of (f_id folder)
                          connectionId) s1)
                 (fun internalId s2 =>
                    (Ok pending,
                     set_folderIdToInternalIdMap
                       (Map_set (f_id folder) internalId
                          (folderIdToInternalIdMap s2))
                       (set_foldersToSync
                          (foldersToSync s2
                           ++ [createFolderWithInternalIds folder parent
                                 internalId]) s2)))
             else (Ok (pending ++ [folder]), s1)
         | None => (Ok (pending ++ [folder]), s1)
         end).
Proof.
  unfold resolve_in_pass. rewrite exec_bind, exec_await.
  destruct (exec (resolveParentId (first_parent folder) driveIds connectionId) s)
    as [[[parent|]|e|] s1]; cbn [and_then]; try reflexivity.
  destruct (truthy_string parent); [|reflexivity].
  rewrite exec_bind, exec_await.
  destruct (exec (getIntenalIdForFolder uuid_of (f_id folder) connectionId) s1)
    as [[internalId|e|] s2]; cbn [and_then]; reflexivity.
Qed.

Section PassLoop.
Variable uuid_of : nat -> string.
Variable driveIds : list string.
Variable connectionId : string.
Variable folders : list Folder.
Variable s0 : State.

Hypothesis uuid_truthy : forall n, truthy_string (uuid_of n) = true.

(** A parent that needs no other folder of the batch: a drive or the root
    marker, or a folder of the store. *)
Definition known (parentId : string) : Prop :=
  is_root driveIds parentId = true \/
  exists id, stored_id parentId connectionId s0 = Some id.

(** The entry [g] of the output stands for the folder [f] of the batch:
    with the stored identifier of [f] if it has one and else one drawn in
    this run; with a parent that is the entry of its remote parent in the
    output, or the stored folder of that remote id, or none. *)
Definition entry_of (drawn : nat) (output : list Folder) (f g : Folder)
  : Prop :=
  (exists parent internalId,
      g = createFolderWithInternalIds f parent internalId) /\
  match stored_id (f_id f) connectionId s0 with
  | Some id => internal_id g = Some id
  | None => exists k, uuids_drawn s0 <= k < drawn /\
                      internal_id g = Some (uuid_of k)
  end /\
  (forall q, internal_parent_folder_id g = Some q ->
     (exists h, In h output /\ f_id h = first_parent f /\
                internal_id h = Some q) \/
     stored_id (first_parent f) connectionId s0 = Some q) /\
  (is_root driveIds (first_parent f) = true ->
   (forall h, In h folders -> f_id h <> first_parent f) ->
   internal_parent_folder_id g = None).

Lemma entry_of_mono drawn drawn' output output' f g :
  drawn <= drawn' -> incl output output' ->
  entry_of drawn output f g -> entry_of drawn' output' f g.
Proof.
  intros Hd Hincl (Ha & Hb & Hc & Hr). split; [exact Ha|]. split; [|split].
  - destruct (stored_id (f_id f) connectionId s0); [exact Hb|].
    destruct Hb as (k & Hk & Hid). exists k. split; [lia|exact Hid].
  - intros q Hq. destruct (Hc q Hq) as [(h & Hin & Hh)|Hs]; [left|right; exact Hs].
    exists h. split; [apply Hincl; exact Hin|exact Hh].
  - exact Hr.
Qed.

(** Between two iterations: [done] are the folders resolved so far, in the
    order of the output, [rest] the ones still to resolve. *)
Record pass_inv (done rest : list Folder) (s : State) : Prop := {
  inv_store : fs_folders s = fs_folders s0;
  inv_requests : requests s = requests s0;
  inv_timers : timers s = timers s0;
  inv_logged : logged s = logged s0;
  inv_drawn : uuids_drawn s0 <= uuids_drawn s;
  inv_cache : forall parentId v,
      Map_get parentId (parentLookupCache s) = Some v ->
      v = stored_id parentId connectionId s0;
  inv_idMap : forall id u,
      Map_get id (folderIdToInternalIdMap s) = Some u ->
      truthy_string u = true /\
      exists h, In h (foldersToSync s) /\ f_id h = id /\ internal_id h = Some u;
  inv_batch : Permutation (done ++ rest) folders;
  inv_output :
    Forall2 (entry_of (uuids_drawn s) (foldersToSync s)) done (foldersToSync s);
  inv_done : forall f, In f done ->
      Map_get (f_id f) (folderIdToInternalIdMap s) <> None
}.

(** The parent of [f] can be resolved in state [s]. *)
Definition ready (s : State) (f : Folder) : Prop :=
  Map_get (first_parent f) (folderIdToInternalIdMap s) <> None \/
  known (first_parent f).

Definition keeps_ids (s s' : State) : Prop :=
  forall id, Map_get id (folderIdToInternalIdMap s) <> None ->
             Map_get id (folderIdToInternalIdMap s') <> None.

Lemma ready_mono s s' f : keeps_ids s s' -> ready s f -> ready s' f.
Proof. intros Hk [H|H]; [left; apply Hk; exact H|right; exact H]. Qed.

Lemma Forall2_entry_id drawn output done out :
  Forall2 (entry_of drawn output) done out ->
  forall h, In h out -> exists f, In f done /\ f_id f = f_id h.
Proof.
  induction 1 as [|f g done out Hfg _ IH]; intros h Hin; [destruct Hin|].
  destruct Hin as [<-|Hin].
  - exists f. split; [left; reflexivity|].
    destruct Hfg as ((p & u & ->) & _). reflexivity.
  - destruct (IH h Hin) as (f' & Hf' & Hid). exists f'. split; [right|]; auto.
Qed.

(** One iteration. *)
Lemma pass_step done pending todo f s :
  pass_inv done (pending ++ f :: todo) s ->
  exists pending' s',
    exec (resolve_in_pass uuid_of driveIds connectionId pending f) s
    = (Ok pending', s') /\
    keeps_ids s s' /\
    ((pending' = pending ++ [f] /\ ~ ready s f /\
      pass_inv done ((pending ++ [f]) ++ todo) s') \/
     (pending' = pending /\ pass_inv (done ++ [f]) (pending ++ todo) s')).
Proof.
  intros Hinv. rewrite exec_resolve_in_pass, exec_resolveParentId.
  set (Z := first_parent f).
  assert (Hperm : Permutation (done ++ (pending ++ [f]) ++ todo) folders).
  { rewrite <- app_assoc. exact (inv_batch _ _ _ Hinv). }
  assert (Hperm' : Permutation ((done ++ [f]) ++ pending ++ todo) folders).
  { rewrite <- (inv_batch _ _ _ Hinv), <- app_assoc.
    apply Permutation_app_head. cbn [app].
    apply Permutation_middle. }
  (* the folder is resolved with the parent [parent], found without
     changing anything but the lookup cache *)
  assert (Hresolve : forall parent s1,
    truthy_string parent = true ->
    fs_folders s1 = fs_folders s -> requests s1 = requests s ->
    timers s1 = timers s -> logged s1 = logged s ->
    uuids_drawn s1 = uuids_drawn s ->
    folderIdToInternalIdMap s1 = folderIdToInternalIdMap s ->
    foldersToSync s1 = foldersToSync s ->
    (forall parentId v,
        Map_get parentId (parentLookupCache s1) = Some v ->
        v = stored_id parentId connectionId s0) ->
    ((exists h, In h (foldersToSync s) /\ f_id h = Z /\
                internal_id h = Some parent) \/
     stored_id Z connectionId s0 = Some parent \/
     (parent = "root" /\
      Map_get Z (folderIdToInternalIdMap s) = None)) ->
    (parent = "root" \/ Map_get Z (folderIdToInternalIdMap s) <> None \/
     is_root driveIds Z = false) ->
    exists pending' s',
      and_then (exec (getIntenalIdForFolder uuid_of (f_id f) connectionId) s1)
        (fun internalId s2 =>
           (Ok pending,
            set_folderIdToInternalIdMap
              (Map_set (f_id f) internalId (folderIdToInternalIdMap s2))
              (set_foldersToSync
                 (foldersToSync s2
                  ++ [createFolderWithInternalIds f parent internalId]) s2)))
      = (Ok pending', s') /\
      keeps_ids s s' /\
      ((pending' = pending ++ [f] /\ ~ ready s f /\
        pass_inv done ((pending ++ [f]) ++ todo) s') \/
       (pending' = pending /\ pass_inv (done ++ [f]) (pending ++ todo) s'))).
  { intros parent s1 Htruthy Hst Hrq Htm Hlg Hdr Hmap Hout Hcache Hparent Hroot.
    rewrite exec_getIntenalIdForFolder.
    rewrite (stored_id_store _ _ s s1 Hst),
            (stored_id_store _ _ s0 s (inv_store _ _ _ Hinv)).
    set (u := match stored_id (f_id f) connectionId s0 with
              | Some id => id
              | None => uuid_of (uuids_drawn s)
              end).
    set (n' := match stored_id (f_id f) connectionId s0 with
               | Some _ => uuids_drawn s
               | None => S (uuids_drawn s)
               end).
    set (g := createFolderWithInternalIds f parent u).
    set (s2 := match stored_id (f_id f) connectionId s0 with
               | Some _ => s1
               | None => set_uuids_drawn (S (uuids_drawn s1)) s1
               end).
    set (s' := set_folderIdToInternalIdMap
                 (Map_set (f_id f) u (folderIdToInternalIdMap s2))
                 (set_foldersToSync (foldersToSync s2 ++ [g]) s2)).
    assert (Hu : truthy_string u = true).
    { subst u. destruct (stored_id (f_id f) connectionId s0) as [id|] eqn:E;
        [exact (stored_id_truthy _ _ _ _ E)|apply uuid_truthy]. }
    assert (Hs2 : fs_folders s2 = fs_folders s /\ requests s2 = requests s /\
                  timers s2 = timers s /\ logged s2 = logged s /\
                  uuids_drawn s2 = n' /\
                  folderIdToInternalIdMap s2 = folderIdToInternalIdMap s /\
                  foldersToSync s2 = foldersToSync s /\
                  parentLookupCache s2 = parentLookupCache s1).
    { subst s2 n'. destruct (stored_id (f_id f) connectionId s0);
        cbn; rewrite ?Hdr; repeat split; assumption. }
    destruct Hs2 as (Hst2 & Hrq2 & Htm2 & Hlg2 & Hdr2 & Hmap2 & Hout2 & Hc2).
    assert (Hn' : uuids_drawn s <= n')
      by (subst n'; destruct (stored_id (f_id f) connectionId s0); lia).
    exists pending, s'. split.
    { subst s' s2 u g. rewrite Hdr.
      destruct (stored_id (f_id f) connectionId s0); reflexivity. }
    assert (Hkeep : keeps_ids s s').
    { intros id Hid. subst s'. cbn. rewrite Hmap2, Map_get_set.
      destruct (decide (id = f_id f)); [discriminate|exact Hid]. }
    split; [exact Hkeep|]. right. split; [reflexivity|].
    assert (Hout' : foldersToSync s' = foldersToSync s ++ [g])
      by (subst s'; cbn; rewrite Hout2; reflexivity).
    assert (Hmap' : folderIdToInternalIdMap s'
                    = Map_set (f_id f) u (folderIdToInternalIdMap s))
      by (subst s'; cbn; rewrite Hmap2; reflexivity).
    constructor.
    - subst s'. cbn. rewrite Hst2. exact (inv_store _ _ _ Hinv).
    - subst s'. cbn. rewrite Hrq2. exact (inv_requests _ _ _ Hinv).
    - subst s'. cbn. rewrite Htm2. exact (inv_timers _ _ _ Hinv).
    - subst s'. cbn. rewrite Hlg2. exact (inv_logged _ _ _ Hinv).
    - subst s'. cbn. rewrite Hdr2. pose proof (inv_drawn _ _ _ Hinv). lia.
    - subst s'. cbn. rewrite Hc2. exact Hcache.
    - intros id v. rewrite Hmap', Hout', Map_get_set.
      destruct (decide (id = f_id f)) as [->|Hne].
      + intros [= <-]. split; [exact Hu|].
        exists g. split; [apply in_or_app; right; left; reflexivity|].
        split; reflexivity.
      + intros Hv. destruct (inv_idMap _ _ _ Hinv id v Hv) as (Ht & h & Hh & Hid).
        split; [exact Ht|]. exists h. split; [|exact Hid].
        apply in_or_app. left. exact Hh.
    - exact Hperm'.
    - rewrite Hout'. apply Forall2_app.
      + eapply Forall2_impl; [exact (inv_output _ _ _ Hinv)|].
        intros f' g' Hfg. eapply entry_of_mono; [| |exact Hfg].
        * subst s'. cbn. lia.
        * apply incl_appl, incl_refl.
      + constructor; [|constructor].
        split; [exists parent, u; reflexivity|]. split; [|split].
        * subst g u n' s'. cbn [internal_id createFolderWithInternalIds].
          destruct (stored_id (f_id f) connectionId s0) as [id|]; [reflexivity|].
          exists (uuids_drawn s). split; [|reflexivity].
          cbn. pose proof (inv_drawn _ _ _ Hinv). lia.
        * intros q. subst g.
          cbn [internal_parent_folder_id createFolderWithInternalIds].
          destruct (String.eqb parent "root") eqn:Er; [discriminate|].
          intros [= <-].
          destruct Hparent as [(h & Hh & Hid & Hint)|[Hs|[-> _]]].
          -- left. exists h. split; [|auto].
             apply in_or_app. left. exact Hh.
          -- right. exact Hs.
          -- rewrite String.eqb_refl in Er. discriminate.
        * intros HrootZ Hfresh. subst g.
          cbn [internal_parent_folder_id createFolderWithInternalIds].
          destruct Hroot as [->|[Hin|Hnr]]; [reflexivity| |].
          -- exfalso.
             destruct (Map_get Z (folderIdToInternalIdMap s)) as [v|] eqn:Ev;
               [|congruence].
             destruct (inv_idMap _ _ _ Hinv Z v Ev) as (_ & h & Hh & Hid & _).
             destruct (Forall2_entry_id _ _ _ _ (inv_output _ _ _ Hinv) h Hh)
               as (f' & Hf' & Hid').
             apply (Hfresh f'); [|unfold Z in Hid; congruence].
             apply (Permutation_in _ (inv_batch _ _ _ Hinv)).
             apply in_or_app. left. exact Hf'.
          -- fold Z in HrootZ. congruence.
    - intros f' Hin. rewrite Hmap', Map_get_set.
      destruct (decide (f_id f' = f_id f)); [discriminate|].
      apply in_app_or in Hin as [Hin|[<-|[]]]; [|congruence].
      exact (inv_done _ _ _ Hinv f' Hin). }
  (* the folder stays pending, nothing but the lookup cache has changed *)
  assert (Hpending : forall s1,
    ~ ready s f ->
    fs_folders s1 = fs_folders s -> requests s1 = requests s ->
    timers s1 = timers s -> logged s1 = logged s ->
    uuids_drawn s1 = uuids_drawn s ->
    folderIdToInternalIdMap s1 = folderIdToInternalIdMap s ->
    foldersToSync s1 = foldersToSync s ->
    (forall parentId v,
        Map_get parentId (parentLookupCache s1) = Some v ->
        v = stored_id parentId connectionId s0) ->
    keeps_ids s s1 /\
    ((pending ++ [f] = pending ++ [f] /\ ~ ready s f /\
      pass_inv done ((pending ++ [f]) ++ todo) s1) \/
     (pending ++ [f] = pending /\ pass_inv (done ++ [f]) (pending ++ todo) s1))).
  { intros s1 Hnr Hst Hrq Htm Hlg Hdr Hmap Hout Hcache.
    split; [intros id; rewrite Hmap; auto|].
    left. split; [reflexivity|]. split; [exact Hnr|].
    constructor.
    - rewrite Hst. exact (inv_store _ _ _ Hinv).
    - rewrite Hrq. exact (inv_requests _ _ _ Hinv).
    - rewrite Htm. exact (inv_timers _ _ _ Hinv).
    - rewrite Hlg. exact (inv_logged _ _ _ Hinv).
    - rewrite Hdr. exact (inv_drawn _ _ _ Hinv).
    - exact Hcache.
    - rewrite Hmap, Hout. exact (inv_idMap _ _ _ Hinv).
    - exact Hperm.
    - rewrite Hdr, Hout. exact (inv_output _ _ _ Hinv).
    - rewrite Hmap. exact (inv_done _ _ _ Hinv). }
  destruct (Map_get Z (folderIdToInternalIdMap s)) as [v|] eqn:Ev;
    cbn [and_then].
  - destruct (inv_idMap _ _ _ Hinv Z v Ev) as (Hv & h & Hh).
    rewrite Hv.
    apply Hresolve; try reflexivity; try exact Hv;
      try exact (inv_cache _ _ _ Hinv).
    + left. exists h. exact Hh.
    + right. left. congruence.
  - destruct (is_root driveIds Z) eqn:Er; cbn [and_then].
    + change (truthy_string "root") with true. cbv iota.
      apply Hresolve; try reflexivity; try exact (inv_cache _ _ _ Hinv);
        auto.
    + destruct (Map_get Z (parentLookupCache s)) as [cached|] eqn:Ec;
        cbn [and_then].
      * pose proof (inv_cache _ _ _ Hinv Z cached Ec) as Hcached.
        destruct cached as [parent|].
        -- pose proof (stored_id_truthy _ _ _ _ (eq_sym Hcached)) as Ht.
           rewrite Ht.
           apply Hresolve; try reflexivity; try exact Ht;
             try exact (inv_cache _ _ _ Hinv); auto.
        -- eexists _, _. split; [reflexivity|].
           apply Hpending; try reflexivity;
             try exact (inv_cache _ _ _ Hinv).
           unfold ready, known. fold Z.
           intros [Hr|[Hr|(id & Hid)]]; congruence.
      * rewrite (stored_id_store _ _ s0 s (inv_store _ _ _ Hinv)).
        assert (Hcache1 : forall parentId v,
                   Map_get parentId
                     (Map_set Z (stored_id Z connectionId s0)
                        (parentLookupCache s)) = Some v ->
                   v = stored_id parentId connectionId s0).
        { intros parentId v. rewrite Map_get_set.
          destruct (decide (parentId = Z)) as [->|Hne]; [congruence|].
          apply (inv_cache _ _ _ Hinv). }
        destruct (stored_id Z connectionId s0) as [parent|] eqn:Es.
        -- pose proof (stored_id_truthy _ _ _ _ Es) as Ht. rewrite Ht.
           apply Hresolve; try reflexivity; try exact Ht;
             try exact Hcache1; auto.
        -- eexists _, _. split; [reflexivity|].
           apply Hpending; try reflexivity; try exact Hcache1.
           unfold ready, known. fold Z.
           intros [Hr|[Hr|(id & Hid)]]; congruence.
Qed.

Lemma keeps_ids_refl s : keeps_ids s s.
Proof. intros id H. exact H. Qed.

Lemma keeps_ids_trans s1 s2 s3 :
  keeps_ids s1 s2 -> keeps_ids s2 s3 -> keeps_ids s1 s3.
Proof. intros H1 H2 id H. auto. Qed.

(** One pass over [todo]: the folders whose parent could not be resolved at
    the start of the pass are all that it leaves pending. *)
Lemma pass_ok start :
  forall todo done pending s,
    pass_inv done (pending ++ todo) s ->
    keeps_ids start s ->
    (forall f, In f pending -> ~ ready start f) ->
    exists new pending' s',
      exec (for_of todo (resolve_in_pass uuid_of driveIds connectionId) pending)
           s
      = (Ok pending', s') /\
      pass_inv (done ++ new) pending' s' /\
      (forall f, In f pending' -> ~ ready start f).
Proof.
  induction todo as [|f todo IH]; intros done pending s Hinv Hkeep Hpending.
  - exists [], pending, s. cbn [for_of]. rewrite exec_ret.
    rewrite !app_nil_r in *. auto.
  - rewrite exec_for_of_cons.
    destruct (pass_step done pending todo f s Hinv)
      as (pending1 & s1 & -> & Hkeep1 & [(-> & Hnr & Hinv1)|(-> & Hinv1)]);
      cbn [and_then].
    + apply (IH done (pending ++ [f]) s1 Hinv1).
      * eapply keeps_ids_trans; eauto.
      * intros f' Hin. apply in_app_or in Hin as [Hin|[<-|[]]]; [auto|].
        intros Hr. apply Hnr. eapply ready_mono; eauto.
    + destruct (IH (done ++ [f]) pending s1 Hinv1) as (new & pending' & s' & He & Hinv' & Hp').
      * eapply keeps_ids_trans; eauto.
      * exact Hpending.
      * exists (f :: new), pending', s'. rewrite <- app_assoc in Hinv'. auto.
Qed.

(** The batch is a hierarchy: every folder hangs from a known parent, or
    from a folder of the batch that is less deep. *)
Variable depth : Folder -> nat.
Hypothesis hierarchy : forall f, In f folders ->
  known (first_parent f) \/
  exists g, In g folders /\ f_id g = first_parent f /\ depth g < depth f.

Lemma least_depth (l : list Folder) :
  l <> [] -> exists f, In f l /\ forall g, In g l -> depth f <= depth g.
Proof.
  induction l as [|f l IH]; [congruence|]. intros _.
  destruct l as [|f' l].
  - exists f. split; [left; reflexivity|]. intros g [<-|[]]. lia.
  - destruct IH as (m & Hm & Hmin); [discriminate|].
    destruct (le_lt_dec (depth f) (depth m)).
    + exists f. split; [left; reflexivity|].
      intros g [<-|Hg]; [lia|]. specialize (Hmin g Hg). lia.
    + exists m. split; [right; exact Hm|].
      intros g [<-|Hg]; [lia|auto].
Qed.

(** A pass over a hierarchy resolves at least one folder. *)
Lemma pass_progress done rest s :
  pass_inv done rest s -> rest <> [] ->
  exists new pending' s',
    exec (for_of rest (resolve_in_pass uuid_of driveIds connectionId) []) s
    = (Ok pending', s') /\
    pass_inv (done ++ new) pending' s' /\
    length pending' < length rest.
Proof.
  intros Hinv Hrest.
  destruct (pass_ok s rest done [] s Hinv (keeps_ids_refl s))
    as (new & pending' & s' & He & Hinv' & Hp'); [intros f []|].
  exists new, pending', s'. split; [exact He|]. split; [exact Hinv'|].
  pose proof (Permutation_length (inv_batch _ _ _ Hinv)) as L1.
  pose proof (Permutation_length (inv_batch _ _ _ Hinv')) as L2.
  rewrite length_app in L1. repeat rewrite length_app in L2.
  destruct new as [|f new]; [|cbn [length] in L2; lia].
  exfalso. rewrite app_nil_r in Hinv'.
  assert (Hsame : Permutation pending' rest).
  { apply (Permutation_app_inv_l done).
    rewrite (inv_batch _ _ _ Hinv'), (inv_batch _ _ _ Hinv). reflexivity. }
  destruct (least_depth rest Hrest) as (m & Hm & Hmin).
  apply (Hp' m); [apply (Permutation_in _ (Permutation_sym Hsame)); exact Hm|].
  assert (Hbatch : In m folders).
  { apply (Permutation_in _ (inv_batch _ _ _ Hinv)), in_or_app. auto. }
  destruct (hierarchy m Hbatch) as [Hk|(g & Hg & Hid & Hlt)];
    [right; exact Hk|].
  left. rewrite <- Hid.
  apply (Permutation_in _ (Permutation_sym (inv_batch _ _ _ Hinv))) in Hg.
  apply in_app_or in Hg as [Hg|Hg]; [exact (inv_done _ _ _ Hinv g Hg)|].
  specialize (Hmin g Hg). lia.
Qed.

(** The loop ends with every folder resolved; the fallback is not
    entered. *)
Lemma passes_ok schedule fuel drive :
  forall passes done rest s,
    pass_inv done rest s -> length rest < passes ->
    exists done' s',
      exec (resolve_passes uuid_of passes schedule fuel connectionId driveIds
              drive rest) s
      = (Ok tt, s') /\
      pass_inv done' [] s'.
Proof.
  induction passes as [|passes IH]; intros done rest s Hinv Hlen; [lia|].
  rewrite resolve_passes_unfold.
  destruct rest as [|f rest].
  - cbn [length Nat.ltb Nat.leb]. rewrite exec_ret. eauto.
  - change (0 <? length (f :: rest)) with true. cbv iota.
    destruct (pass_progress done (f :: rest) s Hinv)
      as (new & pending' & s' & He & Hinv' & Hlt); [discriminate|].
    rewrite exec_bind, He. cbn [and_then].
    unfold isStuckInLoop.
    replace (length pending' =? length (f :: rest)) with false
      by (symmetry; apply Nat.eqb_neq; lia).
    apply (IH _ _ _ Hinv'). lia.
Qed.

End PassLoop.

(** The whole of [processFoldersWithParents] on a hierarchy. *)
Lemma pass_loop_resolves uuid_of driveIds connectionId folders schedule fuel
    drive depth s :
  (forall n, uuid_of n <> "") ->
  (forall f, In f folders ->
     known driveIds connectionId s (first_parent f) \/
     exists g, In g folders /\ f_id g = first_parent f /\ depth g < depth f) ->
  exists order output s',
    exec (processFoldersWithParents uuid_of schedule fuel folders connectionId
            driveIds drive) s
    = (Ok output, s') /\
    Permutation order folders /\
    Forall2 (entry_of uuid_of driveIds connectionId folders s
               (uuids_drawn s') output) order output /\
    fs_folders s' = fs_folders s /\ requests s' = requests s /\
    timers s' = timers s /\ logged s' = logged s.
Proof.
  intros Huuid Hh.
  assert (Htruthy : forall n, truthy_string (uuid_of n) = true).
  { intros n. unfold truthy_string. apply negb_true_iff, String.eqb_neq, Huuid. }
  unfold processFoldersWithParents.
  rewrite exec_bind, exec_modify. cbn [and_then].
  rewrite exec_bind, exec_modify. cbn [and_then].
  rewrite exec_bind, exec_modify. cbn [and_then].
  set (s1 := set_parentLookupCache []
               (set_foldersToSync [] (set_folderIdToInternalIdMap [] s))).
  assert (Hinv : pass_inv uuid_of driveIds connectionId folders s [] folders s1).
  { constructor; try reflexivity; cbn; try discriminate; auto. }
  destruct (passes_ok uuid_of driveIds connectionId folders s Htruthy depth Hh
              schedule fuel drive (S (length folders)) [] folders s1 Hinv)
    as (order & s' & He & Hinv'); [lia|].
  rewrite exec_bind, He. cbn [and_then]. rewrite exec_gets.
  exists order, (foldersToSync s'), s'. split; [reflexivity|].
  pose proof (inv_batch _ _ _ _ _ _ _ _ Hinv') as Hperm.
  rewrite app_nil_r in Hperm.
  split; [exact Hperm|]. split; [exact (inv_output _ _ _ _ _ _ _ _ Hinv')|].
  split; [exact (inv_store _ _ _ _ _ _ _ _ Hinv')|].
  split; [exact (inv_requests _ _ _ _ _ _ _ _ Hinv')|].
  split; [exact (inv_timers _ _ _ _ _ _ _ _ Hinv')|].
  exact (inv_logged _ _ _ _ _ _ _ _ Hinv').
Qed.

Lemma Forall2_in_r {A B} (R : A -> B -> Prop) xs ys :
  Forall2 R xs ys -> forall y, In y ys -> exists x, In x xs /\ R x y.
Proof.
  induction 1 as [|x y xs ys Hxy _ IH]; intros y' Hin; [destruct Hin|].
  destruct Hin as [<-|Hin].
  - exists x. split; [left; reflexivity|exact Hxy].
  - destruct (IH y' Hin) as (x' & Hx' & HR). exists x'. split; [right|]; auto.
Qed.

(** X15.  When the first parent of every folder of the batch is a drive, is
    in the store, or is a folder of the batch nearer to the top, then
    [processFoldersWithParents] resolves every folder, in whatever order
    the batch lists them: the output holds each folder of the batch once,
    with its internal ids, and no request is sent, no timer set, nothing
    logged and nothing stored. *)
Theorem processFoldersWithParents_resolves_a_hierarchy :
  forall (uuid_of : nat -> string) (schedule : list nat) (fuel : nat)
         (folders : list Folder) (connectionId : string)
         (driveIds : list string) (drive : Drive) (s : State)
         (depth : Folder -> nat),
    (forall n, uuid_of n <> "") ->
    (forall f, In f folders ->
       known driveIds connectionId s (first_parent f) \/
       exists g, In g folders /\ f_id g = first_parent f /\
                 depth g < depth f) ->
    exists order output s',
      exec (processFoldersWithParents uuid_of schedule fuel folders
              connectionId driveIds drive) s
      = (Ok output, s') /\
      Permutation order folders /\
      Forall2 (fun f g => exists parent internalId,
                   g = createFolderWithInternalIds f parent internalId)
              order output /\
      requests s' = requests s /\ timers s' = timers s /\
      logged s' = logged s /\ fs_folders s' = fs_folders s.
Proof.
  intros uuid_of schedule fuel folders connectionId driveIds drive s depth
    Huuid Hh.
  destruct (pass_loop_resolves uuid_of driveIds connectionId folders schedule
              fuel drive depth s Huuid Hh)
    as (order & output & s' & He & Hperm & Hout & Hst & Hrq & Htm & Hlg).
  exists order, output, s'. repeat split; try assumption.
  eapply Forall2_impl; [exact Hout|]. intros f g (Ha & _). exact Ha.
Qed.

(** X16.  On a batch that is a hierarchy over drives and stored folders,
    the parent reference of every folder of the output is the internal id
    of the output folder that is its first parent, or the id under which
    the store holds that parent; and a folder that lies directly under a
    drive has no parent reference. *)
Theorem pass_loop_leaves_no_dangling_parent :
  forall (uuid_of : nat -> string) (schedule : list nat) (fuel : nat)
         (folders : list Folder) (connectionId : string)
         (driveIds : list string) (drive : Drive) (s : State)
         (depth : Folder -> nat),
    (forall n, uuid_of n <> "") ->
    (forall f, In f folders ->
       known driveIds connectionId s (first_parent f) \/
       exists g, In g folders /\ f_id g = first_parent f /\
                 depth g < depth f) ->
    exists output s',
      exec (processFoldersWithParents uuid_of schedule fuel folders
              connectionId driveIds drive) s
      = (Ok output, s') /\
      forall g, In g output ->
        (forall q, internal_parent_folder_id g = Some q ->
           (exists h, In h output /\ f_id h = first_parent g /\
                      internal_id h = Some q) \/
           stored_id (first_parent g) connectionId s = Some q) /\
        (is_root driveIds (first_parent g) = true ->
         (forall h, In h folders -> f_id h <> first_parent g) ->
         internal_parent_folder_id g = None).
Proof.
  intros uuid_of schedule fuel folders connectionId driveIds drive s depth
    Huuid Hh.
  destruct (pass_loop_resolves uuid_of driveIds connectionId folders schedule
              fuel drive depth s Huuid Hh)
    as (order & output & s' & He & Hperm & Hout & _).
  exists output, s'. split; [exact He|].
  intros g Hg.
  destruct (Forall2_in_r _ _ _ Hout g Hg)
    as (f & _ & (p & u & ->) & _ & Hparent & Hroot).
  split; assumption.
Qed.

(** X17.  On a batch that is a hierarchy over drives and stored folders, a
    folder that the store already holds keeps the identifier it has there,
    and every other folder gets an identifier drawn during the run. *)
Theorem pass_loop_keeps_stored_identifiers :
  forall (uuid_of : nat -> string) (schedule : list nat) (fuel : nat)
         (folders : list Folder) (connectionId : string)
         (driveIds : list string) (drive : Drive) (s : State)
         (depth : Folder -> nat),
    (forall n, uuid_of n <> "") ->
    (forall f, In f folders ->
       known driveIds connectionId s (first_parent f) \/
       exists g, In g folders /\ f_id g = first_parent f /\
                 depth g < depth f) ->
    exists output s',
      exec (processFoldersWithParents uuid_of schedule fuel folders
              connectionId driveIds drive) s
      = (Ok output, s') /\
      forall g, In g output ->
        match stored_id (f_id g) connectionId s with
        | Some id => internal_id g = Some id
        | None => exists k, uuids_drawn s <= k < uuids_drawn s' /\
                            internal_id g = Some (uuid_of k)
        end.
Proof.
  intros uuid_of schedule fuel folders connectionId driveIds drive s depth
    Huuid Hh.
  destruct (pass_loop_resolves uuid_of driveIds connectionId folders schedule
              fuel drive depth s Huuid Hh)
    as (order & output & s' & He & Hperm & Hout & _).
  exists output, s'. split; [exact He|].
  intros g Hg.
  destruct (Forall2_in_r _ _ _ Hout g Hg)
    as (f & _ & (p & u & ->) & Hid & _).
  exact Hid.
Qed.

(** A batch that lists the child before its parent; the parent "P" lies
    under the drive and is already in the store. *)
Definition child_before_parent : list Folder :=
  [folder_of "child" (Some ["P"]); folder_of "P" (Some ["drive-0"])].

Definition with_P_persisted : State :=
  {| connections := [];
     fs_folders := [ {| id_fs_folder := "id-of-P"; remote_id := "P";
                        folder_id_connection := "c";
                        remote_modified_at := Some 1%Z |} ];
     fs_permissions := [];
     uuids_drawn := 0; requests := 0; timers := []; logged := [];
     folderIdToInternalIdMap := []; parentLookupCache := [];
     foldersToSync := []; googleDriveFolders := [] |}.

Definition depth_of_child (f : Folder) : nat :=
  if String.eqb (f_id f) "child" then 1 else 0.

Lemma uuid_nth_not_empty n : uuid_nth n <> "".
Proof. unfold uuid_nth. discriminate. Qed.

Lemma child_before_parent_hierarchy s :
  forall f, In f child_before_parent ->
    known ["drive-0"] "c" s (first_parent f) \/
    exists g, In g child_before_parent /\ f_id g = first_parent f /\
              depth_of_child g < depth_of_child f.
Proof.
  intros f [<-|[<-|[]]].
  - right. exists (folder_of "P" (Some ["drive-0"])).
    split; [right; left; reflexivity|]. split; [reflexivity|].
    cbn. lia.
  - left. left. reflexivity.
Qed.

Lemma processFoldersWithParents_resolves_a_hierarchy_witness :
  exists order output s',
    exec (processFoldersWithParents uuid_nth [] 0 child_before_parent "c"
            ["drive-0"] drive_p_under_root) idle
    = (Ok output, s') /\
    Permutation order child_before_parent /\
    Forall2 (fun f g => exists parent internalId,
                 g = createFolderWithInternalIds f parent internalId)
            order output /\
    requests s' = requests idle /\ timers s' = timers idle /\
    logged s' = logged idle /\ fs_folders s' = fs_folders idle.
Proof.
  apply (processFoldersWithParents_resolves_a_hierarchy uuid_nth [] 0
           child_before_parent "c" ["drive-0"] drive_p_under_root idle
           depth_of_child uuid_nth_not_empty
           (child_before_parent_hierarchy idle)).
Defined.

Lemma pass_loop_leaves_no_dangling_parent_witness :
  exists output s',
    exec (processFoldersWithParents uuid_nth [] 0 child_before_parent "c"
            ["drive-0"] drive_p_under_root) idle
    = (Ok output, s') /\
    forall g, In g output ->
      (forall q, internal_parent_folder_id g = Some q ->
         (exists h, In h output /\ f_id h = first_parent g /\
                    internal_id h = Some q) \/
         stored_id (first_parent g) "c" idle = Some q) /\
      (is_root ["drive-0"] (first_parent g) = true ->
       (forall h, In h child_before_parent -> f_id h <> first_parent g) ->
       internal_parent_folder_id g = None).
Proof.
  apply (pass_loop_leaves_no_dangling_parent uuid_nth [] 0
           child_before_parent "c" ["drive-0"] drive_p_under_root idle
           depth_of_child uuid_nth_not_empty
           (child_before_parent_hierarchy idle)).
Defined.

Lemma pass_loop_keeps_stored_identifiers_witness :
  exists output s',
    exec (processFoldersWithParents uuid_nth [] 0 child_before_parent "c"
            ["drive-0"] drive_p_under_root) with_P_persisted
    = (Ok output, s') /\
    forall g, In g output ->
      match stored_id (f_id g) "c" with_P_persisted with
      | Some id => internal_id g = Some id
      | None => exists k, uuids_drawn with_P_persisted <= k < uuids_drawn s' /\
                          internal_id g = Some (uuid_nth k)
      end.
Proof.
  apply (pass_loop_keeps_stored_identifiers uuid_nth [] 0
           child_before_parent "c" ["drive-0"] drive_p_under_root
           with_P_persisted depth_of_child uuid_nth_not_empty
           (child_before_parent_hierarchy with_P_persisted)).
Defined.

Example child_before_parent_run :
  map (fun g => (f_id g, internal_id g, internal_parent_folder_id g))
    (output_of
       (exec (processFoldersWithParents uuid_nth [] 0 child_before_parent "c"
                ["drive-0"] drive_p_under_root) with_P_persisted))
  = [("child", Some "uuid-0", Some "id-of-P"); ("P", Some "id-of-P", None)].
Proof. vm_compute. reflexivity. Qed.

(** * Tasks that share the state: what every step preserves

    [Step] relates the state before and after any step of any task of a
    run.  [rsafe Q t s0]: the task [t], left on state [s0] and resumed
    after any number of steps of other tasks, takes steps only, and settles
    with an outcome and on a state that satisfy [Q]. *)

Section Steps.
Variable Step : State -> State -> Prop.
Hypothesis Step_refl : forall s, Step s s.
Hypothesis Step_trans : forall s1 s2 s3, Step s1 s2 -> Step s2 s3 -> Step s1 s3.

Fixpoint rsafe {A} (Q : Outcome A -> State -> Prop) (t : Task A)
    (s0 : State) {struct t} : Prop :=
  match t with
  | Settled r => Q r s0
  | Await next eff =>
      forall s, Step s0 s -> Step s (eff s) /\ rsafe Q (next s) (eff s)
  end.

Definition rcall {A} (P : State -> Prop) (Q : Outcome A -> State -> Prop)
    (c : Async A) : Prop :=
  forall s, P s -> Step s (snd (c s)) /\ rsafe Q (fst (c s)) (snd (c s)).

(** A fact that no step invalidates. *)
Definition stable (P : State -> Prop) : Prop :=
  forall s s', P s -> Step s s' -> P s'.

Definition stable_post {A} (Q : Outcome A -> State -> Prop) : Prop :=
  forall r, stable (Q r).

Lemma rsafe_mono {A} (Q Q' : Outcome A -> State -> Prop) (t : Task A) :
  (forall r s, Q r s -> Q' r s) ->
  forall s0, rsafe Q t s0 -> rsafe Q' t s0.
Proof.
  intros HQ. induction t as [r|next IH eff]; intros s0 H; cbn in *; [auto|].
  intros s Hs. destruct (H s Hs) as [Hg Hw]. split; [exact Hg|]. auto.
Qed.

Lemma rsafe_later {A} (Q : Outcome A -> State -> Prop) (t : Task A) :
  stable_post Q ->
  forall s0 s1, rsafe Q t s0 -> Step s0 s1 -> rsafe Q t s1.
Proof.
  intros HQ. destruct t as [r|next eff]; intros s0 s1 H Hs; cbn in *.
  - eapply HQ; eauto.
  - intros s Hs'. apply H. eapply Step_trans; eauto.
Qed.

Lemma rcall_weaken {A} (P P' : State -> Prop)
    (Q Q' : Outcome A -> State -> Prop) (c : Async A) :
  rcall P Q c -> (forall s, P' s -> P s) -> (forall r s, Q r s -> Q' r s) ->
  rcall P' Q' c.
Proof.
  intros H HP HQ s Hp. destruct (H s (HP s Hp)) as [Hg Hw].
  split; [exact Hg|]. eapply rsafe_mono; eauto.
Qed.

Lemma rcall_ret {A} (P : State -> Prop) (Q : Outcome A -> State -> Prop) a :
  (forall s, P s -> Q (Ok a) s) -> rcall P Q (ret a).
Proof. intros HQ s Hp. split; [apply Step_refl|apply HQ; exact Hp]. Qed.

Lemma rcall_throw {A} (P : State -> Prop) (Q : Outcome A -> State -> Prop) e :
  (forall s, P s -> Q (Throw e) s) -> rcall P Q (throw e).
Proof. intros HQ s Hp. split; [apply Step_refl|apply HQ; exact Hp]. Qed.

Lemma rcall_out_of_fuel {A} (P : State -> Prop)
    (Q : Outcome A -> State -> Prop) :
  (forall s, P s -> Q Fuel s) -> rcall P Q out_of_fuel.
Proof. intros HQ s Hp. split; [apply Step_refl|apply HQ; exact Hp]. Qed.

(** A call that does not wait. *)
Lemma rcall_sync {A} (P : State -> Prop) (Q : Outcome A -> State -> Prop)
    (c : Async A) :
  (forall s, P s -> exists r s', c s = (Settled r, s') /\ Step s s' /\ Q r s') ->
  rcall P Q c.
Proof.
  intros H s Hp. destruct (H s Hp) as (r & s' & -> & Hg & HQ).
  split; assumption.
Qed.

Lemma then_rsafe {A B} (Q1 : Outcome A -> State -> Prop)
    (Q2 : Outcome B -> State -> Prop) (k : A -> Async B) :
  (forall a, rcall (Q1 (Ok a)) Q2 (k a)) ->
  (forall e s, Q1 (Throw e) s -> Q2 (Throw e) s) ->
  (forall s, Q1 Fuel s -> Q2 Fuel s) ->
  forall (t : Task A) s,
    rsafe Q1 t s ->
    Step s (snd (then_ t k s)) /\ rsafe Q2 (fst (then_ t k s)) (snd (then_ t k s)).
Proof.
  intros Hk He Hf.
  induction t as [[a|e|]|next IH eff]; intros s Hw; cbn in Hw |- *.
  - exact (Hk a s Hw).
  - split; [apply Step_refl|auto].
  - split; [apply Step_refl|auto].
  - split; [apply Step_refl|].
    intros s' Hs'. destruct (Hw s' Hs') as [Hg Hw'].
    destruct (IH s' (eff s') Hw') as [Hg' Hw''].
    split; [eapply Step_trans; eauto|exact Hw''].
Qed.

Lemma rcall_bind {A B} (P : State -> Prop) (Q1 : Outcome A -> State -> Prop)
    (Q2 : Outcome B -> State -> Prop) (c : Async A) (k : A -> Async B) :
  rcall P Q1 c ->
  (forall a, rcall (Q1 (Ok a)) Q2 (k a)) ->
  (forall e s, Q1 (Throw e) s -> Q2 (Throw e) s) ->
  (forall s, Q1 Fuel s -> Q2 Fuel s) ->
  rcall P Q2 (bind c k).
Proof.
  intros Hc Hk He Hf s Hp. unfold bind.
  destruct (Hc s Hp) as [Hg Hw]. destruct (c s) as [t s1]. cbn in Hg, Hw.
  destruct (then_rsafe Q1 Q2 k Hk He Hf t s1 Hw) as [Hg' Hw'].
  split; [eapply Step_trans; eauto|exact Hw'].
Qed.

Lemma tick_rsafe {A} (Q : Outcome A -> State -> Prop) (t : Task A) :
  stable_post Q -> forall s, rsafe Q t s -> rsafe Q (tick t) s.
Proof.
  intros HQ. induction t as [r|next IH eff]; intros s0 Hw; cbn in Hw |- *.
  - intros s Hs. split; [apply Step_refl|]. eapply HQ; eauto.
  - intros s Hs. destruct (Hw s Hs) as [Hg Hw']. split; [exact Hg|].
    apply IH. exact Hw'.
Qed.

Lemma rcall_await {A} (P : State -> Prop) (Q : Outcome A -> State -> Prop)
    (c : Async A) :
  stable_post Q -> rcall P Q c -> rcall P Q (await c).
Proof.
  intros HQ Hc s Hp. unfold await.
  destruct (Hc s Hp) as [Hg Hw]. destruct (c s) as [t s1].
  split; [exact Hg|]. apply tick_rsafe; assumption.
Qed.

Lemma catch_rsafe {A} (Q1 Q2 : Outcome A -> State -> Prop)
    (h : jsval -> Async A) :
  (forall e, rcall (Q1 (Throw e)) Q2 (h e)) ->
  (forall a s, Q1 (Ok a) s -> Q2 (Ok a) s) ->
  (forall s, Q1 Fuel s -> Q2 Fuel s) ->
  forall (t : Task A) s,
    rsafe Q1 t s ->
    Step s (snd (catch_ t h s)) /\
    rsafe Q2 (fst (catch_ t h s)) (snd (catch_ t h s)).
Proof.
  intros Hh Ha Hf.
  induction t as [[a|e|]|next IH eff]; intros s Hw; cbn in Hw |- *.
  - split; [apply Step_refl|auto].
  - exact (Hh e s Hw).
  - split; [apply Step_refl|auto].
  - split; [apply Step_refl|].
    intros s' Hs'. destruct (Hw s' Hs') as [Hg Hw'].
    destruct (IH s' (eff s') Hw') as [Hg' Hw''].
    split; [eapply Step_trans; eauto|exact Hw''].
Qed.

Lemma rcall_try_catch {A} (P : State -> Prop)
    (Q1 Q2 : Outcome A -> State -> Prop) (c : Async A) (h : jsval -> Async A) :
  rcall P Q1 c ->
  (forall e, rcall (Q1 (Throw e)) Q2 (h e)) ->
  (forall a s, Q1 (Ok a) s -> Q2 (Ok a) s) ->
  (forall s, Q1 Fuel s -> Q2 Fuel s) ->
  rcall P Q2 (try_catch c h).
Proof.
  intros Hc Hh Ha Hf s Hp. unfold try_catch.
  destruct (Hc s Hp) as [Hg Hw]. destruct (c s) as [t s1]. cbn in Hg, Hw.
  destruct (catch_rsafe Q1 Q2 h Hh Ha Hf t s1 Hw) as [Hg' Hw'].
  split; [eapply Step_trans; eauto|exact Hw'].
Qed.

(** Running a task alone is one of the ways in which it can be resumed. *)
Lemma rsafe_run {A} (Q : Outcome A -> State -> Prop) (t : Task A) :
  forall s, rsafe Q t s ->
            Step s (snd (run t s)) /\ Q (fst (run t s)) (snd (run t s)).
Proof.
  induction t as [r|next IH eff]; intros s Hw; cbn in Hw |- *.
  - split; [apply Step_refl|exact Hw].
  - destruct (Hw s (Step_refl s)) as [Hg Hw'].
    destruct (IH s (eff s) Hw') as [Hg' HQ].
    split; [eapply Step_trans; eauto|exact HQ].
Qed.

Lemma rcall_exec {A} (P : State -> Prop) (Q : Outcome A -> State -> Prop)
    (c : Async A) s :
  rcall P Q c -> P s ->
  Step s (snd (exec c s)) /\ Q (fst (exec c s)) (snd (exec c s)).
Proof.
  intros Hc Hp. unfold exec. destruct (Hc s Hp) as [Hg Hw].
  destruct (c s) as [t s1]. cbn in Hg, Hw.
  destruct (rsafe_run Q t s1 Hw) as [Hg' HQ].
  split; [eapply Step_trans; eauto|exact HQ].
Qed.

(** Loops. *)
Lemma rcall_for_of {X A} (I : A -> State -> Prop) (Q : Outcome A -> State -> Prop)
    (body : A -> X -> Async A) (xs : list X) :
  (forall a x, In x xs ->
     rcall (I a) (fun r s => match r with
                             | Ok a' => I a' s
                             | _ => Q r s
                             end) (body a x)) ->
  (forall a s, I a s -> Q (Ok a) s) ->
  forall a, rcall (I a) Q (for_of xs body a).
Proof.
  intros Hbody Hend. induction xs as [|x xs IH]; intros a; cbn [for_of].
  - apply rcall_ret. apply Hend.
  - eapply rcall_bind.
    + apply Hbody. left. reflexivity.
    + intros a'. cbn. apply IH. intros a0 x0 Hin. apply Hbody. right. exact Hin.
    + cbn. auto.
    + cbn. auto.
Qed.

(** [Promise.all]. *)

Definition all_post {A} (Q : Outcome A -> State -> Prop)
    (r : Outcome (list A)) (s : State) : Prop :=
  match r with
  | Ok l => Forall (fun a => Q (Ok a) s) l
  | Throw e => Q (Throw e) s
  | Fuel => True
  end.

Lemma gather_rsafe {A} (Q : Outcome A -> State -> Prop) (ts : list (Task A)) s :
  Forall (fun t => rsafe Q t s) ts ->
  forall r, gather ts = Some r -> all_post Q r s.
Proof.
  induction 1 as [|t ts Ht _ IH]; intros r; cbn [gather].
  - intros [= <-]. constructor.
  - destruct t as [[a|e|]|next eff].
    + destruct (gather ts) as [[l|e|]|]; intros [= <-]; cbn.
      * constructor; [exact Ht|]. exact (IH _ eq_refl).
      * exact (IH _ eq_refl).
      * exact I.
    + intros [= <-]. exact Ht.
    + intros [= <-]. exact I.
    + destruct (gather ts) as [[l|e|]|]; intros [= <-]; cbn.
      * exact (IH _ eq_refl).
      * exact I.
Qed.

Lemma resume_nth_rsafe {A} (Q : Outcome A -> State -> Prop) :
  stable_post Q ->
  forall i (ts : list (Task A)) s0 s,
    Forall (fun t => rsafe Q t s0) ts -> Step s0 s ->
    Step s (snd (resume_nth i ts s)) /\
    Forall (fun t => rsafe Q t (snd (resume_nth i ts s)))
           (fst (resume_nth i ts s)).
Proof.
  intros HQ i ts. revert i.
  induction ts as [|t ts IH]; intros i s0 s Hall Hs.
  - destruct i; cbn; split; auto.
  - apply Forall_cons_iff in Hall as [Ht Hts].
    assert (Hlater : forall s', Step s s' ->
               Forall (fun t => rsafe Q t s') ts).
    { intros s' Hs'. eapply Forall_impl; [exact Hts|].
      intros t' Ht'.
      eapply rsafe_later; [exact HQ|exact Ht'|eapply Step_trans; eauto]. }
    destruct i as [|i].
    + destruct t as [r|next eff]; cbn [resume_nth fst snd].
      * split; [apply Step_refl|]. constructor; [|auto].
        eapply (rsafe_later Q (Settled r)); eauto.
      * destruct (Ht s Hs) as [Hg Hw]. split; [exact Hg|].
        constructor; [exact Hw|auto].
    + cbn [resume_nth]. destruct (IH i s0 s Hts Hs) as [Hg Hall'].
      destruct (resume_nth i ts s) as [ts' s']. cbn [fst snd] in *.
      destruct t as [r|next eff]; (split; [exact Hg|]);
        (constructor; [|exact Hall']).
      * eapply (rsafe_later Q (Settled r)); eauto.
      * eapply (rsafe_later Q (Await next eff)); eauto.
Qed.

Lemma all_task_rsafe {A} (Q : Outcome A -> State -> Prop) :
  stable_post Q ->
  forall schedule (ts : list (Task A)) s0,
    Forall (fun t => rsafe Q t s0) ts ->
    rsafe (all_post Q) (all_task schedule ts) s0.
Proof.
  intros HQ. induction schedule as [|i schedule IH]; intros ts s0 Hall;
    cbn [all_task];
    pose proof (gather_rsafe Q ts s0 Hall) as Hg;
    destruct (gather ts) as [r|]; cbn; try (apply Hg; reflexivity); [exact I|].
  intros s Hs. destruct (resume_nth_rsafe Q HQ i ts s0 s Hall Hs) as [Hstep Hall'].
  split; [exact Hstep|]. apply IH. exact Hall'.
Qed.

Lemma all_post_stable {A} (Q : Outcome A -> State -> Prop) :
  stable_post Q -> stable_post (all_post Q).
Proof.
  intros HQ [l|e|] s s' H Hs; cbn in *;
    [|exact (HQ _ _ _ H Hs)|exact I].
  eapply Forall_impl; [exact H|]. intros a Ha. exact (HQ _ _ _ Ha Hs).
Qed.

Lemma start_all_rsafe {A} (Q : Outcome A -> State -> Prop) :
  stable_post Q ->
  forall (cs : list (Async A)) s,
    Forall (fun c => exists P : State -> Prop,
                       stable P /\ P s /\ rcall P Q c) cs ->
    Step s (snd (start_all cs s)) /\
    Forall (fun t => rsafe Q t (snd (start_all cs s))) (fst (start_all cs s)).
Proof.
  intros HQ. induction cs as [|c cs IH]; intros s Hall; cbn [start_all].
  - split; [apply Step_refl|constructor].
  - apply Forall_cons_iff in Hall as [(P & HP & Hp & Hc) Hcs].
    destruct (Hc s Hp) as [Hg Hw]. destruct (c s) as [t s1].
    cbn [fst snd] in Hg, Hw.
    destruct (IH s1) as [Hg' Hall'].
    { eapply Forall_impl; [exact Hcs|].
      intros c' (P' & HP' & Hp' & Hc'). exists P'. split; [exact HP'|].
      split; [eapply HP'; eauto|exact Hc']. }
    destruct (start_all cs s1) as [ts s2]. cbn [fst snd] in *.
    split; [eapply Step_trans; eauto|].
    constructor; [|exact Hall'].
    eapply rsafe_later; eauto.
Qed.

Lemma rcall_Promise_all {A} (P : State -> Prop)
    (Q : Outcome A -> State -> Prop) schedule (cs : list (Async A)) :
  stable_post Q ->
  (forall s, P s ->
     Forall (fun c => exists P' : State -> Prop,
                        stable P' /\ P' s /\ rcall P' Q c) cs) ->
  rcall P (all_post Q) (Promise_all schedule cs).
Proof.
  intros HQ Hcs s Hp. unfold Promise_all.
  destruct (start_all_rsafe Q HQ cs s (Hcs s Hp)) as [Hg Hall].
  destruct (start_all cs s) as [ts s1]. cbn [fst snd] in *.
  split; [exact Hg|]. apply all_task_rsafe; assumption.
Qed.

(** The primitives that wait. *)

Hypothesis Step_requests : forall s n, Step s (set_requests n s).
Hypothesis Step_timers : forall s t, Step s (set_timers t s).
Hypothesis Step_logged :
  forall s l m, Step s (set_logged ((l, m) :: logged s) s).

Lemma rcall_request {A} (P : State -> Prop) (Q : Outcome A -> State -> Prop)
    (reply : nat -> Reply A) :
  stable P ->
  (forall n s, P s -> Q match reply n with
                        | Resolved a => Ok a
                        | Rejected e => Throw e
                        end s) ->
  rcall P Q (request reply).
Proof.
  intros HP HQ s Hp. cbn. split; [apply Step_requests|].
  intros s' Hs'. split; [apply Step_refl|]. apply HQ.
  eapply HP; [|exact Hs']. eapply HP; [exact Hp|apply Step_requests].
Qed.

Lemma rcall_query {A} (P : State -> Prop) (Q : Outcome A -> State -> Prop)
    (read : State -> A) :
  stable P ->
  (forall s s', P s -> P s' -> Step s s' -> Q (Ok (read s)) s') ->
  rcall P Q (query read).
Proof.
  intros HP HQ s Hp. cbn. split; [apply Step_refl|].
  intros s' Hs'. split; [apply Step_refl|]. apply HQ; auto.
  eapply HP; eauto.
Qed.

Lemma rcall_delay (P : State -> Prop) (Q : Outcome unit -> State -> Prop) ms :
  stable P -> (forall s, P s -> Q (Ok tt) s) -> rcall P Q (delay ms).
Proof.
  intros HP HQ s Hp. cbn. split; [apply Step_timers|].
  intros s' Hs'. split; [apply Step_refl|]. apply HQ.
  eapply HP; [|exact Hs']. eapply HP; [exact Hp|apply Step_timers].
Qed.

Lemma rcall_logger (P : State -> Prop) (Q : Outcome unit -> State -> Prop) l m :
  stable P -> (forall s, P s -> Q (Ok tt) s) -> rcall P Q (logger l m).
Proof.
  intros HP HQ s Hp. cbn. split; [apply Step_logged|].
  apply HQ. eapply HP; [exact Hp|apply Step_logged].
Qed.

(** [executeWithRetry]: it settles as the operation does, or throws. *)
Lemma rcall_executeWithRetry_from {T} (P : State -> Prop)
    (Q : Outcome T -> State -> Prop) (operation : Async T) :
  stable P -> stable_post Q ->
  rcall P Q operation ->
  (forall r s, Q r s -> P s) ->
  (forall e s, P s -> Q (Throw e) s) ->
  (forall s, P s -> Q Fuel s) ->
  forall budget retryCount,
    rcall P Q (executeWithRetry_from budget operation retryCount).
Proof.
  intros HP HQ Hop HQP Hthrow Hfuel.
  induction budget as [|budget IH]; intros retryCount;
    cbn [executeWithRetry_from].
  - apply rcall_out_of_fuel. exact Hfuel.
  - eapply rcall_try_catch with (Q1 := Q).
    + eapply rcall_bind with (Q1 := fun r s => r = Ok tt /\ P s).
      * apply rcall_await.
        -- intros r s s' [Hr Hp] Hs. split; [exact Hr|eapply HP; eauto].
        -- apply rcall_delay; auto.
      * intros []. apply rcall_await; [exact HQ|].
        eapply rcall_weaken; [exact Hop| |auto]. intros s [_ Hp]. exact Hp.
      * intros e s [[=] _].
      * intros s [[=] _].
    + intros e.
      destruct (isRateLimitError e); cbn [negb].
      * destruct (MAX_API_RETRIES <=? retryCount).
        -- apply rcall_throw. intros s Hq. apply Hthrow. eapply HQP; eauto.
        -- eapply rcall_bind with (Q1 := fun r s => r = Ok tt /\ P s).
           ++ apply rcall_await.
              ** intros r s s' [Hr Hp] Hs. split; [exact Hr|eapply HP; eauto].
              ** apply rcall_delay.
                 --- intros s s' Hq Hs. eapply HQ; eauto.
                 --- intros s Hq. split; [reflexivity|eapply HQP; eauto].
           ++ intros []. eapply rcall_weaken; [apply IH| |auto].
              intros s [_ Hp]. exact Hp.
           ++ intros e' s [[=] _].
           ++ intros s [[=] _].
      * apply rcall_throw. intros s Hq. apply Hthrow. eapply HQP; eauto.
    + auto.
    + auto.
Qed.

(** Calls that keep what is known: whatever they return, a stable fact
    that held when they were made holds when they settle. *)
Definition keeps {A} (P : State -> Prop) (c : Async A) : Prop :=
  rcall P (fun _ s => P s) c.

Lemma keeps_ret {A} (P : State -> Prop) (a : A) : keeps P (ret a).
Proof. apply rcall_ret. auto. Qed.

Lemma keeps_throw {A} (P : State -> Prop) e : keeps P (@throw A e).
Proof. apply rcall_throw. auto. Qed.

Lemma keeps_out_of_fuel {A} (P : State -> Prop) : keeps P (@out_of_fuel A).
Proof. apply rcall_out_of_fuel. auto. Qed.

Lemma keeps_bind {A B} (P : State -> Prop) (c : Async A) (k : A -> Async B) :
  keeps P c -> (forall a, keeps P (k a)) -> keeps P (bind c k).
Proof.
  intros Hc Hk. eapply rcall_bind; [exact Hc|exact Hk|auto|auto].
Qed.

Lemma keeps_await {A} (P : State -> Prop) (c : Async A) :
  stable P -> keeps P c -> keeps P (await c).
Proof. intros HP Hc. apply rcall_await; [|exact Hc]. intros r. exact HP. Qed.

Lemma keeps_try_catch {A} (P : State -> Prop) (c : Async A)
    (h : jsval -> Async A) :
  keeps P c -> (forall e, keeps P (h e)) -> keeps P (try_catch c h).
Proof.
  intros Hc Hh. eapply rcall_try_catch; [exact Hc|exact Hh|auto|auto].
Qed.

Lemma keeps_request {A} (P : State -> Prop) (reply : nat -> Reply A) :
  stable P -> keeps P (request reply).
Proof. intros HP. apply rcall_request; auto. Qed.

Lemma keeps_delay (P : State -> Prop) ms : stable P -> keeps P (delay ms).
Proof. intros HP. apply rcall_delay; auto. Qed.

Lemma keeps_logger (P : State -> Prop) l m : stable P -> keeps P (logger l m).
Proof. intros HP. apply rcall_logger; auto. Qed.

Lemma keeps_executeWithRetry_from {T} (P : State -> Prop)
    (operation : Async T) :
  stable P -> keeps P operation ->
  forall budget retryCount,
    keeps P (executeWithRetry_from budget operation retryCount).
Proof.
  intros HP Hop. induction budget as [|budget IH]; intros retryCount;
    cbn [executeWithRetry_from].
  - apply keeps_out_of_fuel.
  - apply keeps_try_catch.
    + apply keeps_bind.
      * apply keeps_await, keeps_delay; exact HP.
      * intros []. apply keeps_await; assumption.
    + intros e. destruct (negb (isRateLimitError e)); [apply keeps_throw|].
      destruct (MAX_API_RETRIES <=? retryCount); [apply keeps_throw|].
      apply keeps_bind.
      * apply keeps_await, keeps_delay; exact HP.
      * intros []. apply IH.
Qed.

End Steps.

(** ** A parent that is a drive or the root *)

Section RootParent.
Variable uuid_of : nat -> string.
Variable driveIds : list string.
Variable connectionId : string.
Variable folders : list Folder.

(** The first parent of [g] is a drive or the root, and no folder of the
    batch has the id of that parent. *)
Definition under_root (g : Folder) : Prop :=
  is_root driveIds (first_parent g) = true /\
  forall h, In h folders -> f_id h <> first_parent g.

(** The keys of the id map are ids of folders of the batch, and every
    folder resolved so far that lies under a root has no parent. *)
Definition roots_are_null (s : State) : Prop :=
  (forall k v, Map_get k (folderIdToInternalIdMap s) = Some v ->
               exists h, In h folders /\ f_id h = k) /\
  (forall g, In g (foldersToSync s) -> under_root g ->
             internal_parent_folder_id g = None).

(** A step of the resolution: folders are added to the output, and what
    [roots_are_null] says stays true. *)
Definition resolution_step (s s' : State) : Prop :=
  (exists l, foldersToSync s' = foldersToSync s ++ l) /\
  (roots_are_null s -> roots_are_null s').

Lemma resolution_step_refl s : resolution_step s s.
Proof. split; [exists []; rewrite app_nil_r; reflexivity|auto]. Qed.

Lemma resolution_step_trans s1 s2 s3 :
  resolution_step s1 s2 -> resolution_step s2 s3 -> resolution_step s1 s3.
Proof.
  intros [[l1 H1] G1] [[l2 H2] G2]. split; [|auto].
  exists (l1 ++ l2). rewrite H2, H1, app_assoc. reflexivity.
Qed.

(** A change of the state that touches neither the output nor the id map. *)
Lemma resolution_step_frame s s' :
  foldersToSync s' = foldersToSync s ->
  folderIdToInternalIdMap s' = folderIdToInternalIdMap s ->
  resolution_step s s'.
Proof.
  intros Hout Hids. split.
  - exists []. rewrite app_nil_r. exact Hout.
  - intros [Hkeys Hnull]. split.
    + intros k v. rewrite Hids. apply Hkeys.
    + intros g. rewrite Hout. apply Hnull.
Qed.

Lemma resolution_step_requests s n : resolution_step s (set_requests n s).
Proof. apply resolution_step_frame; reflexivity. Qed.

Lemma resolution_step_timers s t : resolution_step s (set_timers t s).
Proof. apply resolution_step_frame; reflexivity. Qed.

Lemma resolution_step_logged s l m :
  resolution_step s (set_logged ((l, m) :: logged s) s).
Proof. apply resolution_step_frame; reflexivity. Qed.

(** The id of a folder of the batch is recorded. *)
Lemma resolution_step_id s h id :
  In h folders ->
  resolution_step s
    (set_folderIdToInternalIdMap
       (Map_set (f_id h) id (folderIdToInternalIdMap s)) s).
Proof.
  intros Hh. split; [exists []; rewrite app_nil_r; reflexivity|].
  intros [Hkeys Hnull]. split; [|exact Hnull].
  intros k v. cbn [folderIdToInternalIdMap set_folderIdToInternalIdMap].
  rewrite Map_get_set. destruct (decide (k = f_id h)) as [->|_]; [eauto|].
  apply Hkeys.
Qed.

(** A folder is added to the output. *)
Lemma resolution_step_push s g :
  (under_root g -> internal_parent_folder_id g = None) ->
  resolution_step s (set_foldersToSync (foldersToSync s ++ [g]) s).
Proof.
  intros Hg. split; [exists [g]; reflexivity|].
  intros [Hkeys Hnull]. split; [exact Hkeys|].
  intros g'. cbn [foldersToSync set_foldersToSync]. intros Hin.
  apply in_app_or in Hin as [Hin|[<-|[]]]; [apply Hnull; exact Hin|exact Hg].
Qed.

Local Abbreviation steps c := (keeps resolution_step anywhere c).

Lemma anywhere_stays : stable resolution_step anywhere.
Proof. intros s s' _ _. exact I. Qed.

Lemma steps_sync {A} (c : Async A) :
  (forall s, exists r s', c s = (Settled r, s') /\ resolution_step s s') ->
  steps c.
Proof.
  intros H. apply rcall_sync. intros s _.
  destruct (H s) as (r & s' & E & Hs). exists r, s'.
  split; [exact E|]. split; [exact Hs|exact I].
Qed.

Lemma steps_gets {A} (f : State -> A) : steps (gets f).
Proof.
  apply steps_sync. intros s. eexists _, _.
  split; [reflexivity|apply resolution_step_refl].
Qed.

Lemma steps_resolveParentId parentId :
  steps (resolveParentId parentId driveIds connectionId).
Proof.
  unfold resolveParentId.
  apply (keeps_bind resolution_step resolution_step_refl resolution_step_trans);
    [apply steps_gets|].
  intros idMap.
  destruct (Map_has parentId idMap);
    [apply keeps_ret, resolution_step_refl|].
  destruct (existsb (String.eqb parentId) driveIds || String.eqb parentId "root");
    [apply keeps_ret, resolution_step_refl|].
  apply (keeps_bind resolution_step resolution_step_refl resolution_step_trans);
    [apply steps_gets|].
  intros cache.
  destruct (Map_get parentId cache);
    [apply keeps_ret, resolution_step_refl|].
  apply (keeps_bind resolution_step resolution_step_refl resolution_step_trans).
  - apply (keeps_await resolution_step resolution_step_refl);
      [exact anywhere_stays|].
    apply (rcall_query resolution_step resolution_step_refl);
      [exact anywhere_stays|]. intros; exact I.
  - intros parent.
    apply (keeps_bind resolution_step resolution_step_refl
             resolution_step_trans).
    + apply steps_sync. intros s. eexists _, _. split; [reflexivity|].
      apply resolution_step_frame; reflexivity.
    + intros []. apply keeps_ret, resolution_step_refl.
Qed.

Lemma steps_getInternalParentRecursive fuel remote_folders drive :
  forall folder visitedIds,
    steps (getInternalParentRecursive fuel remote_folders driveIds
             connectionId drive folder visitedIds).
Proof.
  induction fuel as [|fuel IH]; intros folder visitedIds;
    cbn [getInternalParentRecursive].
  - apply keeps_out_of_fuel, resolution_step_refl.
  - destruct (Set_has (first_parent folder) visitedIds).
    + apply (keeps_bind resolution_step resolution_step_refl
               resolution_step_trans).
      * apply (keeps_logger resolution_step resolution_step_logged).
        exact anywhere_stays.
      * intros []. apply keeps_ret, resolution_step_refl.
    + apply (keeps_bind resolution_step resolution_step_refl
               resolution_step_trans).
      * apply (keeps_await resolution_step resolution_step_refl);
          [exact anywhere_stays|]. apply steps_resolveParentId.
      * intros internal_parent_id.
        destruct (truthy internal_parent_id);
          [apply keeps_ret, resolution_step_refl|].
        apply (keeps_bind resolution_step resolution_step_refl
                 resolution_step_trans).
        -- apply (keeps_try_catch resolution_step resolution_step_refl
                    resolution_step_trans).
           ++ apply (keeps_bind resolution_step resolution_step_refl
                       resolution_step_trans).
              ** destruct (Map_get (first_parent folder) remote_folders);
                   [apply keeps_ret, resolution_step_refl|].
                 apply (keeps_await resolution_step resolution_step_refl);
                   [exact anywhere_stays|].
                 apply (keeps_executeWithRetry_from resolution_step
                          resolution_step_refl resolution_step_trans
                          resolution_step_timers);
                   [exact anywhere_stays|].
                 apply (keeps_request resolution_step resolution_step_refl
                          resolution_step_requests).
                 exact anywhere_stays.
              ** intros parentFolder. apply keeps_ret, resolution_step_refl.
           ++ intros e.
              apply (keeps_bind resolution_step resolution_step_refl
                       resolution_step_trans).
              ** apply (keeps_logger resolution_step resolution_step_logged).
                 exact anywhere_stays.
              ** intros []. apply keeps_ret, resolution_step_refl.
        -- intros [[parentFolder|]|result];
             [apply IH|apply keeps_ret, resolution_step_refl..].
Qed.

(** The ancestor walk of a folder that does not lie under a root. *)
Lemma steps_resolve_pending fuel remote_folders drive h :
  In h folders -> ~ under_root h ->
  steps (resolve_pending uuid_of fuel remote_folders driveIds connectionId
           drive h).
Proof.
  intros Hh Hnot. unfold resolve_pending.
  apply (keeps_bind resolution_step resolution_step_refl resolution_step_trans).
  { apply (keeps_await resolution_step resolution_step_refl);
      [exact anywhere_stays|]. apply steps_getInternalParentRecursive. }
  intros internal_parent_id.
  apply (keeps_bind resolution_step resolution_step_refl resolution_step_trans).
  { apply steps_sync. intros s. eexists _, _. split; [reflexivity|].
    apply resolution_step_frame; reflexivity. }
  intros folder_internal_id.
  apply (keeps_bind resolution_step resolution_step_refl resolution_step_trans).
  { apply steps_sync. intros s. eexists _, _. split; [reflexivity|].
    apply resolution_step_id. exact Hh. }
  intros []. apply steps_sync. intros s. eexists _, _.
  split; [reflexivity|]. apply resolution_step_push.
  intros Hunder. exfalso. apply Hnot. exact Hunder.
Qed.

Lemma steps_handleUnresolvedFolders schedule fuel pending remote_folders
    drive :
  (forall h, In h pending -> In h folders /\ ~ under_root h) ->
  steps (handleUnresolvedFolders uuid_of schedule fuel pending remote_folders
           driveIds connectionId drive).
Proof.
  intros Hpending. unfold handleUnresolvedFolders.
  apply (keeps_bind resolution_step resolution_step_refl resolution_step_trans).
  { apply (keeps_logger resolution_step resolution_step_logged).
    exact anywhere_stays. }
  intros [].
  apply (keeps_bind resolution_step resolution_step_refl resolution_step_trans).
  - apply (keeps_await resolution_step resolution_step_refl);
      [exact anywhere_stays|].
    eapply rcall_weaken.
    + apply (rcall_Promise_all resolution_step resolution_step_refl
               resolution_step_trans anywhere (fun _ _ => True)).
      * intros r s s' _ _. exact I.
      * intros s _. apply List.Forall_forall. intros c Hc.
        apply in_map_iff in Hc as (h & <- & Hh).
        exists anywhere. split; [exact anywhere_stays|]. split; [exact I|].
        destruct (Hpending h Hh) as [Hin Hnot].
        eapply rcall_weaken;
          [apply (steps_resolve_pending fuel remote_folders drive h Hin Hnot)
          |auto|intros; exact I].
    + auto.
    + intros r s _. exact I.
  - intros l. apply keeps_ret, resolution_step_refl.
Qed.

(** ** The pass loop *)

Definition still_pending (pending : list Folder) : Prop :=
  forall h, In h pending -> In h folders /\ ~ under_root h.

(** The folder is in the output, without a parent. *)
Definition resolved_to_null (f : Folder) (s : State) : Prop :=
  exists internalId, In (with_internal_ids f None internalId) (foldersToSync s).

Lemma resolved_to_null_later f s s' :
  resolved_to_null f s -> resolution_step s s' -> resolved_to_null f s'.
Proof.
  intros (id & Hin) [[l Hl] _]. exists id. rewrite Hl.
  apply in_or_app. left. exact Hin.
Qed.

Lemma first_parent_created x parent id :
  first_parent (createFolderWithInternalIds x parent id) = first_parent x.
Proof. reflexivity. Qed.

Lemma under_root_created x parent id :
  under_root (createFolderWithInternalIds x parent id) <-> under_root x.
Proof. unfold under_root. rewrite first_parent_created. tauto. Qed.

(** One iteration of a pass. *)
Lemma pass_iteration pending x s :
  In x folders -> roots_are_null s -> still_pending pending ->
  exists pending' s',
    exec (resolve_in_pass uuid_of driveIds connectionId pending x) s
    = (Ok pending', s') /\
    roots_are_null s' /\ resolution_step s s' /\ still_pending pending' /\
    (under_root x -> resolved_to_null x s').
Proof.
  intros Hx Hs Hpending.
  assert (Hparent : exists r s1,
             exec (resolveParentId (first_parent x) driveIds connectionId) s
             = (Ok r, s1) /\
             foldersToSync s1 = foldersToSync s /\
             folderIdToInternalIdMap s1 = folderIdToInternalIdMap s /\
             (under_root x -> r = Some "root")).
  { rewrite exec_resolveParentId.
    destruct (Map_get (first_parent x) (folderIdToInternalIdMap s))
      as [v|] eqn:Ev.
    - eexists _, _. split; [reflexivity|]. repeat split.
      intros [_ Hnone]. exfalso.
      destruct (proj1 Hs _ _ Ev) as (h & Hh & Hid). exact (Hnone h Hh Hid).
    - destruct (is_root driveIds (first_parent x)) eqn:Er.
      + eexists _, _. split; [reflexivity|]. repeat split.
      + destruct (Map_get (first_parent x) (parentLookupCache s));
          (eexists _, _; split; [reflexivity|]; repeat split);
          intros [Hr _]; congruence. }
  destruct Hparent as (r & s1 & Hparent & Hout1 & Hids1 & Hroot).
  assert (Hstep1 : resolution_step s s1)
    by (apply resolution_step_frame; assumption).
  assert (Hleft : exists s', (Ok (pending ++ [x]) : Outcome (list Folder), s1)
                             = (Ok (pending ++ [x]), s') /\
                             True) by (exists s1; auto).
  rewrite exec_resolve_in_pass, Hparent. cbn [and_then].
  assert (Hstay : (under_root x -> False) ->
            exists pending' s',
              (Ok (pending ++ [x]) : Outcome (list Folder), s1)
              = (Ok pending', s') /\
              roots_are_null s' /\ resolution_step s s' /\
              still_pending pending' /\
              (under_root x -> resolved_to_null x s')).
  { intros Hnot. exists (pending ++ [x]), s1. split; [reflexivity|].
    split; [apply Hstep1; exact Hs|]. split; [exact Hstep1|]. split.
    - intros h Hh. apply in_app_or in Hh as [Hh|[<-|[]]]; [auto|].
      split; [exact Hx|exact Hnot].
    - intros Hunder. destruct (Hnot Hunder). }
  destruct r as [parent|]; [|apply Hstay; intros Hu; discriminate (Hroot Hu)].
  destruct (truthy_string parent) eqn:Etruthy.
  2:{ apply Hstay. intros Hu. injection (Hroot Hu) as ->. discriminate. }
  rewrite exec_getIntenalIdForFolder.
  assert (Hid : exists id s2,
             match stored_id (f_id x) connectionId s1 with
             | Some id => (Ok id, s1)
             | None => (Ok (uuid_of (uuids_drawn s1)),
                        set_uuids_drawn (S (uuids_drawn s1)) s1)
             end = (Ok id : Outcome string, s2) /\
             foldersToSync s2 = foldersToSync s1 /\
             folderIdToInternalIdMap s2 = folderIdToInternalIdMap s1).
  { destruct (stored_id (f_id x) connectionId s1);
      eexists _, _; split; try reflexivity; split; reflexivity. }
  destruct Hid as (id & s2 & -> & Hout2 & Hids2). cbn [and_then].
  assert (Hstep2 : resolution_step s1 s2)
    by (apply resolution_step_frame; assumption).
  set (g := createFolderWithInternalIds x parent id).
  set (s3 := set_foldersToSync (foldersToSync s2 ++ [g]) s2).
  assert (Hg : under_root g -> internal_parent_folder_id g = None).
  { intros Hu. apply under_root_created in Hu.
    injection (Hroot Hu) as ->. reflexivity. }
  assert (Hstep3 : resolution_step s2 s3) by (apply resolution_step_push, Hg).
  assert (Hstep4 : resolution_step s3
            (set_folderIdToInternalIdMap
               (Map_set (f_id x) id (folderIdToInternalIdMap s3)) s3))
    by (apply resolution_step_id; exact Hx).
  eexists _, _. split; [reflexivity|].
  assert (Hall : resolution_step s
            (set_folderIdToInternalIdMap
               (Map_set (f_id x) id (folderIdToInternalIdMap s2)) s3)).
  { eapply resolution_step_trans; [exact Hstep1|].
    eapply resolution_step_trans; [exact Hstep2|].
    eapply resolution_step_trans; [exact Hstep3|exact Hstep4]. }
  split; [apply Hall; exact Hs|]. split; [exact Hall|].
  split; [exact Hpending|].
  intros Hu. injection (Hroot Hu) as Hp. exists id.
  cbn [foldersToSync set_folderIdToInternalIdMap s3 set_foldersToSync].
  apply in_or_app. right. left. unfold g. rewrite Hp. reflexivity.
Qed.

(** One pass. *)
Lemma pass_over xs :
  forall pending s,
    (forall x, In x xs -> In x folders) ->
    roots_are_null s -> still_pending pending ->
    exists pending' s',
      exec (for_of xs (resolve_in_pass uuid_of driveIds connectionId) pending)
           s
      = (Ok pending', s') /\
      roots_are_null s' /\ resolution_step s s' /\ still_pending pending' /\
      (forall x, In x xs -> under_root x -> resolved_to_null x s').
Proof.
  induction xs as [|x xs IH]; intros pending s Hxs Hs Hpending.
  - exists pending, s. split; [reflexivity|]. split; [exact Hs|].
    split; [apply resolution_step_refl|]. split; [exact Hpending|].
    intros x [].
  - rewrite exec_for_of_cons.
    destruct (pass_iteration pending x s (Hxs x (or_introl eq_refl)) Hs
                Hpending)
      as (pending1 & s1 & -> & Hs1 & Hstep1 & Hpending1 & Hx).
    cbn [and_then].
    destruct (IH pending1 s1 (fun y Hy => Hxs y (or_intror Hy)) Hs1 Hpending1)
      as (pending2 & s2 & -> & Hs2 & Hstep2 & Hpending2 & Hrest).
    exists pending2, s2. split; [reflexivity|]. split; [exact Hs2|].
    split; [eapply resolution_step_trans; eauto|]. split; [exact Hpending2|].
    intros y [<-|Hy] Hu; [|auto].
    eapply resolved_to_null_later; [apply Hx; exact Hu|exact Hstep2].
Qed.

(** The passes, and the fallback if they get stuck. *)
Lemma passes_over schedule fuel drive :
  forall passes remaining s,
    (forall x, In x remaining -> In x folders) ->
    roots_are_null s ->
    let run := exec (resolve_passes uuid_of passes schedule fuel connectionId
                       driveIds drive remaining) s in
    resolution_step s (snd run) /\
    (fst run = Ok tt ->
     forall x, In x remaining -> under_root x -> resolved_to_null x (snd run)).
Proof.
  induction passes as [|passes IH]; intros remaining s Hrem Hs run; subst run.
  - cbn. split; [apply resolution_step_refl|discriminate].
  - rewrite resolve_passes_unfold.
    destruct remaining as [|x0 rest].
    { cbn [length Nat.ltb Nat.leb]. rewrite exec_ret. cbn [fst snd].
      split; [apply resolution_step_refl|]. intros _ x []. }
    cbn [length Nat.ltb Nat.leb]. rewrite exec_bind.
    destruct (pass_over (x0 :: rest) [] s Hrem Hs) as
      (pending & s1 & -> & Hs1 & Hstep1 & Hpending & Hdone).
    { intros h []. }
    cbn [and_then].
    destruct (isStuckInLoop pending (x0 :: rest)).
    + rewrite exec_bind, exec_gets. cbn [and_then].
      match goal with
      | |- context [exec ?c s1] =>
          destruct (rcall_exec resolution_step resolution_step_refl
                      resolution_step_trans anywhere (fun _ _ => True) c s1)
            as [Hstep2 _]
      end.
      { apply (keeps_await resolution_step resolution_step_refl);
          [exact anywhere_stays|].
        apply steps_handleUnresolvedFolders. exact Hpending. }
      { exact I. }
      split; [eapply resolution_step_trans; eauto|].
      intros _ x Hx Hu.
      eapply resolved_to_null_later; [apply Hdone; assumption|exact Hstep2].
    + destruct (IH pending s1 (fun h Hh => proj1 (Hpending h Hh)) Hs1)
        as [Hstep2 _].
      split; [eapply resolution_step_trans; eauto|].
      intros _ x Hx Hu.
      eapply resolved_to_null_later; [apply Hdone; assumption|exact Hstep2].
Qed.

(** The whole resolution. *)
Lemma roots_resolved schedule fuel drive s output s' :
  exec (processFoldersWithParents uuid_of schedule fuel folders connectionId
          driveIds drive) s
  = (Ok output, s') ->
  (forall f, In f folders -> under_root f ->
             exists internalId,
               In (with_internal_ids f None internalId) output) /\
  (forall g, In g output -> under_root g ->
             internal_parent_folder_id g = None).
Proof.
  unfold processFoldersWithParents.
  rewrite exec_bind, exec_modify. cbn [and_then].
  rewrite exec_bind, exec_modify. cbn [and_then].
  rewrite exec_bind, exec_modify. cbn [and_then].
  set (s0 := set_parentLookupCache []
               (set_foldersToSync [] (set_folderIdToInternalIdMap [] s))).
  assert (Hs0 : roots_are_null s0).
  { split; [intros k v [=]|intros g []]. }
  rewrite exec_bind.
  destruct (passes_over schedule fuel drive (S (length folders)) folders s0
              (fun x Hx => Hx) Hs0) as [Hstep Hdone].
  destruct (exec (resolve_passes uuid_of (S (length folders)) schedule fuel
                    connectionId driveIds drive folders) s0)
    as [[[]|e|] s1]; cbn [and_then fst snd] in *; try discriminate.
  rewrite exec_gets. intros [= <- <-]. split.
  - intros f Hf Hu. exact (Hdone eq_refl f Hf Hu).
  - apply (proj2 Hstep Hs0).
Qed.

End RootParent.


(** A folder under the drive beside a folder whose parent "p" has to be
    fetched. *)
Definition beside_a_fallback : list Folder :=
  [folder_of "f" (Some ["p"]); folder_of "a" (Some ["drive-0"])].


Example beside_a_fallback_run :
  map (fun g => (f_id g, internal_id g, internal_parent_folder_id g))
    (output_of
       (exec (processFoldersWithParents uuid_nth (repeat 0 20) 3
                beside_a_fallback "c" ["drive-0"] drive_p_under_root) idle))
  = [("a", Some "uuid-0", None); ("f", Some "uuid-1", Some "root")].
Proof. vm_compute. reflexivity. Qed.


(** ** No provider failure aborts the resolution *)

(** Nothing is asked of the steps, nothing is known of the state: what is
    left is how a call can settle. *)
Definition any_step : State -> State -> Prop := fun _ _ => True.

Definition settles {A} (Q : Outcome A -> Prop) (c : Async A) : Prop :=
  rcall any_step anywhere (fun r _ => Q r) c.

Definition fulfilled {A} (r : Outcome A) : Prop := exists a, r = Ok a.

Definition not_rejected {A} (r : Outcome A) : Prop :=
  match r with
  | Throw _ => False
  | _ => True
  end.

Definition not_out_of_fuel {A} (r : Outcome A) : Prop :=
  match r with
  | Fuel => False
  | _ => True
  end.

Lemma any_step_refl : forall s, any_step s s.
Proof. intros s. exact I. Qed.

Lemma any_step_trans :
  forall s1 s2 s3, any_step s1 s2 -> any_step s2 s3 -> any_step s1 s3.
Proof. intros. exact I. Qed.

Lemma any_post_stable {A} (Q : Outcome A -> Prop) :
  stable_post any_step (fun r (_ : State) => Q r).
Proof. intros r s s' H _. exact H. Qed.

Lemma anywhere_stable : stable any_step anywhere.
Proof. intros s s' _ _. exact I. Qed.

Lemma settles_weaken {A} (Q Q' : Outcome A -> Prop) c :
  settles Q c -> (forall r, Q r -> Q' r) -> settles Q' c.
Proof.
  intros H HQ. eapply rcall_weaken; [exact H|auto|]. intros r s. apply HQ.
Qed.

Lemma settles_sync {A} (Q : Outcome A -> Prop) (c : Async A) :
  (forall s, exists r s', c s = (Settled r, s') /\ Q r) -> settles Q c.
Proof.
  intros H. apply rcall_sync. intros s _.
  destruct (H s) as (r & s' & E & HQ). exists r, s'.
  split; [exact E|]. split; [exact I|exact HQ].
Qed.

Lemma settles_ret {A} (Q : Outcome A -> Prop) a : Q (Ok a) -> settles Q (ret a).
Proof.
  intros H. apply settles_sync. intros s. exists (Ok a), s. auto.
Qed.

Lemma settles_throw {A} (Q : Outcome A -> Prop) e :
  Q (Throw e) -> settles Q (throw e).
Proof.
  intros H. apply settles_sync. intros s. exists (Throw e), s. auto.
Qed.

Lemma settles_bind {A B} (Q1 : Outcome A -> Prop) (Q2 : Outcome B -> Prop)
    (c : Async A) (k : A -> Async B) :
  settles Q1 c ->
  (forall a, Q1 (Ok a) -> settles Q2 (k a)) ->
  (forall e, Q1 (Throw e) -> Q2 (Throw e)) ->
  (Q1 Fuel -> Q2 Fuel) ->
  settles Q2 (bind c k).
Proof.
  intros Hc Hk He Hf.
  refine (rcall_bind any_step any_step_refl any_step_trans anywhere
            (fun r _ => Q1 r) (fun r _ => Q2 r) c k Hc _ _ _).
  - intros a s Ha. exact (Hk a Ha s I).
  - intros e s. apply He.
  - intros s. apply Hf.
Qed.

Lemma settles_await {A} (Q : Outcome A -> Prop) (c : Async A) :
  settles Q c -> settles Q (await c).
Proof.
  intros Hc.
  exact (rcall_await any_step any_step_refl anywhere (fun r _ => Q r) c
           (any_post_stable Q) Hc).
Qed.

Lemma settles_try_catch {A} (Q1 Q2 : Outcome A -> Prop) (c : Async A)
    (h : jsval -> Async A) :
  settles Q1 c ->
  (forall e, Q1 (Throw e) -> settles Q2 (h e)) ->
  (forall a, Q1 (Ok a) -> Q2 (Ok a)) ->
  (Q1 Fuel -> Q2 Fuel) ->
  settles Q2 (try_catch c h).
Proof.
  intros Hc Hh Ha Hf.
  refine (rcall_try_catch any_step any_step_refl any_step_trans anywhere
            (fun r _ => Q1 r) (fun r _ => Q2 r) c h Hc _ _ _).
  - intros e s He. exact (Hh e He s I).
  - intros a s. apply Ha.
  - intros s. apply Hf.
Qed.

Lemma settles_request {A} (Q : Outcome A -> Prop) (reply : nat -> Reply A) :
  (forall r, not_out_of_fuel r -> Q r) -> settles Q (request reply).
Proof.
  intros HQ s _. cbn. split; [exact I|]. intros s' _. split; [exact I|].
  apply HQ. destruct (reply (requests s)); exact I.
Qed.

Lemma settles_query {A} (Q : Outcome A -> Prop) (read : State -> A) :
  (forall a, Q (Ok a)) -> settles Q (query read).
Proof.
  intros HQ s _. cbn. split; [exact I|]. intros s' _. split; [exact I|].
  apply HQ.
Qed.

Lemma settles_delay (Q : Outcome unit -> Prop) ms :
  Q (Ok tt) -> settles Q (delay ms).
Proof.
  intros HQ s _. cbn. split; [exact I|]. intros s' _. split; [exact I|].
  exact HQ.
Qed.

Lemma settles_logger (Q : Outcome unit -> Prop) l m :
  Q (Ok tt) -> settles Q (logger l m).
Proof. intros HQ s _. cbn. split; [exact I|exact HQ]. Qed.

Lemma settles_executeWithRetry_from {T} (operation : Async T) :
  settles not_out_of_fuel operation ->
  forall budget retryCount,
    0 < budget -> MAX_API_RETRIES < budget + retryCount ->
    settles not_out_of_fuel (executeWithRetry_from budget operation retryCount).
Proof.
  intros Hop.
  induction budget as [|budget IH]; intros retryCount Hpos Hle; [lia|].
  cbn [executeWithRetry_from].
  eapply settles_try_catch with (Q1 := not_out_of_fuel).
  - eapply settles_bind with (Q1 := eq (Ok tt)).
    + apply settles_await, settles_delay. reflexivity.
    + intros [] _. apply settles_await. exact Hop.
    + intros e [=].
    + intros [=].
  - intros e _. destruct (isRateLimitError e); cbn [negb].
    + destruct (MAX_API_RETRIES <=? retryCount) eqn:E.
      * apply settles_throw. exact I.
      * apply Nat.leb_gt in E.
        eapply settles_bind with (Q1 := eq (Ok tt)).
        -- apply settles_await, settles_delay. reflexivity.
        -- intros [] _. apply IH; lia.
        -- intros e' [=].
        -- intros [=].
    + apply settles_throw. exact I.
  - auto.
  - auto.
Qed.

Lemma settles_executeWithRetry {T} (operation : Async T) :
  settles not_out_of_fuel operation ->
  settles not_out_of_fuel (executeWithRetry operation 0).
Proof.
  intros Hop. apply settles_executeWithRetry_from; [exact Hop|lia|].
  unfold MAX_API_RETRIES. lia.
Qed.

(** What follows is under the premise that the store answers: a read of
    the folders of the connection, whenever it is sent and resumed, is
    fulfilled. *)
Lemma settles_resolveParentId parentId driveIds connectionId
    (Hstore : forall remoteId,
        settles fulfilled (fs_folders_findFirst remoteId connectionId)) :
  settles fulfilled (resolveParentId parentId driveIds connectionId).
Proof.
  assert (Hok : forall A (a : A), @fulfilled A (Ok a)) by (intros; eexists; reflexivity).
  assert (Hno : forall A e, @fulfilled A (Throw e) -> @fulfilled (option string) (Throw e))
    by (intros A e [a [=]]).
  assert (Hnf : forall A, @fulfilled A Fuel -> @fulfilled (option string) Fuel)
    by (intros A [a [=]]).
  unfold resolveParentId.
  eapply settles_bind with (Q1 := fulfilled); [| |apply Hno|apply Hnf].
  { apply settles_sync. intros s. eexists _, _. split; [reflexivity|apply Hok]. }
  intros idMap _.
  destruct (Map_has parentId idMap); [apply settles_ret, Hok|].
  destruct (existsb (String.eqb parentId) driveIds || String.eqb parentId "root");
    [apply settles_ret, Hok|].
  eapply settles_bind with (Q1 := fulfilled); [| |apply Hno|apply Hnf].
  { apply settles_sync. intros s. eexists _, _. split; [reflexivity|apply Hok]. }
  intros cache _.
  destruct (Map_get parentId cache) as [cached|]; [apply settles_ret, Hok|].
  eapply settles_bind with (Q1 := fulfilled); [| |apply Hno|apply Hnf].
  { apply settles_await, Hstore. }
  intros parent _.
  eapply settles_bind with (Q1 := fulfilled); [| |apply Hno|apply Hnf].
  { apply settles_sync. intros s. eexists _, _. split; [reflexivity|apply Hok]. }
  intros [] _. apply settles_ret, Hok.
Qed.

(** An ancestor walk ends with a parent, or without one; it does not
    throw. *)
Lemma settles_getInternalParentRecursive fuel remote_folders driveIds
    connectionId drive
    (Hstore : forall remoteId,
        settles fulfilled (fs_folders_findFirst remoteId connectionId)) :
  forall folder visitedIds,
    settles not_rejected
      (getInternalParentRecursive fuel remote_folders driveIds connectionId
         drive folder visitedIds).
Proof.
  induction fuel as [|fuel IH]; intros folder visitedIds;
    cbn [getInternalParentRecursive].
  - apply settles_sync. intros s. eexists _, _. split; [reflexivity|exact I].
  - destruct (Set_has (first_parent folder) visitedIds).
    + eapply settles_bind with (Q1 := eq (Ok tt)).
      * apply settles_logger. reflexivity.
      * intros [] _. apply settles_ret. exact I.
      * intros e [=].
      * intros [=].
    + eapply settles_bind with (Q1 := fulfilled).
      * apply settles_await, settles_resolveParentId, Hstore.
      * intros internal_parent_id _.
        destruct (truthy internal_parent_id); [apply settles_ret; exact I|].
        eapply settles_bind with (Q1 := fulfilled).
        -- eapply settles_try_catch with (Q1 := not_out_of_fuel).
           ++ eapply settles_bind with (Q1 := not_out_of_fuel).
              ** destruct (Map_get (first_parent folder) remote_folders).
                 --- apply settles_ret. exact I.
                 --- apply settles_await, settles_executeWithRetry.
                     apply settles_request. auto.
              ** intros parentFolder _. apply settles_ret. exact I.
              ** auto.
              ** auto.
           ++ intros e _.
              eapply settles_bind with (Q1 := eq (Ok tt)).
              ** apply settles_logger. reflexivity.
              ** intros [] _. apply settles_ret. eexists; reflexivity.
              ** intros e' [=].
              ** intros [=].
           ++ intros a _. eexists; reflexivity.
           ++ intros [].
        -- intros [[parentFolder|]|result] _.
           ++ apply IH.
           ++ apply settles_ret. exact I.
           ++ apply settles_ret. exact I.
        -- intros e [a [=]].
        -- intros [a [=]].
      * intros e [a [=]].
      * intros [a [=]].
Qed.

Lemma settles_uuidv4 uuid_of : settles fulfilled (uuidv4 uuid_of).
Proof.
  apply settles_sync. intros s. eexists _, _. split; [reflexivity|].
  eexists; reflexivity.
Qed.

Lemma settles_modify f : settles (eq (Ok tt)) (modify f).
Proof.
  apply settles_sync. intros s. eexists _, _. split; reflexivity.
Qed.

Lemma settles_resolve_pending uuid_of fuel remote_folders driveIds
    connectionId drive folder
    (Hstore : forall remoteId,
        settles fulfilled (fs_folders_findFirst remoteId connectionId)) :
  settles not_rejected
    (resolve_pending uuid_of fuel remote_folders driveIds connectionId drive
       folder).
Proof.
  unfold resolve_pending.
  eapply settles_bind with (Q1 := not_rejected).
  - apply settles_await, settles_getInternalParentRecursive, Hstore.
  - intros internal_parent_id _.
    eapply settles_bind with (Q1 := fulfilled).
    + apply settles_uuidv4.
    + intros folder_internal_id _.
      eapply settles_bind with (Q1 := eq (Ok tt)).
      * apply settles_modify.
      * intros [] _. eapply settles_weaken; [apply settles_modify|].
        intros r <-. exact I.
      * intros e [=].
      * intros [=].
    + intros e [a [=]].
    + intros [a [=]].
  - auto.
  - auto.
Qed.

Lemma settles_Promise_all {A} (Q : Outcome A -> Prop) schedule
    (cs : list (Async A)) :
  Forall (settles Q) cs ->
  settles (fun r => match r with
                    | Ok l => Forall (fun a => Q (Ok a)) l
                    | Throw e => Q (Throw e)
                    | Fuel => True
                    end)
    (Promise_all schedule cs).
Proof.
  intros Hcs.
  eapply rcall_weaken.
  - apply (rcall_Promise_all any_step any_step_refl any_step_trans anywhere
             (fun r _ => Q r) schedule cs (any_post_stable Q)).
    intros s _. eapply Forall_impl; [exact Hcs|].
    intros c Hc. exists anywhere.
    split; [exact anywhere_stable|]. split; [exact I|exact Hc].
  - auto.
  - intros [l|e|] s H; cbn in H; auto.
Qed.

Lemma settles_handleUnresolvedFolders uuid_of schedule fuel pending
    remote_folders driveIds connectionId drive
    (Hstore : forall remoteId,
        settles fulfilled (fs_folders_findFirst remoteId connectionId)) :
  settles not_rejected
    (handleUnresolvedFolders uuid_of schedule fuel pending remote_folders
       driveIds connectionId drive).
Proof.
  unfold handleUnresolvedFolders.
  eapply settles_bind with (Q1 := eq (Ok tt)).
  - apply settles_logger. reflexivity.
  - intros [] _.
    eapply settles_bind with (Q1 := not_rejected).
    + apply settles_await.
      eapply settles_weaken; [apply settles_Promise_all with (Q := not_rejected)|].
      * apply List.Forall_forall. intros c Hin.
        apply in_map_iff in Hin as (f & <- & _).
        apply settles_resolve_pending, Hstore.
      * intros [l|e|]; cbn; auto.
    + intros l _. apply settles_ret. exact I.
    + auto.
    + auto.
  - intros e [=].
  - intros [=].
Qed.

Lemma fulfilled_Ok {A} (a : A) : fulfilled (Ok a).
Proof. exists a. reflexivity. Qed.

Lemma settles_getIntenalIdForFolder uuid_of folderId connectionId
    (Hstore : forall remoteId,
        settles fulfilled (fs_folders_findFirst remoteId connectionId)) :
  settles fulfilled (getIntenalIdForFolder uuid_of folderId connectionId).
Proof.
  unfold getIntenalIdForFolder.
  eapply settles_bind with (Q1 := fulfilled).
  - apply settles_await, Hstore.
  - intros [row|] _; [destruct (truthy_string (id_fs_folder row))|];
      try apply settles_uuidv4.
    apply settles_ret, fulfilled_Ok.
  - intros e [a [=]].
  - intros [a [=]].
Qed.

Lemma settles_resolve_in_pass uuid_of driveIds connectionId pending folder
    (Hstore : forall remoteId,
        settles fulfilled (fs_folders_findFirst remoteId connectionId)) :
  settles fulfilled
    (resolve_in_pass uuid_of driveIds connectionId pending folder).
Proof.
  unfold resolve_in_pass.
  eapply settles_bind with (Q1 := fulfilled).
  - apply settles_await, settles_resolveParentId, Hstore.
  - intros [internalParentId|] _; [|apply settles_ret, fulfilled_Ok].
    destruct (truthy_string internalParentId);
      [|apply settles_ret, fulfilled_Ok].
    eapply settles_bind with (Q1 := fulfilled).
    + apply settles_await, settles_getIntenalIdForFolder, Hstore.
    + intros folder_internal_id _.
      eapply settles_bind with (Q1 := eq (Ok tt)).
      * apply settles_modify.
      * intros [] _. eapply settles_bind with (Q1 := eq (Ok tt)).
        -- apply settles_modify.
        -- intros [] _. apply settles_ret, fulfilled_Ok.
        -- intros e [=].
        -- intros [=].
      * intros e [=].
      * intros [=].
    + intros e [a [=]].
    + intros [a [=]].
  - intros e [a [=]].
  - intros [a [=]].
Qed.

Lemma settles_for_of {X A} (body : A -> X -> Async A) (xs : list X) :
  (forall a x, settles fulfilled (body a x)) ->
  forall a, settles fulfilled (for_of xs body a).
Proof.
  intros Hbody. induction xs as [|x xs IH]; intros a; cbn [for_of].
  - apply settles_ret, fulfilled_Ok.
  - eapply settles_bind with (Q1 := fulfilled).
    + apply Hbody.
    + intros a' _. apply IH.
    + intros e [a' [=]].
    + intros [a' [=]].
Qed.

Lemma settles_resolve_passes uuid_of schedule fuel connectionId driveIds drive
    (Hstore : forall remoteId,
        settles fulfilled (fs_folders_findFirst remoteId connectionId)) :
  forall passes remainingFolders,
    settles not_rejected
      (resolve_passes uuid_of passes schedule fuel connectionId driveIds drive
         remainingFolders).
Proof.
  induction passes as [|passes IH]; intros remainingFolders.
  - apply settles_sync. intros s. eexists _, _. split; [reflexivity|exact I].
  - rewrite resolve_passes_unfold.
    destruct (0 <? length remainingFolders); [|apply settles_ret; exact I].
    eapply settles_bind with (Q1 := fulfilled).
    + apply settles_for_of. intros a x.
      apply settles_resolve_in_pass, Hstore.
    + intros foldersStillPending _.
      destruct (isStuckInLoop foldersStillPending remainingFolders);
        [|apply IH].
      eapply settles_bind with (Q1 := fulfilled).
      * apply settles_sync. intros s. eexists _, _.
        split; [reflexivity|apply fulfilled_Ok].
      * intros resolved _.
        apply settles_await, settles_handleUnresolvedFolders, Hstore.
      * intros e [a [=]].
      * intros [a [=]].
    + intros e [a [=]].
    + intros [a [=]].
Qed.

Lemma settles_processFoldersWithParents uuid_of schedule fuel folders
    connectionId driveIds drive
    (Hstore : forall remoteId,
        settles fulfilled (fs_folders_findFirst remoteId connectionId)) :
  settles not_rejected
    (processFoldersWithParents uuid_of schedule fuel folders connectionId
       driveIds drive).
Proof.
  unfold processFoldersWithParents.
  eapply settles_bind with (Q1 := eq (Ok tt)); [apply settles_modify| | |];
    [|intros e [=]|intros [=]].
  intros [] _.
  eapply settles_bind with (Q1 := eq (Ok tt)); [apply settles_modify| | |];
    [|intros e [=]|intros [=]].
  intros [] _.
  eapply settles_bind with (Q1 := eq (Ok tt)); [apply settles_modify| | |];
    [|intros e [=]|intros [=]].
  intros [] _.
  eapply settles_bind with (Q1 := not_rejected).
  - apply settles_resolve_passes, Hstore.
  - intros [] _. apply settles_sync. intros s. eexists _, _.
    split; [reflexivity|exact I].
  - auto.
  - auto.
Qed.

Lemma settles_exec {A} (Q : Outcome A -> Prop) (c : Async A) s :
  settles Q c -> Q (fst (exec c s)).
Proof.
  intros Hc.
  exact (proj2 (rcall_exec any_step any_step_refl any_step_trans anywhere
                  (fun r _ => Q r) c s Hc I)).
Qed.

(** X18.  As long as the store answers (every read of the folders of the
    connection, whenever it is sent and resumed, is fulfilled), no failure
    of the provider makes [processFoldersWithParents] throw, whatever the
    batch, the content of the store, the answers of the provider and the
    interleaving of the ancestor walks: a failure of the provider is caught
    inside the walk that met it.  The outcome is a list of folders, or none
    when the schedule or the fuel given to the run is too short for it to
    end. *)
Theorem processFoldersWithParents_is_never_rejected :
  forall (uuid_of : nat -> string) (schedule : list nat) (fuel : nat)
         (folders : list Folder) (connectionId : string)
         (driveIds : list string) (drive : Drive) (s : State),
    (forall remoteId,
        settles fulfilled (fs_folders_findFirst remoteId connectionId)) ->
    let r := fst (exec (processFoldersWithParents uuid_of schedule fuel
                          folders connectionId driveIds drive) s) in
    (exists output, r = Ok output) \/ r = Fuel.
Proof.
  intros uuid_of schedule fuel folders connectionId driveIds drive s Hstore r.
  pose proof (settles_exec not_rejected _ s
                (settles_processFoldersWithParents uuid_of schedule fuel
                   folders connectionId driveIds drive Hstore)) as H.
  fold r in H. destruct r as [output|e|]; [eauto|destruct H|auto].
Qed.

Lemma processFoldersWithParents_is_never_rejected_witness :
  exists output,
    fst (exec (processFoldersWithParents uuid_nth (repeat 0 30) 1
                 [folder_of "f" (Some ["q"])] "c" ["drive-0"]
                 drive_p_under_root) idle)
    = Ok output.
Proof.
  destruct (processFoldersWithParents_is_never_rejected uuid_nth (repeat 0 30)
              1 [folder_of "f" (Some ["q"])] "c" ["drive-0"]
              drive_p_under_root idle) as [Hok|Hfuel].
  - intros remoteId. apply settles_query. intros row. apply fulfilled_Ok.
  - exact Hok.
  - vm_compute in Hfuel. discriminate Hfuel.
Defined.

(** ** How many times a task has to be resumed *)

Fixpoint within {A} (n : nat) (t : Task A) {struct t} : Prop :=
  match t with
  | Settled _ => True
  | Await next _ =>
      match n with
      | O => False
      | S n' => forall s, within n' (next s)
      end
  end.

Definition takes {A} (n : nat) (c : Async A) : Prop :=
  forall s, within n (fst (c s)).

Lemma within_mono {A} (t : Task A) :
  forall n m, n <= m -> within n t -> within m t.
Proof.
  induction t as [r|next IH eff]; intros n m Hle H; cbn in *; [exact I|].
  destruct n as [|n]; [contradiction|]. destruct m as [|m]; [lia|].
  intros s. apply (IH s n m); [lia|apply H].
Qed.

Lemma takes_mono {A} n m (c : Async A) : takes n c -> n <= m -> takes m c.
Proof. intros H Hle s. eapply within_mono; eauto. Qed.

Lemma within_then {A B} (k : A -> Async B) n2 :
  (forall a, takes n2 (k a)) ->
  forall (t : Task A) n1 s, within n1 t -> within (n1 + n2) (fst (then_ t k s)).
Proof.
  intros Hk. induction t as [[a|e|]|next IH eff]; intros n1 s H; cbn in H |- *;
    try exact I.
  - eapply within_mono; [|apply Hk]. lia.
  - destruct n1 as [|n1]; [contradiction|]. cbn. intros s'. apply IH, H.
Qed.

Lemma takes_bind {A B} n1 n2 (c : Async A) (k : A -> Async B) :
  takes n1 c -> (forall a, takes n2 (k a)) -> takes (n1 + n2) (bind c k).
Proof.
  intros Hc Hk s. unfold bind. specialize (Hc s). destruct (c s) as [t s1].
  apply within_then; assumption.
Qed.

Lemma within_tick {A} (t : Task A) : forall n, within n t -> within (S n) (tick t).
Proof.
  induction t as [r|next IH eff]; intros n H; cbn in H |- *.
  - intros s. exact I.
  - destruct n as [|n]; [contradiction|]. intros s. apply IH, H.
Qed.

Lemma takes_await {A} n (c : Async A) : takes n c -> takes (S n) (await c).
Proof.
  intros Hc s. unfold await. specialize (Hc s). destruct (c s) as [t s1].
  apply within_tick. exact Hc.
Qed.

Lemma within_catch {A} (h : jsval -> Async A) n2 :
  (forall e, takes n2 (h e)) ->
  forall (t : Task A) n1 s, within n1 t -> within (n1 + n2) (fst (catch_ t h s)).
Proof.
  intros Hh. induction t as [[a|e|]|next IH eff]; intros n1 s H; cbn in H |- *;
    try exact I.
  - eapply within_mono; [|apply Hh]. lia.
  - destruct n1 as [|n1]; [contradiction|]. cbn. intros s'. apply IH, H.
Qed.

Lemma takes_try_catch {A} n1 n2 (c : Async A) (h : jsval -> Async A) :
  takes n1 c -> (forall e, takes n2 (h e)) -> takes (n1 + n2) (try_catch c h).
Proof.
  intros Hc Hh s. unfold try_catch. specialize (Hc s). destruct (c s) as [t s1].
  apply within_catch; assumption.
Qed.

Lemma takes_request {A} (reply : nat -> Reply A) : takes 1 (request reply).
Proof. intros s. cbn. intros s'. exact I. Qed.

Lemma takes_query {A} (read : State -> A) : takes 1 (query read).
Proof. intros s. cbn. intros s'. exact I. Qed.

Lemma takes_delay ms : takes 1 (delay ms).
Proof. intros s. cbn. intros s'. exact I. Qed.

Lemma takes_ret {A} (a : A) : takes 0 (ret a).
Proof. intros s. exact I. Qed.

Lemma takes_logger l m : takes 0 (logger l m).
Proof. intros s. exact I. Qed.

Lemma takes_executeWithRetry_from {T} n (operation : Async T) :
  takes n operation ->
  forall budget retryCount,
    takes (budget * (n + 5)) (executeWithRetry_from budget operation retryCount).
Proof.
  intros Hop. induction budget as [|budget IH]; intros retryCount;
    cbn [executeWithRetry_from].
  - intros s. exact I.
  - replace (S budget * (n + 5)) with ((2 + S n) + (2 + budget * (n + 5)))
      by lia.
    apply takes_try_catch.
    + apply takes_bind.
      * apply takes_await, takes_delay.
      * intros []. apply takes_await, Hop.
    + intros e. destruct (isRateLimitError e); cbn [negb].
      * destruct (MAX_API_RETRIES <=? retryCount).
        -- intros s. exact I.
        -- apply takes_bind.
           ++ apply takes_await, takes_delay.
           ++ intros []. apply IH.
      * intros s. exact I.
Qed.

Lemma takes_resolveParentId parentId driveIds connectionId :
  takes 2 (resolveParentId parentId driveIds connectionId).
Proof.
  unfold resolveParentId.
  apply (takes_bind 0 2); [intros s; exact I|]. intros idMap.
  destruct (Map_has parentId idMap); [intros s; exact I|].
  destruct (existsb (String.eqb parentId) driveIds || String.eqb parentId "root");
    [intros s; exact I|].
  apply (takes_bind 0 2); [intros s; exact I|]. intros cache.
  destruct (Map_get parentId cache); [intros s; exact I|].
  apply (takes_bind 2 0).
  - apply takes_await, takes_query.
  - intros parent. apply (takes_bind 0 0); intros; intros s; exact I.
Qed.

(** A walk of at most [fuel] hops. *)
Lemma takes_getInternalParentRecursive fuel remote_folders driveIds
    connectionId drive :
  forall folder visitedIds,
    takes (28 * fuel)
      (getInternalParentRecursive fuel remote_folders driveIds connectionId
         drive folder visitedIds).
Proof.
  induction fuel as [|fuel IH]; intros folder visitedIds;
    cbn [getInternalParentRecursive].
  - intros s. exact I.
  - destruct (Set_has (first_parent folder) visitedIds).
    + apply (takes_mono 0); [|lia].
      apply (takes_bind 0 0); [apply takes_logger|intros; apply takes_ret].
    + replace (28 * S fuel) with (3 + (25 + 28 * fuel)) by lia.
      apply takes_bind.
      * apply takes_await, takes_resolveParentId.
      * intros internal_parent_id.
        destruct (truthy internal_parent_id);
          [apply (takes_mono 0); [apply takes_ret|lia]|].
        apply takes_bind.
        -- replace 25 with (25 + 0) by lia. apply takes_try_catch.
           ++ replace 25 with (25 + 0) by lia. apply takes_bind.
              ** destruct (Map_get (first_parent folder) remote_folders).
                 --- apply (takes_mono 0); [apply takes_ret|lia].
                 --- apply takes_await. unfold executeWithRetry.
                     apply (takes_mono (S (MAX_API_RETRIES - 0) * (1 + 5)));
                       [|unfold MAX_API_RETRIES; cbn; lia].
                     apply takes_executeWithRetry_from, takes_request.
              ** intros parentFolder. apply takes_ret.
           ++ intros e. apply (takes_bind 0 0);
                [apply takes_logger|intros; apply takes_ret].
        -- intros [[parentFolder|]|result].
           ++ apply IH.
           ++ apply (takes_mono 0); [apply takes_ret|lia].
           ++ apply (takes_mono 0); [apply takes_ret|lia].
Qed.

Lemma takes_resolve_pending uuid_of fuel remote_folders driveIds connectionId
    drive folder :
  takes (S (28 * fuel))
    (resolve_pending uuid_of fuel remote_folders driveIds connectionId drive
       folder).
Proof.
  unfold resolve_pending.
  replace (S (28 * fuel)) with (S (28 * fuel) + 0) by lia.
  apply takes_bind.
  - apply takes_await, takes_getInternalParentRecursive.
  - intros internal_parent_id.
    apply (takes_bind 0 0); [intros s; exact I|]. intros u.
    apply (takes_bind 0 0); [intros s; exact I|]. intros [].
    intros s. exact I.
Qed.

(** ** [Promise.all] of one promise *)

Definition only {A} (r : Outcome A) : Outcome (list A) :=
  match r with
  | Ok a => Ok [a]
  | Throw e => Throw e
  | Fuel => Fuel
  end.

Lemma all_task_single {A} schedule :
  forall (t : Task A) n s,
    within n t -> n <= count_occ Nat.eq_dec schedule 0 ->
    run (all_task schedule [t]) s = (only (fst (run t s)), snd (run t s)).
Proof.
  induction schedule as [|i schedule IH]; intros t n s Hn Hcount.
  - destruct t as [[a|e|]|next eff]; cbn in *; try reflexivity.
    destruct n; [contradiction|lia].
  - destruct t as [[a|e|]|next eff]; try reflexivity.
    cbn [all_task gather run]. cbn [count_occ] in Hcount.
    destruct i as [|i]; cbn [resume_nth fst snd].
    + destruct n as [|n]; [contradiction|].
      destruct (Nat.eq_dec 0 0) as [_|Hne]; [|congruence].
      apply (IH (next s) n (eff s)); [apply Hn|lia].
    + rewrite resume_nth_nil. cbn [fst snd].
      destruct (Nat.eq_dec (S i) 0) as [Heq|_]; [discriminate|].
      apply (IH (Await next eff) n s); assumption.
Qed.

Lemma exec_Promise_all_single {A} schedule (c : Async A) n s :
  takes n c -> n <= count_occ Nat.eq_dec schedule 0 ->
  exec (Promise_all schedule [c]) s = (only (fst (exec c s)), snd (exec c s)).
Proof.
  intros Hc Hcount. rewrite exec_Promise_all. cbn [start_all].
  unfold exec. specialize (Hc s). destruct (c s) as [t s1]. cbn [fst snd] in *.
  apply (all_task_single schedule t n s1); assumption.
Qed.

(** ** A parent that cannot be fetched *)

(** Requests have been sent and timers waited for, nothing else. *)
Definition asked_only (s s' : State) : Prop :=
  exists n t, s' = set_requests n (set_timers t s) /\
              requests s < n <= requests s + 4.

Lemma executeWithRetry_rejected {A} (reply : nat -> Reply A) error s :
  (forall n, reply n = Rejected error) ->
  exists error' s',
    exec (executeWithRetry (request reply) 0) s = (Throw error', s') /\
    asked_only s s'.
Proof.
  intros Hrej.
  assert (Hop : forall s0, exec (request reply) s0
                           = (Throw error, set_requests (S (requests s0)) s0)).
  { intros s0. rewrite exec_request, Hrej. reflexivity. }
  destruct (isRateLimitError error) eqn:Hcls.
  - rewrite (executeWithRetry_retries _ 0 _ error _ (Hop _) Hcls)
      by (unfold MAX_API_RETRIES; lia).
    change (0 + 1) with 1.
    rewrite (executeWithRetry_retries _ 1 _ error _ (Hop _) Hcls)
      by (unfold MAX_API_RETRIES; lia).
    change (1 + 1) with 2.
    rewrite (executeWithRetry_retries _ 2 _ error _ (Hop _) Hcls)
      by (unfold MAX_API_RETRIES; lia).
    change (2 + 1) with 3.
    rewrite (executeWithRetry_gives_up _ 3 _ error _ (Hop _) Hcls)
      by (unfold MAX_API_RETRIES; lia).
    eexists _, _. split; [reflexivity|].
    eexists _, _. split; [reflexivity|]. cbn. lia.
  - rewrite (executeWithRetry_propagates _ 0 _ error _ (Hop _) Hcls).
    eexists _, _. split; [reflexivity|].
    eexists _, _. split; [reflexivity|]. cbn. lia.
Qed.

(** X19.  A folder whose parent is no drive, is not in the store and cannot
    be fetched from the provider comes out of [processFoldersWithParents]
    as an orphan with a new identifier: the run succeeds, the failure is
    logged after the warning of the fallback, and at most four requests
    were sent. *)
Theorem unreachable_parent_makes_an_orphan :
  forall (uuid_of : nat -> string) (drive : Drive) (driveIds : list string)
         (connectionId : string) (folder : Folder) (schedule : list nat)
         (fuel : nat) (s : State) (error : jsval),
    is_root driveIds (first_parent folder) = false ->
    stored_id (first_parent folder) connectionId s = None ->
    (forall n, files_get drive n (first_parent folder) = Rejected error) ->
    0 < fuel ->
    28 * fuel < count_occ Nat.eq_dec schedule 0 ->
    exists s',
      exec (processFoldersWithParents uuid_of schedule fuel [folder]
              connectionId driveIds drive) s
      = (Ok [with_internal_ids folder None (uuid_of (uuids_drawn s))], s') /\
      logged s'
      = (ERROR, "Failed to resolve parent for folder " +:+ f_id folder)
        :: (WARN, "Found 1 unresolved folders. Resolving them...")
        :: logged s /\
      requests s < requests s' <= requests s + 4.
Proof.
  intros uuid_of drive driveIds connectionId folder schedule fuel s error
    Hroot Hstore Hrej Hfuel Hturns.
  unfold processFoldersWithParents.
  rewrite exec_bind, exec_modify. cbn [and_then].
  rewrite exec_bind, exec_modify. cbn [and_then].
  rewrite exec_bind, exec_modify. cbn [and_then].
  set (s1 := set_parentLookupCache []
               (set_foldersToSync [] (set_folderIdToInternalIdMap [] s))).
  rewrite exec_bind, resolve_passes_unfold.
  cbn [length Nat.ltb Nat.leb]. rewrite exec_bind, exec_for_of_cons.
  rewrite exec_resolve_in_pass, exec_resolveParentId.
  cbn [folderIdToInternalIdMap parentLookupCache s1 set_parentLookupCache
       set_foldersToSync set_folderIdToInternalIdMap Map_get].
  rewrite Hroot.
  assert (Hstore1 : stored_id (first_parent folder) connectionId s1 = None)
    by exact Hstore.
  rewrite Hstore1. cbn [and_then for_of app]. rewrite exec_ret.
  cbn [and_then isStuckInLoop length Nat.eqb].
  rewrite exec_bind, exec_gets. cbn [and_then foldersToSync set_parentLookupCache
                                      s1 set_foldersToSync map Map_of fold_left].
  rewrite exec_await. unfold handleUnresolvedFolders.
  rewrite exec_bind, exec_logger. cbn [and_then length map].
  change ("Found " +:+ string_of_nat 1
          +:+ " unresolved folders. Resolving them...")
    with "Found 1 unresolved folders. Resolving them...".
  set (warning := (WARN, "Found 1 unresolved folders. Resolving them...")).
  match goal with
  | |- context [set_logged ?l ?st] => set (s2 := set_logged l st)
  end.
  assert (Hwalk : exists s3,
             exec (resolve_pending uuid_of fuel [] driveIds connectionId drive
                     folder) s2 = (Ok tt, s3) /\
             foldersToSync s3
             = [with_internal_ids folder None (uuid_of (uuids_drawn s))] /\
             logged s3
             = (ERROR, "Failed to resolve parent for folder " +:+ f_id folder)
               :: warning :: logged s /\
             requests s < requests s3 <= requests s + 4).
  { destruct fuel as [|fuel]; [lia|].
    unfold resolve_pending. rewrite exec_bind, exec_await.
    cbn [getInternalParentRecursive Set_has existsb].
    rewrite exec_bind, exec_await, exec_resolveParentId.
    assert (Hcached : Map_get (first_parent folder) (parentLookupCache s2)
                      = Some None).
    { cbn. destruct (decide (first_parent folder = first_parent folder));
        [reflexivity|contradiction]. }
    assert (Hids : Map_get (first_parent folder) (folderIdToInternalIdMap s2)
                   = None) by reflexivity.
    rewrite Hids, Hroot, Hcached. cbn [and_then truthy].
    rewrite exec_bind, exec_try_catch, exec_bind. cbn [Map_get].
    rewrite exec_await.
    destruct (executeWithRetry_rejected
                (fun n => files_get drive n (first_parent folder)) error s2 Hrej)
      as (error' & s' & -> & (n & t & -> & Hn)).
    cbn [and_then or_else].
    rewrite exec_bind, exec_logger. cbn [and_then]. rewrite exec_ret.
    cbn [and_then]. rewrite exec_ret. cbn [and_then].
    eexists. split; [reflexivity|]. cbn. split; [reflexivity|].
    split; [reflexivity|]. cbn in Hn. exact Hn. }
  destruct Hwalk as (s3 & Hwalk & Hout & Hlog & Hreq).
  rewrite exec_bind, exec_await.
  rewrite (exec_Promise_all_single schedule _ (S (28 * fuel)) s2)
    by (apply takes_resolve_pending || lia).
  rewrite Hwalk. cbn [fst snd only and_then]. rewrite exec_ret.
  cbn [and_then]. rewrite exec_gets. exists s3. rewrite Hout. auto.
Qed.

Lemma unreachable_parent_makes_an_orphan_witness :
  exists s',
    exec (processFoldersWithParents uuid_nth (repeat 0 30) 1
            [folder_of "f" (Some ["q"])] "c" ["drive-0"] drive_p_under_root)
         idle
    = (Ok [with_internal_ids (folder_of "f" (Some ["q"])) None "uuid-0"], s') /\
    logged s'
    = [(ERROR, "Failed to resolve parent for folder f");
       (WARN, "Found 1 unresolved folders. Resolving them...")] /\
    0 < requests s' <= 4.
Proof.
  apply (unreachable_parent_makes_an_orphan uuid_nth drive_p_under_root
           ["drive-0"] "c" (folder_of "f" (Some ["q"])) (repeat 0 30) 1 idle
           (Obj {[ "code" := ANum 404;
                   "message" := AStr "File not found" ]})).
  - reflexivity.
  - reflexivity.
  - intros n. reflexivity.
  - lia.
  - vm_compute. lia.
Defined.

(** * The full scan *)

Lemma indexed_In {X} (xs : list X) :
  forall n i x, In (i, x) (indexed n xs) -> In x xs.
Proof.
  induction xs as [|y xs IH]; intros n i x; cbn [indexed In]; [tauto|].
  intros [[= _ ->]|Hin]; [left; reflexivity|right; eauto].
Qed.

Section FullScan.
Variable uuid_of : nat -> string.

(** The number of identifiers drawn before the scan. *)
Variable base : nat.

(** The folders collected so far, each with the number of the draw that
    gave it its identifier: no draw is used twice, and a folder with a
    parent has the identifier of a folder collected from an earlier
    draw. *)
Definition drawn_in_order (entries : list (Folder * nat)) (n : nat) : Prop :=
  base <= n /\
  List.NoDup (map snd entries) /\
  forall f k, In (f, k) entries ->
    base <= k < n /\ internal_id f = Some (uuid_of k) /\
    forall q, internal_parent_folder_id f = Some q ->
      exists g kg, In (g, kg) entries /\ internal_id g = Some q /\ kg < k.

Definition well_collected (s : State) : Prop :=
  exists entries,
    map fst entries = googleDriveFolders s /\
    drawn_in_order entries (uuids_drawn s).

(** A step of a scan: folders are added to the collection, which stays
    well collected. *)
Definition scan_step (s s' : State) : Prop :=
  (exists l, googleDriveFolders s' = googleDriveFolders s ++ l) /\
  (well_collected s -> well_collected s').

Lemma scan_step_refl s : scan_step s s.
Proof. split; [exists []; rewrite app_nil_r; reflexivity|auto]. Qed.

Lemma scan_step_trans s1 s2 s3 :
  scan_step s1 s2 -> scan_step s2 s3 -> scan_step s1 s3.
Proof.
  intros [[l1 H1] G1] [[l2 H2] G2]. split; [|auto].
  exists (l1 ++ l2). rewrite H2, H1, app_assoc. reflexivity.
Qed.

Lemma scan_step_requests s n : scan_step s (set_requests n s).
Proof. split; [exists []; rewrite app_nil_r; reflexivity|auto]. Qed.

Lemma scan_step_timers s t : scan_step s (set_timers t s).
Proof. split; [exists []; rewrite app_nil_r; reflexivity|auto]. Qed.

(** The folder with the identifier [id] has been collected. *)
Definition collected (id : option string) (s : State) : Prop :=
  match id with
  | None => True
  | Some q => exists g, In g (googleDriveFolders s) /\ internal_id g = Some q
  end.

Lemma collected_stable id : stable scan_step (collected id).
Proof.
  intros s s' H [[l Hl] _]. destruct id as [q|]; [|exact I].
  destruct H as (g & Hg & Hid). exists g. split; [|exact Hid].
  rewrite Hl. apply in_or_app. left. exact Hg.
Qed.

(** What the [forEach] of [populateFolders] makes of the folders of one
    level: the n-th draw for the first, and so on. *)
Definition stamped (folder : Folder) (internalParentId : option string)
    (n : nat) : Folder :=
  {| f_id := f_id folder; f_name := f_name folder;
     f_parents := f_parents folder; f_driveId := f_driveId folder;
     f_permissions := f_permissions folder;
     internal_id := Some (uuid_of n);
     internal_parent_folder_id := internalParentId |}.

Fixpoint stamp (internalParentId : option string) (n : nat)
    (folders : list Folder) : list (Folder * nat) :=
  match folders with
  | [] => []
  | folder :: folders' =>
      (stamped folder internalParentId n, n)
      :: stamp internalParentId (S n) folders'
  end.

Lemma stamp_In internalParentId folders :
  forall n f k, In (f, k) (stamp internalParentId n folders) ->
    n <= k < n + length folders /\
    internal_id f = Some (uuid_of k) /\
    internal_parent_folder_id f = internalParentId.
Proof.
  induction folders as [|x xs IH]; intros n f k; cbn [stamp In length];
    [tauto|].
  intros [[= <- <-]|Hin].
  - split; [lia|]. split; reflexivity.
  - destruct (IH _ _ _ Hin) as (Hk & Hid & Hp). split; [lia|auto].
Qed.

Lemma stamp_ranks internalParentId folders :
  forall n, map snd (stamp internalParentId n folders) = seq n (length folders).
Proof.
  induction folders as [|x xs IH]; intros n; cbn [stamp map snd length seq];
    [reflexivity|]. rewrite IH. reflexivity.
Qed.

Lemma map_in_order_stamp internalParentId folders :
  forall s,
    map_in_order
      (fun folder =>
         id <- uuidv4 uuid_of;
         ret {| f_id := f_id folder; f_name := f_name folder;
                f_parents := f_parents folder;
                f_driveId := f_driveId folder;
                f_permissions := f_permissions folder;
                internal_id := Some id;
                internal_parent_folder_id := internalParentId |})
      folders s
    = (Settled (Ok (map fst (stamp internalParentId (uuids_drawn s) folders))),
       set_uuids_drawn (uuids_drawn s + length folders) s).
Proof.
  induction folders as [|x xs IH]; intros s; cbn [map_in_order stamp map length].
  - unfold ret. f_equal. destruct s; unfold set_uuids_drawn; cbn. f_equal. lia.
  - unfold bind at 1. unfold bind at 1. cbn [uuidv4 then_ ret].
    unfold bind at 1. rewrite IH. cbn [then_ ret uuids_drawn set_uuids_drawn].
    f_equal. destruct s; unfold set_uuids_drawn; cbn. f_equal. lia.
Qed.

(** Adding one level to the collection. *)
Lemma collect_level internalParentId folders s :
  collected internalParentId s ->
  scan_step s
    (set_googleDriveFolders
       (googleDriveFolders s
        ++ map fst (stamp internalParentId (uuids_drawn s) folders))
       (set_uuids_drawn (uuids_drawn s + length folders) s)).
Proof.
  intros Hparent. split; [eexists; reflexivity|].
  intros (entries & Hfst & Hbase & Hnd & Hall).
  exists (entries ++ stamp internalParentId (uuids_drawn s) folders).
  split; [rewrite map_app, Hfst; reflexivity|].
  split; [cbn; lia|]. split.
  - rewrite map_app. apply List.NoDup_app.
    + exact Hnd.
    + rewrite stamp_ranks. apply seq_NoDup.
    + intros k Hk. rewrite stamp_ranks. intros Hk'. apply in_seq in Hk'.
      apply in_map_iff in Hk as ([f k'] & <- & Hin).
      destruct (Hall _ _ Hin) as (Hb & _). cbn in Hk'. lia.
  - intros f k Hin. cbn [uuids_drawn set_googleDriveFolders set_uuids_drawn].
    apply in_app_or in Hin as [Hin|Hin].
    + destruct (Hall _ _ Hin) as (Hb & Hid & Hp). split; [lia|].
      split; [exact Hid|]. intros q Hq.
      destruct (Hp q Hq) as (g & kg & Hg & Hgid & Hlt).
      exists g, kg. split; [apply in_or_app; left; exact Hg|auto].
    + destruct (stamp_In _ _ _ _ _ Hin) as (Hk & Hid & Hp).
      split; [lia|]. split; [exact Hid|]. intros q Hq.
      rewrite Hp in Hq. rewrite Hq in Hparent.
      cbn [collected] in Hparent. destruct Hparent as (g & Hg & Hgid).
      rewrite <- Hfst in Hg. apply in_map_iff in Hg as ([g' kg] & Hg' & Hin').
      cbn in Hg'. subst g'.
      destruct (Hall _ _ Hin') as (Hb & _).
      exists g, kg. split; [apply in_or_app; left; exact Hin'|].
      split; [exact Hgid|lia].
Qed.

Local Abbreviation known_after P c := (keeps scan_step P c).

Lemma listing_keeps {A} (P : State -> Prop) (c : Async A) budget retryCount :
  stable scan_step P -> known_after P c ->
  known_after P (executeWithRetry_from budget c retryCount).
Proof.
  intros HP Hc.
  apply (keeps_executeWithRetry_from scan_step scan_step_refl scan_step_trans
           scan_step_timers P c HP Hc).
Qed.

Lemma fetchFoldersForParent_from_keeps (P : State -> Prop) drive parentId
    driveId :
  stable scan_step P ->
  forall fuel pageToken folders,
    known_after P
      (fetchFoldersForParent_from fuel drive parentId driveId pageToken
         folders).
Proof.
  intros HP. induction fuel as [|fuel IH]; intros pageToken folders;
    cbn [fetchFoldersForParent_from].
  - apply keeps_out_of_fuel, scan_step_refl.
  - apply (keeps_bind scan_step scan_step_refl scan_step_trans).
    + apply (keeps_await scan_step scan_step_refl); [exact HP|].
      apply listing_keeps; [exact HP|].
      apply (keeps_request scan_step scan_step_refl scan_step_requests).
      exact HP.
    + intros response.
      destruct (truthy (nextPageToken response)); [apply IH|].
      apply keeps_ret, scan_step_refl.
Qed.

Lemma fetchFoldersForParent_keeps (P : State -> Prop) fuel drive rootDriveId
    parentId driveId :
  stable scan_step P ->
  known_after P (fetchFoldersForParent fuel drive rootDriveId parentId driveId).
Proof.
  intros HP. unfold fetchFoldersForParent.
  apply (keeps_try_catch scan_step scan_step_refl scan_step_trans).
  - apply (keeps_bind scan_step scan_step_refl scan_step_trans).
    + apply fetchFoldersForParent_from_keeps. exact HP.
    + intros folders. apply keeps_ret, scan_step_refl.
  - intros e. destruct (message_of e); apply keeps_throw, scan_step_refl.
Qed.

Lemma bind_sync {A B} (c : Async A) (k : A -> Async B) s a s1 :
  c s = (Settled (Ok a), s1) -> bind c k s = k a s1.
Proof. intros H. unfold bind. rewrite H. reflexivity. Qed.

Definition whatever {A} (r : Outcome A) (s : State) : Prop := True.

Lemma whatever_stable {A} : stable_post scan_step (@whatever A).
Proof. intros r s s' _ _. exact I. Qed.

(** The descent from one folder. *)
Lemma populateFolders_collects drive rootDriveId :
  forall fuel schedule parentId internalParentId level driveId,
    rcall scan_step (collected internalParentId) whatever
      (populateFolders uuid_of fuel schedule drive rootDriveId parentId
         internalParentId level driveId).
Proof.
  induction fuel as [|fuel IH];
    intros schedule parentId internalParentId level driveId;
    cbn [populateFolders].
  - apply rcall_out_of_fuel; [apply scan_step_refl|]. intros s _. exact I.
  - eapply (rcall_bind scan_step scan_step_refl scan_step_trans)
      with (Q1 := fun _ s => collected internalParentId s).
    + apply (keeps_await scan_step scan_step_refl);
        [apply collected_stable|].
      apply fetchFoldersForParent_keeps, collected_stable.
    + intros currentLevelFolders s Hparent.
      rewrite (bind_sync _ _ s _ _
                 (map_in_order_stamp internalParentId currentLevelFolders s)).
      rewrite (bind_sync (modify _) _ _ tt _ eq_refl).
      set (level_folders :=
             map fst (stamp internalParentId (uuids_drawn s)
                        currentLevelFolders)).
      set (s2 := set_googleDriveFolders _ _).
      assert (Hstep : scan_step s s2)
        by exact (collect_level internalParentId currentLevelFolders s
                    Hparent).
      assert (Hrest :
        rcall scan_step
          (fun s' => forall g, In g level_folders ->
                               In g (googleDriveFolders s'))
          whatever
          (bind
             (await
                (Promise_all (turns_of schedule)
                   (map (fun child =>
                           populateFolders uuid_of fuel
                             (inner_of schedule (fst child)) drive rootDriveId
                             (Some (f_id (snd child)))
                             (internal_id (snd child)) (level + 1) driveId)
                        (indexed 0 level_folders))))
             (fun _ => ret tt))).
      { eapply (rcall_bind scan_step scan_step_refl scan_step_trans)
          with (Q1 := all_post whatever).
        - apply (rcall_await scan_step scan_step_refl);
            [apply (all_post_stable scan_step), whatever_stable|].
          apply (rcall_Promise_all scan_step scan_step_refl scan_step_trans);
            [apply whatever_stable|].
          intros s' Hin. apply List.Forall_forall. intros c Hc.
          apply in_map_iff in Hc as ([i child] & <- & Hchild).
          apply indexed_In in Hchild. cbn [fst snd].
          exists (collected (internal_id child)).
          split; [apply collected_stable|]. split; [|apply IH].
          destruct (internal_id child) as [q|] eqn:E; [|exact I].
          exists child. split; [apply Hin; exact Hchild|exact E].
        - intros l. apply rcall_ret; [apply scan_step_refl|].
          intros s' _. exact I.
        - intros e s' _. exact I.
        - intros s' _. exact I. }
      destruct (Hrest s2) as [Hg Hw].
      { intros g Hg. subst s2. cbn [googleDriveFolders set_googleDriveFolders].
        apply in_or_app. right. exact Hg. }
      split; [eapply scan_step_trans; eauto|exact Hw].
    + intros e s _. exact I.
    + intros s _. exact I.
Qed.

(** The scan of all the drives, one after the other. *)
Lemma drives_collected drive rootDriveId fuel schedules driveIds :
  rcall scan_step anywhere whatever
    (for_of (indexed 0 driveIds)
       (fun (_ : unit) (driveId : nat * string) =>
          await (populateFolders uuid_of fuel (schedules (fst driveId)) drive
                   rootDriveId None None 0 (snd driveId)))
       tt).
Proof.
  apply (rcall_for_of scan_step scan_step_refl scan_step_trans
           (fun _ _ => True) whatever).
  - intros [] driveId _.
    apply (rcall_await scan_step scan_step_refl).
    + intros r s s' H _. destruct r; exact I.
    + eapply rcall_weaken; [apply populateFolders_collects|auto|].
      intros r s _. destruct r; exact I.
  - intros [] s _. exact I.
Qed.

End FullScan.

(** What a full scan returns. *)
Lemma full_scan_collects uuid_of google_drive fuel schedules auth
    connectionId s output s' :
  exec (recursiveGetGoogleDriveFolders uuid_of google_drive fuel schedules
          auth connectionId) s
  = (Ok output, s') ->
  exists base entries,
    map fst entries = output /\
    drawn_in_order uuid_of base entries (uuids_drawn s').
Proof.
  unfold recursiveGetGoogleDriveFolders.
  rewrite exec_bind, exec_await.
  match goal with
  | |- context [and_then ?r _] => destruct r as [[rootDriveId|e|] sA]
  end; cbn [and_then]; try discriminate.
  rewrite exec_try_catch, exec_bind, exec_await.
  match goal with
  | |- context [and_then ?r _] => destruct r as [[driveIds|e|] sB]
  end; cbn [and_then or_else].
  2:{ rewrite exec_bind, exec_logger. cbn [and_then]. rewrite exec_throw.
      discriminate. }
  2:{ discriminate. }
  rewrite exec_bind, exec_modify. cbn [and_then].
  set (sC := set_googleDriveFolders [] sB).
  rewrite exec_bind.
  pose proof (rcall_exec (scan_step uuid_of (uuids_drawn sC))
                (scan_step_refl uuid_of (uuids_drawn sC))
                (scan_step_trans uuid_of (uuids_drawn sC))
                anywhere whatever _ sC
                (drives_collected uuid_of (uuids_drawn sC) (google_drive auth)
                   rootDriveId fuel schedules driveIds) I) as [[_ Hgood] _].
  match type of Hgood with
  | _ -> well_collected _ _ (snd ?r) => destruct r as [[[]|e|] sD]
  end; cbn [and_then or_else fst snd] in *.
  - rewrite exec_gets. cbn [or_else]. intros [= <- <-].
    destruct Hgood as (entries & Hfst & Hdrawn).
    { exists []. split; [reflexivity|]. split; [cbn; lia|]. split.
      - constructor.
      - intros f k []. }
    exists (uuids_drawn sC), entries. auto.
  - rewrite exec_bind, exec_logger. cbn [and_then]. rewrite exec_throw.
    discriminate.
  - discriminate.
Qed.

Lemma entries_identifiers (uuid_of : nat -> string)
    (entries : list (Folder * nat)) :
  (forall f k, In (f, k) entries -> internal_id f = Some (uuid_of k)) ->
  Forall2 (fun folder k => internal_id folder = Some (uuid_of k))
          (map fst entries) (map snd entries).
Proof.
  induction entries as [|[f k] rest IH]; intros Hall; cbn [map fst snd];
    constructor.
  - apply Hall. left. reflexivity.
  - apply IH. intros f' k' Hin. apply Hall. right. exact Hin.
Qed.

Lemma NoDup_map_injective {A B} (f : A -> B) (l : list A) :
  (forall x y, f x = f y -> x = y) -> List.NoDup l -> List.NoDup (map f l).
Proof.
  intros Hinj. induction 1 as [|x l Hx _ IH]; cbn [map]; constructor;
    [|exact IH].
  intros Hin. apply in_map_iff in Hin as (y & Hy & Hin).
  apply Hinj in Hy. subst y. contradiction.
Qed.

Lemma Forall2_identifiers (uuid_of : nat -> string) output draws :
  Forall2 (fun folder k => internal_id folder = Some (uuid_of k))
          output draws ->
  map internal_id output = map (fun k => Some (uuid_of k)) draws.
Proof.
  induction 1 as [|f k output draws Hfk _ IH]; cbn [map]; [reflexivity|].
  rewrite Hfk, IH. reflexivity.
Qed.

(** X20.  Every folder that a full scan returns has an identifier drawn
    during the scan, and no draw is used for two folders: when [uuidv4]
    never repeats itself, the internal ids of the output are all
    different. *)
Theorem full_scan_draws_every_identifier :
  forall (uuid_of : nat -> string) (google_drive : string -> Drive)
         (fuel : nat) (schedules : nat -> Schedule)
         (auth connectionId : string) (s s' : State) (output : list Folder),
    exec (recursiveGetGoogleDriveFolders uuid_of google_drive fuel schedules
            auth connectionId) s
    = (Ok output, s') ->
    exists draws : list nat,
      Forall2 (fun folder k => internal_id folder = Some (uuid_of k))
              output draws /\
      List.NoDup draws /\
      (forall k, In k draws -> k < uuids_drawn s') /\
      ((forall i j, uuid_of i = uuid_of j -> i = j) ->
       List.NoDup (map internal_id output)).
Proof.
  intros uuid_of google_drive fuel schedules auth connectionId s s' output H.
  destruct (full_scan_collects _ _ _ _ _ _ _ _ _ H)
    as (base & entries & <- & _ & Hnd & Hall).
  exists (map snd entries).
  assert (Hids : Forall2 (fun folder k => internal_id folder = Some (uuid_of k))
                         (map fst entries) (map snd entries)).
  { apply entries_identifiers. intros f k Hin. apply (Hall f k Hin). }
  split; [exact Hids|]. split; [exact Hnd|]. split.
  - intros k Hk. apply in_map_iff in Hk as ([f k'] & <- & Hin).
    cbn [snd]. destruct (Hall f k' Hin) as (Hb & _). lia.
  - intros Hinj. rewrite (Forall2_identifiers _ _ _ Hids).
    apply NoDup_map_injective; [|exact Hnd].
    intros i j [= Hij]. apply Hinj. exact Hij.
Qed.

(** X21.  In the output of a full scan a parent reference is the internal
    id of a folder of the same output, whose identifier was drawn earlier:
    no reference dangles and there is no cycle, whatever the provider
    answers and however the subfolders are interleaved. *)
Theorem full_scan_output_is_a_forest :
  forall (uuid_of : nat -> string) (google_drive : string -> Drive)
         (fuel : nat) (schedules : nat -> Schedule)
         (auth connectionId : string) (s s' : State) (output : list Folder),
    exec (recursiveGetGoogleDriveFolders uuid_of google_drive fuel schedules
            auth connectionId) s
    = (Ok output, s') ->
    exists entries : list (Folder * nat),
      map fst entries = output /\
      forall folder k q,
        In (folder, k) entries ->
        internal_parent_folder_id folder = Some q ->
        exists parent k',
          In (parent, k') entries /\ internal_id parent = Some q /\ k' < k.
Proof.
  intros uuid_of google_drive fuel schedules auth connectionId s s' output H.
  destruct (full_scan_collects _ _ _ _ _ _ _ _ _ H)
    as (base & entries & Hfst & _ & _ & Hall).
  exists entries. split; [exact Hfst|].
  intros folder k q Hin Hq. apply (Hall folder k Hin). exact Hq.
Qed.

(** A drive with the folders "x" and "y", and "x1" inside "x". *)
Definition small_tree : Drive :=
  {| files_get := fun _ fileId =>
       if String.eqb fileId "root" then Resolved (Some (folder_of "R" None))
       else Rejected (new_Error "not found");
     files_list := fun _ params _ =>
       match list_q params with
       | FoldersIn parent =>
           if String.eqb parent "R" then
             Resolved {| files := Some [folder_of "x" (Some ["R"]);
                                        folder_of "y" (Some ["R"])];
                         nextPageToken := None |}
           else if String.eqb parent "x" then
             Resolved {| files := Some [folder_of "x1" (Some ["x"])];
                         nextPageToken := None |}
           else Resolved {| files := None; nextPageToken := None |}
       | ModifiedSince _ =>
           Resolved {| files := None; nextPageToken := None |}
       end;
     drives_list := fun _ _ =>
       Resolved {| drives := Some []; drives_nextPageToken := None |} |}.

(** The descent into the subfolders of a level, each in its turn. *)
Fixpoint in_turn (depth : nat) : Schedule :=
  match depth with
  | O => Idle
  | S depth' => Turns (concat (repeat [0; 1] 40)) (fun _ => in_turn depth')
  end.

Definition small_scan : Outcome (list Folder) * State :=
  exec (recursiveGetGoogleDriveFolders uuid_nth (fun _ => small_tree) 4
          (fun _ => in_turn 3) "token" "c") idle.

Example small_scan_run :
  map (fun folder => (f_id folder, internal_id folder,
                      internal_parent_folder_id folder))
      (output_of small_scan)
  = [("x", Some "uuid-0", None); ("y", Some "uuid-1", None);
     ("x1", Some "uuid-2", Some "uuid-0")].
Proof. vm_compute. reflexivity. Qed.

Lemma full_scan_draws_every_identifier_witness :
  exists draws : list nat,
    Forall2 (fun folder k => internal_id folder = Some (uuid_nth k))
            (output_of small_scan) draws /\
    List.NoDup draws /\
    (forall k, In k draws -> k < uuids_drawn (snd small_scan)) /\
    ((forall i j, uuid_nth i = uuid_nth j -> i = j) ->
     List.NoDup (map internal_id (output_of small_scan))).
Proof.
  apply (full_scan_draws_every_identifier uuid_nth (fun _ => small_tree) 4
           (fun _ => in_turn 3) "token" "c" idle (snd small_scan)
           (output_of small_scan)).
  vm_compute. reflexivity.
Defined.

Lemma full_scan_output_is_a_forest_witness :
  exists entries : list (Folder * nat),
    map fst entries = output_of small_scan /\
    forall folder k q,
      In (folder, k) entries ->
      internal_parent_folder_id folder = Some q ->
      exists parent k',
        In (parent, k') entries /\ internal_id parent = Some q /\ k' < k.
Proof.
  apply (full_scan_output_is_a_forest uuid_nth (fun _ => small_tree) 4
           (fun _ => in_turn 3) "token" "c" idle (snd small_scan)
           (output_of small_scan)).
  vm_compute. reflexivity.
Defined.

(** * An incremental run, from the connection to the answer *)

Lemma known_store driveIds connectionId s s' parentId :
  fs_folders s' = fs_folders s ->
  known driveIds connectionId s parentId ->
  known driveIds connectionId s' parentId.
Proof.
  intros Hst [Hr|(id & Hid)]; [left; exact Hr|right].
  exists id. rewrite (stored_id_store _ _ s s' Hst). exact Hid.
Qed.

Lemma allPermissions_none (folders : list Folder) :
  (forall f, In f folders -> f_permissions f = None) ->
  allPermissions folders = [].
Proof.
  unfold allPermissions. generalize (@nil PermissionRef).
  induction folders as [|f folders IH]; intros acc Hnone; cbn [fold_left].
  - reflexivity.
  - rewrite (Hnone f) by (left; reflexivity).
    apply IH. intros f' Hin. apply Hnone. right. exact Hin.
Qed.

(** X22.  An incremental run from end to end: with a connection, a last
    sync time, a provider that lists its drives and the folders modified
    since, these folders forming a hierarchy over drives and stored folders
    and having no permissions, [sync] answers 200 with every modified
    folder resolved once.  It has sent one request for each page of drives,
    one for the root and one for each page of folders, waited 100 ms once,
    and stored nothing. *)
Theorem incremental_sync_of_a_hierarchy :
  forall (uuid_of : nat -> string) (decrypt : string -> Reply string)
         (google_drive : string -> Drive)
         (ingestData : list PermissionRef -> string -> string -> string ->
                       string -> Async (list UnifiedPermission))
         (schedule : list nat) (schedules : nat -> Schedule) (fuel : nat)
         (linkedUserId : string) (s : State) (connection : connection)
         (auth rootId : string) (lastSyncTime : Z)
         (drives : list string) (more_drives : list (list string))
         (page : list Folder) (more_pages : list (list Folder))
         (depth : Folder -> nat),
    let driveIds := concat (drives :: more_drives) ++ [rootId] in
    let modified := concat (page :: more_pages) in
    exec (connections_findFirst linkedUserId "googledrive" "filestorage") s
    = (Ok (Some connection), s) ->
    decrypt (access_token connection) = Resolved auth ->
    exec (getLastSyncTime (id_connection connection)) s
    = (Ok (Some lastSyncTime), s) ->
    serves_drives (google_drive auth) None drives more_drives ->
    (forall n, exists data,
        files_get (google_drive auth) n "root" = Resolved (Some data) /\
        f_id data = rootId) ->
    serves (google_drive auth)
      {| list_q := ModifiedSince lastSyncTime; list_driveId := None |}
      None page more_pages ->
    length more_drives < fuel -> length more_pages < fuel ->
    (forall n, uuid_of n <> "") ->
    (forall f, In f modified ->
       known driveIds (id_connection connection) s (first_parent f) \/
       exists g, In g modified /\ f_id g = first_parent f /\
                 depth g < depth f) ->
    (forall f, In f modified -> f_permissions f = None) ->
    exists order output s',
      exec (sync uuid_of decrypt google_drive ingestData schedule schedules
              fuel linkedUserId) s
      = (Ok {| data := output; message := "Google Drive folders retrieved";
               statusCode := 200 |}, s') /\
      Permutation order modified /\
      Forall2 (fun f g => exists parent internalId,
                   g = createFolderWithInternalIds f parent internalId)
              order output /\
      requests s'
      = requests s + length (drives :: more_drives) + 1
        + length (page :: more_pages) /\
      timers s' = RATE_LIMIT_DELAY :: timers s /\
      fs_folders s' = fs_folders s.
Proof.
  intros uuid_of decrypt google_drive ingestData schedule schedules fuel
    linkedUserId s connection auth rootId lastSyncTime drives more_drives
    page more_pages depth driveIds modified
    Hconn Hkey Hlast Hdrives Hroot Hpages Hfuel1 Hfuel2 Huuid Hh Hperm.
  unfold sync. rewrite exec_try_catch, exec_bind, exec_await, Hconn.
  cbn [and_then]. rewrite Hkey, exec_bind, exec_await, Hlast. cbn [and_then].
  rewrite exec_bind, exec_await. unfold getFoldersIncremental.
  rewrite exec_try_catch, exec_bind, exec_await.
  rewrite (exec_fetchDriveIds google_drive auth rootId drives more_drives fuel
             s Hdrives Hroot Hfuel1).
  cbn [and_then]. rewrite exec_bind, exec_await.
  erewrite executeWithRetry_success.
  2:{ unfold getModifiedFolders.
      apply (getModifiedFolders_from_pages (google_drive auth) _ more_pages
               page None []); [exact Hpages|exact Hfuel2]. }
  cbn [and_then app]. rewrite exec_await.
  fold driveIds. fold modified.
  match goal with
  | |- context [exec (processFoldersWithParents _ _ _ _ _ _ _) ?st] =>
      set (s1 := st)
  end.
  destruct (pass_loop_resolves uuid_of driveIds (id_connection connection)
              modified schedule fuel (google_drive auth) depth s1 Huuid)
    as (order & output & s2 & -> & Hord & Hout & Hst & Hrq & Htm & Hlg).
  { intros f Hf. destruct (Hh f Hf) as [Hk|Hg]; [left|right; exact Hg].
    eapply known_store; [|exact Hk]. reflexivity. }
  cbn [and_then or_else].
  assert (Hnone : allPermissions output = []).
  { apply allPermissions_none. intros g Hg.
    destruct (Forall2_in_r _ _ _ Hout g Hg) as (f & Hf & (p & u & ->) & _).
    cbn [f_permissions createFolderWithInternalIds].
    apply Hperm. apply (Permutation_in _ Hord). exact Hf. }
  rewrite exec_bind, exec_logger. cbn [and_then].
  rewrite exec_bind, exec_await.
  assert (Hingest : exists warning,
             exec (ingestPermissionsForFolders ingestData output
                     (id_connection connection))
                  (set_logged
                     ((CONSOLE, "Got " +:+ string_of_nat (length output)
                                +:+ " folders") :: logged s2) s2)
             = (Ok output,
                set_logged
                  ((WARN, warning)
                   :: (CONSOLE, "Got " +:+ string_of_nat (length output)
                                +:+ " folders") :: logged s2) s2)).
  { unfold ingestPermissionsForFolders. destruct (length output =? 0).
    - eexists. rewrite exec_bind, exec_logger. cbn [and_then].
      rewrite exec_ret. reflexivity.
    - eexists. rewrite exec_try_catch, Hnone. cbn [length Nat.eqb].
      rewrite exec_bind, exec_logger. cbn [and_then]. rewrite exec_ret.
      reflexivity. }
  destruct Hingest as (warning & ->). cbn [and_then].
  rewrite exec_bind, exec_logger. cbn [and_then]. rewrite exec_ret.
  cbn [or_else].
  exists order, output. eexists. split; [reflexivity|].
  split; [exact Hord|]. split.
  { eapply Forall2_impl; [exact Hout|]. intros f g (H & _). exact H. }
  cbn [requests timers fs_folders set_logged].
  rewrite Hrq, Htm, Hst. subst s1.
  cbn [requests timers fs_folders set_requests waited set_timers length].
  repeat split; lia.
Qed.

(** The store after an earlier run for the connection "c" of "user-1",
    which persisted folder "P". *)
Definition synced_before : State :=
  {| connections :=
       [ {| id_connection := "c"; id_linked_user := "user-1";
            provider_slug := "googledrive";
            vertical := "filestorage"; access_token := "x" |} ];
     fs_folders := [ {| id_fs_folder := "id-of-P"; remote_id := "P";
                        folder_id_connection := "c";
                        remote_modified_at := Some 5%Z |} ];
     fs_permissions := [];
     uuids_drawn := 0; requests := 0; timers := []; logged := [];
     folderIdToInternalIdMap := []; parentLookupCache := [];
     foldersToSync := []; googleDriveFolders := [] |}.

(** A provider with one shared drive, the root folder "my", and the two
    folders of [child_before_parent] modified since the last run. *)
Definition two_modified : Drive :=
  {| files_get := fun _ fileId =>
       if String.eqb fileId "root" then Resolved (Some (folder_of "my" None))
       else Resolved None;
     files_list := fun _ _ _ =>
       Resolved {| files := Some child_before_parent; nextPageToken := None |};
     drives_list := fun _ _ =>
       Resolved {| drives := Some ["drive-0"];
                   drives_nextPageToken := None |} |}.

Lemma incremental_sync_of_a_hierarchy_witness :
  exists order output s',
    exec (sync uuid_nth (fun token => Resolved token) (fun _ => two_modified)
            (fun _ _ _ _ _ => ret []) [] (fun _ => Idle) 5 "user-1")
         synced_before
    = (Ok {| data := output; message := "Google Drive folders retrieved";
             statusCode := 200 |}, s') /\
    Permutation order child_before_parent /\
    Forall2 (fun f g => exists parent internalId,
                 g = createFolderWithInternalIds f parent internalId)
            order output /\
    requests s' = 3 /\
    timers s' = [RATE_LIMIT_DELAY] /\
    fs_folders s' = fs_folders synced_before.
Proof.
  apply (incremental_sync_of_a_hierarchy uuid_nth (fun token => Resolved token)
           (fun _ => two_modified) (fun _ _ _ _ _ => ret []) []
           (fun _ => Idle) 5 "user-1" synced_before
           {| id_connection := "c"; id_linked_user := "user-1";
              provider_slug := "googledrive";
              vertical := "filestorage"; access_token := "x" |}
           "x" "my" 5%Z ["drive-0"] [] child_before_parent [] depth_of_child).
  - reflexivity.
  - reflexivity.
  - reflexivity.
  - intros n. eexists. split; [reflexivity|]. split; reflexivity.
  - intros n. eexists. split; reflexivity.
  - intros n. eexists. split; [reflexivity|]. split; reflexivity.
  - cbn. lia.
  - cbn. lia.
  - exact uuid_nth_not_empty.
  - intros f [<-|[<-|[]]].
    + right. exists (folder_of "P" (Some ["drive-0"])).
      split; [right; left; reflexivity|]. split; [reflexivity|]. cbn. lia.
    + left. left. reflexivity.
  - intros f [<-|[<-|[]]]; reflexivity.
Defined.

Example incremental_sync_run :
  match fst (exec (sync uuid_nth (fun token => Resolved token)
                     (fun _ => two_modified) (fun _ _ _ _ _ => ret []) []
                     (fun _ => Idle) 5 "user-1") synced_before) with
  | Ok response =>
      map (fun g => (f_id g, internal_id g, internal_parent_folder_id g))
          (data response)
  | _ => []
  end
  = [("child", Some "uuid-0", Some "id-of-P"); ("P", Some "id-of-P", None)].
Proof. vm_compute. reflexivity. Qed.
